(** * A producer/consumer task pipeline: fake lookup, fake middleware,
      a blocking queue and a pool of worker threads.

    The development embeds the two variants of the program,
    [DistributedSystemCodeSample.cpp] and [DistributedSystemWithSOLID.cpp].
    The sequential code (lookup, notify, handler) is written in a small
    writer/exception monad; the queue and the thread pool are an executable
    small-step semantics in which a scheduler picks the thread that runs
    next. *)

From Stdlib Require Import ZArith String Ascii DecimalString Decimal DecimalZ.
From stdpp Require Import base option list strings gmultiset.

Open Scope Z_scope.

(** ** Values, output and exceptions *)

(** Task identifiers are C++ [int]s.  The program compares and prints them
    and does no arithmetic on them, and the loop counters of [main] stay
    between 0 and 6, so nothing wraps around: identifiers are integers of
    [Z], of which the values of an [int] are a part. *)

(** [std::to_string(int)] and [operator<<(int)]: the decimal rendering, with a
    leading minus sign for negative numbers and no leading zeros. *)
Definition to_string (z : Z) : string := NilZero.string_of_int (Z.to_int z).

(** The two streams the program writes to. *)
Inductive ostream := cout | cerr.

(** What a run leaves behind, in the order it happens: a line written to a
    stream ([os << ... << std::endl], without the line terminator), and an
    entry into [MiddlewareService::sendMessage] with its argument. *)
Inductive event :=
| Print (os : ostream) (line : string)
| Call_sendMessage (message : string).

(** The only exception the program throws.  It derives from [std::exception],
    so the handler [catch (const std::exception&)] matches it. *)
Inductive exception :=
| invalid_argument (what_arg : string).

Definition what (ex : exception) : string :=
  match ex with invalid_argument what_arg => what_arg end.

Inductive outcome (A : Type) :=
| Normal (a : A)
| Thrown (ex : exception).
Arguments Normal {A} a.
Arguments Thrown {A} ex.

(** A computation: the events it emits and how it ends. *)
Definition M (A : Type) : Type := list event * outcome A.

Definition ret {A} (a : A) : M A := ([], Normal a).

Definition throw {A} (ex : exception) : M A := ([], Thrown ex).

Definition bind {A B} (m : M A) (k : A → M B) : M B :=
  match m with
  | (tr, Normal a) => let '(tr', r) := k a in (tr ++ tr', r)
  | (tr, Thrown ex) => (tr, Thrown ex)
  end.

(** [try { m } catch (const std::exception& ex) { h ex }] *)
Definition try_catch {A} (m : M A) (h : exception → M A) : M A :=
  match m with
  | (tr, Normal a) => (tr, Normal a)
  | (tr, Thrown ex) => let '(tr', r) := h ex in (tr ++ tr', r)
  end.

Definition print (os : ostream) (line : string) : M unit :=
  ([Print os line], Normal tt).

Definition enter_sendMessage (message : string) : M unit :=
  ([Call_sendMessage message], Normal tt).

(** stdpp's notations [x ← m; k] and [m;; k] stand for [bind]. *)
Global Instance M_ret : MRet M := @ret.
Global Instance M_bind : MBind M := λ A B k m, bind m k.

Definition events {A} (m : M A) : list event := m.1.
Definition result {A} (m : M A) : outcome A := m.2.

(** The arguments of the calls of [sendMessage] in a trace, in order. *)
Definition notifications (tr : list event) : list string :=
  omap (λ e, match e with Call_sendMessage m => Some m | Print _ _ => None end) tr.

(** The same trace with every line sent to the diagnostic stream. *)
Definition on_cerr (e : event) : event :=
  match e with
  | Print _ line => Print cerr line
  | Call_sendMessage m => Call_sendMessage m
  end.

(** The interface [TaskProcessor]: one pure virtual method. *)
Class TaskProcessor := { processTask : Z → M unit }.

(** ** The thread-safe queue (the same class in both variants)

    [MessageQueue] has three members: [tasks], [queueMutex] and [cv].  Threads
    run [push] and [pop] one statement at a time; a scheduler chooses which
    thread runs next.  The state of [cv] is the set of threads blocked in
    [cv.wait], that is the threads standing at [PopBlocked]. *)
Module MessageQueue.

Definition tid := nat.

(** Where a thread stands inside the queue: the statement it executes
    next, with the local variables that are live there. *)
Inductive call :=
| Idle                      (* outside push and pop *)
| PushLock (taskId : Z)     (* std::lock_guard<std::mutex> lock(queueMutex); *)
| PushEnqueue (taskId : Z)  (* tasks.push(taskId); *)
| PushNotify                (* cv.notify_one(); *)
| PushUnlock                (* } of push: the guard releases the mutex *)
| PopLock                   (* std::unique_lock<std::mutex> lock(queueMutex); *)
| PopTest                   (* cv.wait(lock, pred): test !tasks.empty() *)
| PopBlocked                (* inside cv.wait: mutex released, blocked on cv *)
| PopRelock                 (* unblocked: reacquire the mutex, then test again *)
| PopFront                  (* int taskId = tasks.front(); *)
| PopDequeue (taskId : Z)   (* tasks.pop(); *)
| PopUnlock (taskId : Z).   (* return taskId; the lock releases the mutex *)

Global Instance call_eq_dec : EqDecision call.
Proof. solve_decision. Defined.

Record queue := Queue {
  tasks : list Z;             (* std::queue<int>, front first *)
  queueMutex : option tid;    (* the owner of the mutex, if it is held *)
  threads : list call         (* thread t stands at [threads !! t] *)
}.

(** What the scheduler may ask for.  [hint] names the waiter that
    [notify_one] unblocks when several threads are blocked. *)
Inductive action :=
| Call_push (t : tid) (taskId : Z)   (* idle thread t calls push(taskId) *)
| Call_pop (t : tid)                 (* idle thread t calls pop() *)
| Run (t : tid) (hint : tid).        (* t executes the statement it stands at *)
Arguments Call_push t%_nat taskId%_Z.
Arguments Call_pop t%_nat.
Arguments Run (t hint)%_nat.

(** What a step does, as an observer of the queue records it. *)
Inductive label :=
| Invoke_push (t : tid) (taskId : Z)
| Return_push (t : tid)
| Invoke_pop (t : tid)
| Return_pop (t : tid) (taskId : Z)
| Acquire (t : tid)
| Enqueue (t : tid) (taskId : Z)
| Signal (t : tid) (woken : option tid)
| Block (t : tid)
| Wake (t : tid)
| Ready (t : tid)
| Front (t : tid) (taskId : Z)
| Dequeue (t : tid) (taskId : Z).
Arguments Invoke_push t%_nat taskId%_Z.
Arguments Return_push t%_nat.
Arguments Invoke_pop t%_nat.
Arguments Return_pop t%_nat taskId%_Z.
Arguments Acquire t%_nat.
Arguments Enqueue t%_nat taskId%_Z.
Arguments Signal t%_nat woken.
Arguments Block t%_nat.
Arguments Wake t%_nat.
Arguments Ready t%_nat.
Arguments Front t%_nat taskId%_Z.
Arguments Dequeue t%_nat taskId%_Z.

Definition first_blocked (ths : list call) : option tid :=
  fst <$> list_find (λ c, c = PopBlocked) ths.

(** [cv.notify_one()]: if any threads are blocked on [cv], one of them is
    unblocked: the hinted one if it is blocked, else the first one. *)
Definition notify_one (hint : tid) (ths : list call) : option tid :=
  if decide (ths !! hint = Some PopBlocked) then Some hint else first_blocked ths.

Definition unblock (woken : option tid) (ths : list call) : list call :=
  match woken with
  | Some w => <[w := PopRelock]> ths
  | None => ths
  end.

(** One statement of thread [t].  [None]: the thread cannot run now (the
    mutex is held by another thread, the thread is idle or does not exist),
    or the statement has no defined behaviour ([front] of an empty queue). *)
Definition run_stmt (t hint : tid) (c : call) (σ : queue) : option (label * queue) :=
  match c with
  | Idle => None
  | PushLock v =>
      match queueMutex σ with
      | None => Some (Acquire t, Queue (tasks σ) (Some t) (<[t := PushEnqueue v]> (threads σ)))
      | Some _ => None
      end
  | PushEnqueue v =>
      Some (Enqueue t v, Queue (tasks σ ++ [v]) (queueMutex σ) (<[t := PushNotify]> (threads σ)))
  | PushNotify =>
      let woken := notify_one hint (threads σ) in
      Some (Signal t woken,
            Queue (tasks σ) (queueMutex σ) (<[t := PushUnlock]> (unblock woken (threads σ))))
  | PushUnlock =>
      Some (Return_push t, Queue (tasks σ) None (<[t := Idle]> (threads σ)))
  | PopLock =>
      match queueMutex σ with
      | None => Some (Acquire t, Queue (tasks σ) (Some t) (<[t := PopTest]> (threads σ)))
      | Some _ => None
      end
  | PopTest =>
      match tasks σ with
      | [] => Some (Block t, Queue (tasks σ) None (<[t := PopBlocked]> (threads σ)))
      | _ :: _ => Some (Ready t, Queue (tasks σ) (queueMutex σ) (<[t := PopFront]> (threads σ)))
      end
  | PopBlocked =>
      (* a spurious wake-up, which cv.wait permits at any time *)
      Some (Wake t, Queue (tasks σ) (queueMutex σ) (<[t := PopRelock]> (threads σ)))
  | PopRelock =>
      match queueMutex σ with
      | None => Some (Acquire t, Queue (tasks σ) (Some t) (<[t := PopTest]> (threads σ)))
      | Some _ => None
      end
  | PopFront =>
      match tasks σ with
      | v :: _ =>
          Some (Front t v, Queue (tasks σ) (queueMutex σ) (<[t := PopDequeue v]> (threads σ)))
      | [] => None
      end
  | PopDequeue v =>
      Some (Dequeue t v,
            Queue (tail (tasks σ)) (queueMutex σ) (<[t := PopUnlock v]> (threads σ)))
  | PopUnlock v =>
      Some (Return_pop t v, Queue (tasks σ) None (<[t := Idle]> (threads σ)))
  end.

Definition step (a : action) (σ : queue) : option (label * queue) :=
  match a with
  | Call_push t v =>
      match threads σ !! t with
      | Some Idle =>
          Some (Invoke_push t v, Queue (tasks σ) (queueMutex σ) (<[t := PushLock v]> (threads σ)))
      | _ => None
      end
  | Call_pop t =>
      match threads σ !! t with
      | Some Idle =>
          Some (Invoke_pop t, Queue (tasks σ) (queueMutex σ) (<[t := PopLock]> (threads σ)))
      | _ => None
      end
  | Run t hint =>
      match threads σ !! t with
      | Some c => run_stmt t hint c σ
      | None => None
      end
  end.

(** A schedule is run from a state and the trace observed so far. *)
Fixpoint exec (sched : list action) (tr : list label) (σ : queue)
  : option (list label * queue) :=
  match sched with
  | [] => Some (tr, σ)
  | a :: sched' =>
      match step a σ with
      | Some (l, σ') => exec sched' (tr ++ [l]) σ'
      | None => None
      end
  end.

(** A new queue shared by [n] threads. *)
Definition init (n : nat) : queue := Queue [] None (replicate n Idle).
Arguments init n%_nat.

(** A whole call of [push] or [pop] by [t], run without interruption. *)
Definition push_alone (t : tid) (taskId : Z) : list action :=
  [Call_push t taskId; Run t t; Run t t; Run t t; Run t t].
Definition pop_alone (t : tid) : list action :=
  [Call_pop t; Run t t; Run t t; Run t t; Run t t; Run t t].
Arguments push_alone t%_nat taskId%_Z.
Arguments pop_alone t%_nat.

(** Readings of a trace. *)
Definition enqueued (tr : list label) : list Z :=
  omap (λ l, match l with Enqueue _ v => Some v | _ => None end) tr.
Definition dequeued (tr : list label) : list Z :=
  omap (λ l, match l with Dequeue _ v => Some v | _ => None end) tr.
Definition pushes_called (tr : list label) : list Z :=
  omap (λ l, match l with Invoke_push _ v => Some v | _ => None end) tr.
Definition pops_returned (tr : list label) : list Z :=
  omap (λ l, match l with Return_pop _ v => Some v | _ => None end) tr.
Definition pops_returned_to (t : tid) (tr : list label) : list Z :=
  omap (λ l, match l with
             | Return_pop t' v => if decide (t' = t) then Some v else None
             | _ => None
             end) tr.
Arguments pops_returned_to t%_nat tr.
Definition pushes_returned (tr : list label) : list tid :=
  omap (λ l, match l with Return_push t => Some t | _ => None end) tr.
Definition completed_pushes (tr : list label) : nat :=
  length (pushes_returned tr).
Definition completed_pops (tr : list label) : nat :=
  length (pops_returned tr).
Definition signals (tr : list label) : list (option tid) :=
  omap (λ l, match l with Signal _ w => Some w | _ => None end) tr.

(** The statements executed while holding the mutex. *)
Definition holds_mutex (c : call) : bool :=
  match c with
  | PushEnqueue _ | PushNotify | PushUnlock
  | PopTest | PopFront | PopDequeue _ | PopUnlock _ => true
  | Idle | PushLock _ | PopLock | PopBlocked | PopRelock => false
  end.

(** The task a thread carries between its caller and [tasks]. *)
Definition carried (c : call) : gmultiset Z :=
  match c with
  | PushLock v | PushEnqueue v | PopUnlock v => {[+ v +]}
  | _ => ∅
  end.

Definition in_transit (ths : list call) : gmultiset Z :=
  foldr (λ c acc, carried c ⊎ acc) ∅ ths.

(** A thread that is inside [pop] and has not passed the test. *)
Definition awaiting (c : call) : bool :=
  match c with
  | PopLock | PopTest | PopBlocked | PopRelock => true
  | _ => false
  end.

(** *** What holds in every state the queue can reach *)

(** The mutex is owned exactly by the thread inside a critical section. *)
Definition lock_inv (σ : queue) : Prop :=
  (∀ t c, threads σ !! t = Some c → holds_mutex c = true → queueMutex σ = Some t)
  ∧ (∀ t, queueMutex σ = Some t →
          ∃ c, threads σ !! t = Some c ∧ holds_mutex c = true).

(** How the owner of the mutex changes when [t] moves from [c] to [c']:
    not at all, from nobody to [t], or from [t] to nobody. *)
Inductive lock_move (t : tid) (c c' : call) (m : option tid) : option tid → Prop :=
| lock_keep : holds_mutex c = holds_mutex c' → lock_move t c c' m m
| lock_acquire :
    holds_mutex c = false → holds_mutex c' = true → m = None →
    lock_move t c c' m (Some t)
| lock_release :
    holds_mutex c = true → holds_mutex c' = false → lock_move t c c' m None.

(** [front] and [pop] of [tasks] are only reached with a task in front,
    and the task read by [front] is still in front when it is removed. *)
Definition front_inv (σ : queue) : Prop :=
  ∀ t, (threads σ !! t = Some PopFront → tasks σ ≠ [])
       ∧ (∀ v, threads σ !! t = Some (PopDequeue v) → head (tasks σ) = Some v).

(** The number of threads, weighted by [f], over the thread table. *)
Definition tally (f : call → nat) (ths : list call) : nat :=
  foldr (λ c acc, (f c + acc)%nat) 0%nat ths.

(** Threads whose push has appended its task and has not returned yet. *)
Definition push_in_effect (σ : queue) : nat :=
  tally (λ c, match c with PushNotify | PushUnlock => 1 | _ => 0 end%nat) (threads σ).

(** Threads whose push has signalled and has not returned yet. *)
Definition push_signalled (σ : queue) : nat :=
  tally (λ c, match c with PushUnlock => 1 | _ => 0 end%nat) (threads σ).

(** Threads whose pop has removed its task and has not returned yet. *)
Definition pop_in_effect (σ : queue) : nat :=
  tally (λ c, match c with PopUnlock _ => 1 | _ => 0 end%nat) (threads σ).

Record history_inv (tr : list label) (σ : queue) : Prop := History_inv {
  fifo_order : enqueued tr = dequeued tr ++ tasks σ;
  push_count : length (enqueued tr) = (completed_pushes tr + push_in_effect σ)%nat;
  signal_count : length (signals tr) = (completed_pushes tr + push_signalled σ)%nat;
  pop_count : length (dequeued tr) = (completed_pops tr + pop_in_effect σ)%nat;
  conservation :
    list_to_set_disj (pushes_called tr) =
    list_to_set_disj (pops_returned tr) ⊎ in_transit (threads σ)
    ⊎ list_to_set_disj (tasks σ)
}.

Record consistent (tr : list label) (σ : queue) : Prop := Consistent {
  consistent_lock : lock_inv σ;
  consistent_front : front_inv σ;
  consistent_history : history_inv tr σ
}.

(** The tasks removed by the pops of thread [t], in order. *)
Definition dequeued_by (t : tid) (tr : list label) : list Z :=
  omap (λ l, match l with
             | Dequeue t' v => if decide (t' = t) then Some v else None
             | _ => None
             end) tr.
Arguments dequeued_by t%_nat tr.

(** The task a thread has removed and is about to return. *)
Definition in_return (at_ : option call) : list Z :=
  match at_ with
  | Some (PopUnlock v) => [v]
  | _ => []
  end.

(** What the pops of a thread have returned is what they have removed. *)
Definition returns_inv (tr : list label) (σ : queue) : Prop :=
  ∀ t, dequeued_by t tr = pops_returned_to t tr ++ in_return (threads σ !! t).

(** The scenario of the FIFO property: three pushes, then three pops. *)
Definition fifo_scenario (t : tid) : list action :=
  push_alone t 1 ++ push_alone t 2 ++ push_alone t 3
  ++ pop_alone t ++ pop_alone t ++ pop_alone t.
Arguments fifo_scenario t%_nat.

(** One push by [p], whose signal goes to [w], then [w] runs alone. *)
Definition handover (p w : tid) (taskId : Z) : list action :=
  [Call_push p taskId; Run p w; Run p w; Run p w; Run p w;
   Run w w; Run w w; Run w w; Run w w; Run w w].
Arguments handover (p w)%_nat taskId%_Z.

(** One push by [p], whose signal goes to [w]; a pop by [u] runs before
    [w] does; then [w] reacquires the mutex and tests again. *)
Definition overtaken (p w u : tid) (taskId : Z) : list action :=
  [Call_push p taskId; Run p w; Run p w; Run p w; Run p w;
   Call_pop u; Run u u; Run u u; Run u u; Run u u; Run u u;
   Run w w; Run w w].
Arguments overtaken (p w u)%_nat taskId%_Z.

End MessageQueue.

(** ** The worker pool and its driver

    Both [main] functions have the same shape: start the workers, seed the
    queue, then join or detach the workers and return.  [program] holds what
    the two differ in and the two illustrative constants (3 workers, task
    identifiers 1 to 5).  Thread 0 is the main thread, thread [S i] is worker
    number [i].  Inside the queue a thread runs one statement per step.  A
    call of the handler is one step, labelled with what the call writes and
    how it ends: handlers share no state, but in the source two workers can
    be inside [processTask] at the same time, and how their lines interleave
    on a stream is not modelled.  The return of [main] ends a run: in the
    second variant it destroys [taskQueue] and [taskProcessor] while the
    detached workers may still use them, and what the process does from
    there on is undefined in C++ and not modelled. *)
Module Driver.
Import MessageQueue.

Inductive shutdown := Join | Detach.

Record program := Program {
  nworkers : nat;            (* for (int i = 0; i < 3; ++i) *)
  seed : list Z;             (* for (int i = 1; i <= 5; ++i) *)
  at_shutdown : shutdown;    (* worker.join() or worker.detach() *)
  handler : TaskProcessor    (* the object behind taskProcessor *)
}.

Inductive main_pc :=
| Spawning (i : nat)         (* workers.emplace_back(...) *)
| Seeding (rest : list Z)    (* taskQueue.push(i), for the identifiers left *)
| In_push (rest : list Z)    (* inside taskQueue.push *)
| Shutting (k : nat)         (* worker.join() or worker.detach() *)
| Returned.                  (* after return 0 *)

Inductive worker_pc :=
| Not_started
| Loop_top                   (* while (true) { int taskId = taskQueue.pop(); *)
| In_pop                     (* inside taskQueue.pop *)
| Processing (taskId : Z)    (* taskProcessor.processTask(taskId); } *)
| Finished.                  (* the thread function has returned *)

(** The process runs until [main] returns or an exception leaves a thread
    function, which calls [std::terminate]. *)
Inductive status := Running | Exited (code : Z) | Terminated.

Record system := System {
  taskQueue : queue;
  main_at : main_pc;
  workers : list worker_pc;
  process : status
}.

Inductive plabel :=
| In_queue (l : label)
| Spawned (i : nat)
| Loop_done
| Handled (t : tid) (taskId : Z) (run : M unit)
| Joined (k : nat)
| Detached (k : nat)
| Main_returned (code : Z).

Definition main_step (p : program) (hint : tid) (Σ : system)
  : option (plabel * system) :=
  match main_at Σ with
  | Spawning i =>
      if decide (i < nworkers p)%nat
      then Some (Spawned i,
                 System (taskQueue Σ) (Spawning (S i))
                        (<[i := Loop_top]> (workers Σ)) (process Σ))
      else Some (Loop_done,
                 System (taskQueue Σ) (Seeding (seed p)) (workers Σ) (process Σ))
  | Seeding [] =>
      Some (Loop_done, System (taskQueue Σ) (Shutting 0) (workers Σ) (process Σ))
  | Seeding (i :: rest) =>
      match step (Call_push 0 i) (taskQueue Σ) with
      | Some (l, q) => Some (In_queue l, System q (In_push rest) (workers Σ) (process Σ))
      | None => None
      end
  | In_push rest =>
      match step (Run 0 hint) (taskQueue Σ) with
      | Some (l, q) =>
          Some (In_queue l,
                System q (match l with Return_push _ => Seeding rest | _ => In_push rest end)
                       (workers Σ) (process Σ))
      | None => None
      end
  | Shutting k =>
      if decide (k < nworkers p)%nat
      then match at_shutdown p with
           | Join =>
               (* join returns once the thread function has returned *)
               match workers Σ !! k with
               | Some Finished =>
                   Some (Joined k,
                         System (taskQueue Σ) (Shutting (S k)) (workers Σ) (process Σ))
               | _ => None
               end
           | Detach =>
               Some (Detached k,
                     System (taskQueue Σ) (Shutting (S k)) (workers Σ) (process Σ))
           end
      else Some (Main_returned 0,
                 System (taskQueue Σ) Returned (workers Σ) (Exited 0))
  | Returned => None
  end.

Definition worker_step (p : program) (i : nat) (hint : tid) (Σ : system)
  : option (plabel * system) :=
  match workers Σ !! i with
  | Some Loop_top =>
      match step (Call_pop (S i)) (taskQueue Σ) with
      | Some (l, q) =>
          Some (In_queue l, System q (main_at Σ) (<[i := In_pop]> (workers Σ)) (process Σ))
      | None => None
      end
  | Some In_pop =>
      match step (Run (S i) hint) (taskQueue Σ) with
      | Some (l, q) =>
          Some (In_queue l,
                System q (main_at Σ)
                       (<[i := match l with
                               | Return_pop _ taskId => Processing taskId
                               | _ => In_pop
                               end]> (workers Σ))
                       (process Σ))
      | None => None
      end
  | Some (Processing taskId) =>
      let run := @processTask (handler p) taskId in
      Some (Handled (S i) taskId run,
            System (taskQueue Σ) (main_at Σ) (<[i := Loop_top]> (workers Σ))
                   (match result run with
                    | Normal _ => process Σ
                    | Thrown _ => Terminated
                    end))
  | Some Not_started | Some Finished | None => None
  end.

(** Thread [t] takes one step; nothing runs once the process has ended. *)
Definition pstep (p : program) (turn : tid * tid) (Σ : system)
  : option (plabel * system) :=
  match process Σ with
  | Running =>
      match turn.1 with
      | O => main_step p turn.2 Σ
      | S i => worker_step p i turn.2 Σ
      end
  | _ => None
  end.

Fixpoint pexec (p : program) (sched : list (tid * tid)) (tr : list plabel) (Σ : system)
  : option (list plabel * system) :=
  match sched with
  | [] => Some (tr, Σ)
  | turn :: sched' =>
      match pstep p turn Σ with
      | Some (l, Σ') => pexec p sched' (tr ++ [l]) Σ'
      | None => None
      end
  end.

Definition start (p : program) : system :=
  System (init (S (nworkers p))) (Spawning 0)
         (replicate (nworkers p) Not_started) Running.

(** Readings of a trace of the process. *)
Definition queue_trace (tr : list plabel) : list label :=
  omap (λ l, match l with In_queue l => Some l | _ => None end) tr.
Definition handled (tr : list plabel) : list Z :=
  omap (λ l, match l with Handled _ taskId _ => Some taskId | _ => None end) tr.
Definition output (tr : list plabel) : list event :=
  mjoin (omap (λ l, match l with Handled _ _ run => Some (events run) | _ => None end) tr).

(** The identifiers [main] has not handed to [push] yet. *)
Definition unpushed (p : program) (m : main_pc) : list Z :=
  match m with
  | Spawning _ => seed p
  | Seeding rest | In_push rest => rest
  | Shutting _ | Returned => []
  end.

Definition in_hand (w : worker_pc) : gmultiset Z :=
  match w with
  | Processing taskId => {[+ taskId +]}
  | _ => ∅
  end.

Definition being_processed (ws : list worker_pc) : gmultiset Z :=
  foldr (λ w acc, in_hand w ⊎ acc) ∅ ws.

(** Every task that has been seeded or will be, and has not reached the
    handler yet. *)
Definition outstanding (p : program) (Σ : system) : gmultiset Z :=
  list_to_set_disj (unpushed p (main_at Σ))
  ⊎ in_transit (threads (taskQueue Σ))
  ⊎ list_to_set_disj (tasks (taskQueue Σ))
  ⊎ being_processed (workers Σ).

(** The queue is drained: nothing is left to push, to pop or to process. *)
Definition drained (p : program) (Σ : system) : Prop := outstanding p Σ = ∅.

(** Round-robin turns, to build schedules. *)
Definition turns (t : tid) (n : nat) : list (tid * tid) := replicate n (t, t).
Arguments turns (t n)%_nat.

(** *** What holds in every state the process can reach *)

(** The thread an action makes run. *)
Definition thread_of (a : action) : tid :=
  match a with Call_push t _ | Call_pop t | Run t _ => t end.

(** Outside the queue or inside [push]. *)
Definition pushing (c : call) : bool :=
  match c with
  | Idle | PushLock _ | PushEnqueue _ | PushNotify | PushUnlock => true
  | _ => false
  end.

Record driver_inv (p : program) (tr : list plabel) (Σ : system) : Prop := Driver_inv {
  main_is_pusher :
    ∃ c, threads (taskQueue Σ) !! 0%nat = Some c ∧ pushing c = true;
  seeds_split :
    seed p = pushes_called (queue_trace tr) ++ unpushed p (main_at Σ);
  unspawned :
    ∀ k, main_at Σ = Spawning k →
         ∀ i u, (k ≤ i)%nat → workers Σ !! i = Some u → u = Not_started;
  pops_split :
    list_to_set_disj (pops_returned (queue_trace tr)) =
    list_to_set_disj (handled tr) ⊎ being_processed (workers Σ)
}.

(** The process is running, no thread function has returned, and [main]
    has not passed the first join. *)
Record stuck_in_join (Σ : system) : Prop := Stuck_in_join {
  still_running : process Σ = Running;
  no_worker_finished : ∀ i, workers Σ !! i ≠ Some Finished;
  main_not_returned : main_at Σ ≠ Returned;
  main_at_first_join : ∀ k, main_at Σ = Shutting k → k = 0%nat
}.

(** A schedule: the three workers block on the empty queue, then [main]
    pushes the tasks one by one and worker 1 takes each of them, goes
    through the handler and blocks again; at the end [main] reaches its
    shutdown loop. *)
Definition drain_schedule : list (tid * tid) :=
  turns 0 4 ++ turns 1 3 ++ turns 2 3 ++ turns 3 3
  ++ mjoin (replicate 5 (turns 0 5 ++ turns 1 9)) ++ turns 0 1.

(** [main] starts the workers, seeds the queue and goes through its
    shutdown loop without any worker running. *)
Definition main_only_schedule : list (tid * tid) := turns 0 34.

End Driver.

(** ** Variant 1: DistributedSystemCodeSample.cpp *)
Module CodeSample.

(** [#define LOGGER std::cerr] *)
Definition LOGGER : ostream := cerr.

Module DatabaseService.
Definition fetchMessageById (id : Z) : M string :=
  if (0 <? id) && (id <=? 5)
  then ret ("Message for ID " +:+ to_string id)
  else throw (invalid_argument ("Invalid ID: " +:+ to_string id)).
End DatabaseService.

Module MiddlewareService.
Definition sendMessage (message : string) : M unit :=
  enter_sendMessage message;;
  print LOGGER ("Middleware: Sending -> " +:+ message).
End MiddlewareService.

Module DistributedTaskProcessor.
Definition processTask (taskId : Z) : M unit :=
  try_catch
    (message ← DatabaseService.fetchMessageById taskId;
     print LOGGER ("Task " +:+ to_string taskId +:+ ": Fetched -> " +:+ message);;
     MiddlewareService.sendMessage
       ("Processed Task " +:+ to_string taskId +:+ ": " +:+ message))
    (λ ex,
     print LOGGER ("Task " +:+ to_string taskId +:+ ": Error -> " +:+ what ex)).
End DistributedTaskProcessor.

Definition taskProcessor : TaskProcessor :=
  {| processTask := DistributedTaskProcessor.processTask |}.

(** [MessageQueue] is the class modelled in module [MessageQueue] above.
    [main]: nothing inside the outer [try] throws, so its handler is dead
    code; the workers are joined. *)
Definition main : Driver.program :=
  Driver.Program 3 (seqZ 1 5) Driver.Join taskProcessor.

End CodeSample.

(** ** Variant 2: DistributedSystemWithSOLID.cpp *)
Module WithSOLID.

Module DatabaseService.
Definition fetchMessageById (id : Z) : M string :=
  if (0 <? id) && (id <=? 5)
  then ret ("Message for ID " +:+ to_string id)
  else throw (invalid_argument ("Invalid ID: " +:+ to_string id)).
End DatabaseService.

Module MiddlewareService.
Definition sendMessage (message : string) : M unit :=
  enter_sendMessage message;;
  print cout ("Middleware: Sending -> " +:+ message).
End MiddlewareService.

Module DistributedTaskProcessor.
Definition processTask (taskId : Z) : M unit :=
  try_catch
    (message ← DatabaseService.fetchMessageById taskId;
     print cout ("Task " +:+ to_string taskId +:+ ": Fetched -> " +:+ message);;
     MiddlewareService.sendMessage
       ("Processed Task " +:+ to_string taskId +:+ ": " +:+ message))
    (λ ex,
     print cerr ("Task " +:+ to_string taskId +:+ ": Error -> " +:+ what ex)).
End DistributedTaskProcessor.

Definition taskProcessor : TaskProcessor :=
  {| processTask := DistributedTaskProcessor.processTask |}.

(** [MessageQueue] is, word for word, the class of the first variant.
    [main]: the workers are detached and [main] returns at once. *)
Definition main : Driver.program :=
  Driver.Program 3 (seqZ 1 5) Driver.Detach taskProcessor.

End WithSOLID.

(** ** Sleeping threads and whole calls of the queue *)
Module Wakeup.
Import MessageQueue.

(** Threads asleep in [cv.wait], and threads that are awake and on their way
    to deal with a task of the queue: inside [pop] before the removal, or
    inside [push] about to signal. *)
Definition asleep (c : call) : nat :=
  match c with PopBlocked => 1 | _ => 0 end%nat.
Definition taking (c : call) : nat :=
  match c with
  | PopLock | PopRelock | PopTest | PopFront | PopDequeue _ | PushNotify => 1
  | _ => 0
  end%nat.
Definition sleepers (σ : queue) : nat := tally asleep (threads σ).
Definition takers (σ : queue) : nat := tally taking (threads σ).

(** No wake-up is lost: while a thread sleeps, every task in the queue has a
    thread of its own that is awake and on its way to it. *)
Definition wakeup_inv (σ : queue) : Prop :=
  sleepers σ = 0%nat ∨ (length (tasks σ) ≤ takers σ)%nat.

(** The pushes of the tasks [vs] by [t], each run alone. *)
Definition pushes_alone (t : tid) (vs : list Z) : list action :=
  mjoin ((λ v, push_alone t v) <$> vs).

(** [n] pops by [t], each run alone. *)
Definition pops_alone (t : tid) (n : nat) : list action :=
  mjoin (replicate n (pop_alone t)).

(** A spurious wake-up of [t] run to its end: wake, reacquire, test. *)
Definition wake_and_retest (t : tid) : list action := [Run t t; Run t t; Run t t].
Arguments pushes_alone t%_nat vs%_list.
Arguments pops_alone (t n)%_nat.
Arguments wake_and_retest t%_nat.
End Wakeup.

(** ** The threads of the pool inside the queue *)
Module Pool.
Import MessageQueue Driver.

(** What one step does to the thread that takes it: the statement it stood
    at, the label of the step and the statement it stands at afterwards. *)
Definition call_step (a : action) (c : call) (l : label) (c' : call) : Prop :=
  match a, c with
  | Call_push t v, Idle => l = Invoke_push t v ∧ c' = PushLock v
  | Call_pop t, Idle => l = Invoke_pop t ∧ c' = PopLock
  | Run t _, PushLock v => l = Acquire t ∧ c' = PushEnqueue v
  | Run t _, PushEnqueue v => l = Enqueue t v ∧ c' = PushNotify
  | Run t _, PushNotify => (∃ woken, l = Signal t woken) ∧ c' = PushUnlock
  | Run t _, PushUnlock => l = Return_push t ∧ c' = Idle
  | Run t _, PopLock => l = Acquire t ∧ c' = PopTest
  | Run t _, PopTest => (l = Block t ∧ c' = PopBlocked) ∨ (l = Ready t ∧ c' = PopFront)
  | Run t _, PopBlocked => l = Wake t ∧ c' = PopRelock
  | Run t _, PopRelock => l = Acquire t ∧ c' = PopTest
  | Run t _, PopFront => ∃ v, l = Front t v ∧ c' = PopDequeue v
  | Run t _, PopDequeue v => l = Dequeue t v ∧ c' = PopUnlock v
  | Run t _, PopUnlock v => l = Return_pop t v ∧ c' = Idle
  | _, _ => False
  end.

(** The task a call of [push] was given and has not appended yet. *)
Definition push_pending (c : call) : list Z :=
  match c with PushLock v | PushEnqueue v => [v] | _ => [] end.

(** Inside [push]; inside [pop]. *)
Definition in_push (c : call) : bool :=
  match c with
  | PushLock _ | PushEnqueue _ | PushNotify | PushUnlock => true
  | _ => false
  end.

Definition in_pop (c : call) : bool :=
  match c with
  | PopLock | PopTest | PopBlocked | PopRelock | PopFront | PopDequeue _
  | PopUnlock _ => true
  | _ => false
  end.

(** Where the thread of [main] and the thread of a worker stand in the
    queue, given where they stand in their own code. *)
Definition main_call (mpc : main_pc) (c : call) : Prop :=
  match mpc with
  | In_push _ => in_push c = true
  | _ => c = Idle
  end.

Definition worker_call (u : worker_pc) (c : call) : Prop :=
  match u with
  | In_pop => in_pop c = true
  | _ => c = Idle
  end.

(** The thread of the worker has been created. *)
Definition started (u : worker_pc) : bool :=
  match u with Not_started => false | _ => true end.

(** How the threads of the process stand, in every state it can reach. *)
Record shape_inv (p : program) (Σ : system) : Prop := Shape_inv {
  workers_length : length (workers Σ) = nworkers p;
  threads_length : length (threads (taskQueue Σ)) = S (nworkers p);
  main_call_at :
    ∃ c, threads (taskQueue Σ) !! 0%nat = Some c ∧ main_call (main_at Σ) c;
  worker_call_at :
    ∀ i u, workers Σ !! i = Some u →
           ∃ c, threads (taskQueue Σ) !! S i = Some c ∧ worker_call u c;
  spawn_progress :
    match main_at Σ with
    | Spawning k =>
        (k ≤ nworkers p)%nat
        ∧ ∀ i u, workers Σ !! i = Some u → started u = true ↔ (i < k)%nat
    | _ => ∀ i u, workers Σ !! i = Some u → started u = true
    end
}.

(** The tasks a thread has run the handler on, in order, and the task a
    worker has popped and not handled yet. *)
Definition handled_by (t : tid) (tr : list plabel) : list Z :=
  omap (λ l, match l with
             | Handled t' taskId _ => if decide (t' = t) then Some taskId else None
             | _ => None
             end) tr.
Arguments handled_by t%_nat tr.

Definition held (u : option worker_pc) : list Z :=
  match u with Some (Processing taskId) => [taskId] | _ => [] end.

(** A call of the handler is made by a worker, on the handler of the
    program. *)
Definition runs_handler (p : program) (l : plabel) : Prop :=
  match l with
  | Handled t taskId run =>
      (0 < t ≤ nworkers p)%nat ∧ run = @processTask (handler p) taskId
  | _ => True
  end.

(** Only [main] pushes, a worker handles what its own calls of [pop] have
    returned, and every call of the handler is one of the program. *)
Record order_inv (p : program) (tr : list plabel) (Σ : system) : Prop := Order_inv {
  push_order :
    ∀ c, threads (taskQueue Σ) !! 0%nat = Some c →
         pushes_called (queue_trace tr) = enqueued (queue_trace tr) ++ push_pending c;
  handled_split :
    ∀ i, pops_returned_to (S i) (queue_trace tr)
         = handled_by (S i) tr ++ held (workers Σ !! i);
  handler_runs : Forall (runs_handler p) tr
}.

(** The last thing that happened is a call of the handler that threw. *)
Definition last_threw (tr : list plabel) : Prop :=
  ∃ tr0 t taskId run ex, tr = tr0 ++ [Handled t taskId run] ∧ result run = Thrown ex.

(** How the process ends: terminated by a handler that threw, or exited
    because [main] returned; no thread function returns, so a [join] is
    never passed. *)
Definition status_inv (p : program) (tr : list plabel) (Σ : system) : Prop :=
  (match process Σ with
   | Running => main_at Σ ≠ Returned ∧ ¬ last_threw tr
   | Exited code => code = 0 ∧ main_at Σ = Returned ∧ ¬ last_threw tr
   | Terminated => main_at Σ ≠ Returned ∧ last_threw tr
   end)
  ∧ (∀ i, workers Σ !! i ≠ Some Finished)
  ∧ (at_shutdown p = Join →
     match main_at Σ with
     | Shutting k => k = 0%nat
     | Returned => nworkers p = 0%nat
     | _ => True
     end).

(** An implementation of [TaskProcessor] that is not part of the program:
    the lookup without the [try] block of [processTask].  With it the loop
    of a worker meets a handler that throws. *)
Definition unguarded : TaskProcessor :=
  {| processTask := λ taskId,
       _ ← CodeSample.DatabaseService.fetchMessageById taskId; ret tt |}.

(** One worker, joined, and one task that the lookup rejects. *)
Definition unguarded_program : program := Program 1 [0] Join unguarded.

(** [main] starts the worker and pushes the task, the worker pops it and
    runs the handler. *)
Definition unguarded_schedule : list (tid * tid) := turns 0 7 ++ turns 1 7.

(** The three lines a worker of variant [os] writes for a task the lookup
    knows, that is the events of [processTask] on it. *)
Definition lines_of (os : ostream) (taskId : Z) : list event :=
  let message := ("Message for ID " +:+ to_string taskId)%string in
  let payload := ("Processed Task " +:+ to_string taskId +:+ ": " +:+ message)%string in
  [Print os ("Task " +:+ to_string taskId +:+ ": Fetched -> " +:+ message);
   Call_sendMessage payload;
   Print os ("Middleware: Sending -> " +:+ payload)].

(** The argument of [sendMessage] for such a task. *)
Definition payload_of (taskId : Z) : string :=
  "Processed Task " +:+ to_string taskId +:+ ": Message for ID " +:+ to_string taskId.

(** A wake-up of a sleeping thread that no signal asked for. *)
Definition spurious (l : plabel) : bool :=
  match l with In_queue (Wake _) => true | _ => false end.

(** A call of the handler of the variant that writes on [os], on a task the
    lookup knows: the call writes the three lines and returns. *)
Definition served (os : ostream) (l : plabel) : Prop :=
  match l with
  | Handled _ taskId run =>
      1 ≤ taskId ≤ 5 ∧ run = (lines_of os taskId, Normal tt)
  | _ => True
  end.

(** The record [processTask] writes, in both variants on [std::cerr], for a
    task the lookup rejects. *)
Definition error_record (taskId : Z) : list event :=
  [Print cerr ("Task " +:+ to_string taskId +:+ ": Error -> Invalid ID: "
               +:+ to_string taskId)].

(** A call of the handler that returned to the loop of the worker; when the
    lookup rejects the task, what the call wrote is the record of the
    failure. *)
Definition absorbed (l : plabel) : Prop :=
  match l with
  | Handled _ taskId run =>
      result run = Normal tt
      ∧ (¬ (1 ≤ taskId ≤ 5) → events run = error_record taskId)
  | _ => True
  end.

(** A call of the handler that threw. *)
Definition threw (l : plabel) : Prop :=
  match l with
  | Handled _ _ run => ∃ ex, result run = Thrown ex
  | _ => False
  end.

(** The handler of the first variant on a seed of which the lookup rejects
    the first task: one worker, joined. *)
Definition rejecting_program : program :=
  Program 1 [0; 3] Join CodeSample.taskProcessor.

(** [main] starts the worker and pushes the rejected task, the worker pops
    it and runs the handler. *)
Definition rejecting_schedule : list (tid * tid) := turns 0 7 ++ turns 1 7.

End Pool.

(** ** Schedules of the pool *)
Module Schedules.
Import MessageQueue Driver.

(** [main] alone: it starts the workers, pushes every task and goes through
    its shutdown loop, and no worker runs. *)
Definition main_alone (p : program) : list (tid * tid) :=
  turns 0 (S (nworkers p)) ++ turns 0 (5 * length (seed p) + 1)
  ++ turns 0 (S (nworkers p)).

(** [main] starts the workers; then for each task [main] pushes it and the
    first worker pops it and runs the handler; at the end [main] leaves its
    seeding loop. *)
Definition one_by_one (p : program) : list (tid * tid) :=
  turns 0 (S (nworkers p))
  ++ mjoin ((λ _, turns 0 5 ++ turns 1 7) <$> seed p)
  ++ turns 0 1.

End Schedules.

(** ** A measure of the steps that are left *)
Module Measure.
Import MessageQueue Driver Pool.

(** Weights, chosen so that every step but a spurious wake-up lowers the
    total by one at least.  A task in the queue weighs 7, which pays for one
    turn of the loop of the worker that removes it; a signal lifts the thread
    it wakes by 3, which the signalling step pays; a call of [push] costs
    [main] 15. *)
Definition call_weight (c : call) : nat :=
  match c with
  | Idle => 0
  | PushLock _ => 14
  | PushEnqueue _ => 13
  | PushNotify => 5
  | PushUnlock => 1
  | PopLock => 3
  | PopTest => 2
  | PopBlocked => 0
  | PopRelock => 3
  | PopFront => 1
  | PopDequeue _ => 0
  | PopUnlock _ => 6
  end%nat.

Definition worker_weight (u : worker_pc) : nat :=
  match u with
  | Loop_top => 4
  | Processing _ => 5
  | Not_started | In_pop | Finished => 0
  end%nat.

Definition main_weight (p : program) (mpc : main_pc) : nat :=
  match mpc with
  | Spawning k => 5 * (nworkers p - k) + 15 * length (seed p) + nworkers p + 3
  | Seeding rest | In_push rest => 15 * length rest + nworkers p + 2
  | Shutting k => (nworkers p - k) + 1
  | Returned => 0
  end%nat.

Definition queue_weight (σ : queue) : nat :=
  (7 * length (tasks σ) + tally call_weight (threads σ))%nat.

Definition pool_weight (ws : list worker_pc) : nat :=
  foldr (λ u acc, (worker_weight u + acc)%nat) 0%nat ws.

(** A bound on the steps the process can still take, spurious wake-ups
    apart. *)
Definition steps_left (p : program) (Σ : system) : nat :=
  (main_weight p (main_at Σ) + queue_weight (taskQueue Σ) + pool_weight (workers Σ))%nat.

(** The number of spurious wake-ups in a trace. *)
Definition spurious_wakeups (tr : list plabel) : nat :=
  length (filter (λ l, spurious l = true) tr).

End Measure.

(** ** The first variant seen from the second *)
Module Variants.
Import MessageQueue Driver.

(** A step of the first variant, seen as a step of the second: a call of
    the handler is a call of the handler of the second variant. *)
Definition as_second (l : plabel) : plabel :=
  match l with
  | Handled t taskId _ =>
      Handled t taskId (WithSOLID.DistributedTaskProcessor.processTask taskId)
  | _ => l
  end.

(** A call of the handler of the first variant and the call the second
    variant makes in its place: the same task, the same way of ending, the
    same lines but for the stream, the same calls of [sendMessage]. *)
Definition same_call (l : plabel) : Prop :=
  match l with
  | Handled t taskId run =>
      run = CodeSample.DistributedTaskProcessor.processTask taskId
      ∧ result run = result (WithSOLID.DistributedTaskProcessor.processTask taskId)
      ∧ events run
        = on_cerr <$> events (WithSOLID.DistributedTaskProcessor.processTask taskId)
      ∧ notifications (events run)
        = notifications (events (WithSOLID.DistributedTaskProcessor.processTask taskId))
  | _ => as_second l = l
  end.

End Variants.

Example sample_process_3 :
  CodeSample.DistributedTaskProcessor.processTask 3 =
  ([Print cerr "Task 3: Fetched -> Message for ID 3";
    Call_sendMessage "Processed Task 3: Message for ID 3";
    Print cerr "Middleware: Sending -> Processed Task 3: Message for ID 3"],
   Normal tt).
Proof. reflexivity. Qed.

Example solid_process_minus_3 :
  WithSOLID.DistributedTaskProcessor.processTask (-3) =
  ([Print cerr "Task -3: Error -> Invalid ID: -3"], Normal tt).
Proof. reflexivity. Qed.

(** * Properties of the lookup and of the handler *)

Local Abbreviation fetch1 := CodeSample.DatabaseService.fetchMessageById.
Local Abbreviation fetch2 := WithSOLID.DatabaseService.fetchMessageById.
Local Abbreviation process1 := CodeSample.DistributedTaskProcessor.processTask.
Local Abbreviation process2 := WithSOLID.DistributedTaskProcessor.processTask.

Lemma range_test_true (id : Z) : 1 ≤ id ≤ 5 → (0 <? id) && (id <=? 5) = true.
Proof. intros. apply andb_true_intro. split; [apply Z.ltb_lt | apply Z.leb_le]; lia. Qed.

Lemma range_test_false (id : Z) : ¬ (1 ≤ id ≤ 5) → (0 <? id) && (id <=? 5) = false.
Proof.
  intros Hout. apply andb_false_iff.
  destruct (Z.ltb_spec 0 id); [right | left; done].
  apply Z.leb_gt. lia.
Qed.

Lemma fetch_same (id : Z) : fetch1 id = fetch2 id.
Proof. reflexivity. Qed.

Lemma fetch_cases (id : Z) :
  (1 ≤ id ≤ 5 ∧ fetch1 id = ([], Normal ("Message for ID " +:+ to_string id)))
  ∨ (¬ (1 ≤ id ≤ 5)
     ∧ fetch1 id = ([], Thrown (invalid_argument ("Invalid ID: " +:+ to_string id)))).
Proof.
  unfold fetch1.
  destruct (decide (1 ≤ id ≤ 5)) as [Hin|Hout].
  - left. by rewrite range_test_true.
  - right. by rewrite range_test_false.
Qed.

(** The handler, once the result of the lookup is known. *)
Lemma process1_found (id : Z) (message : string) :
  fetch1 id = ([], Normal message) →
  process1 id =
  ([Print cerr ("Task " +:+ to_string id +:+ ": Fetched -> " +:+ message);
    Call_sendMessage ("Processed Task " +:+ to_string id +:+ ": " +:+ message);
    Print cerr ("Middleware: Sending -> "
                +:+ ("Processed Task " +:+ to_string id +:+ ": " +:+ message))],
   Normal tt).
Proof. intros Hf. unfold process1. rewrite Hf. reflexivity. Qed.

Lemma process2_found (id : Z) (message : string) :
  fetch2 id = ([], Normal message) →
  process2 id =
  ([Print cout ("Task " +:+ to_string id +:+ ": Fetched -> " +:+ message);
    Call_sendMessage ("Processed Task " +:+ to_string id +:+ ": " +:+ message);
    Print cout ("Middleware: Sending -> "
                +:+ ("Processed Task " +:+ to_string id +:+ ": " +:+ message))],
   Normal tt).
Proof. intros Hf. unfold process2. rewrite Hf. reflexivity. Qed.

Lemma process1_failed (id : Z) (ex : exception) :
  fetch1 id = ([], Thrown ex) →
  process1 id =
  ([Print cerr ("Task " +:+ to_string id +:+ ": Error -> " +:+ what ex)], Normal tt).
Proof. intros Hf. unfold process1. rewrite Hf. reflexivity. Qed.

Lemma process2_failed (id : Z) (ex : exception) :
  fetch2 id = ([], Thrown ex) →
  process2 id =
  ([Print cerr ("Task " +:+ to_string id +:+ ": Error -> " +:+ what ex)], Normal tt).
Proof. intros Hf. unfold process2. rewrite Hf. reflexivity. Qed.

Lemma process1_returns (id : Z) : result (process1 id) = Normal tt.
Proof.
  destruct (fetch_cases id) as [[_ Hf]|[_ Hf]].
  - by rewrite (process1_found _ _ Hf).
  - by rewrite (process1_failed _ _ Hf).
Qed.

Lemma process2_returns (id : Z) : result (process2 id) = Normal tt.
Proof.
  destruct (fetch_cases id) as [[_ Hf]|[_ Hf]]; rewrite fetch_same in Hf.
  - by rewrite (process2_found _ _ Hf).
  - by rewrite (process2_failed _ _ Hf).
Qed.

(** C1. For every id in [1,5] the lookup of either variant succeeds with
    "Message for ID <id>", where <id> is the decimal rendering of id: the one
    digit character of code 48 + id. *)
Theorem lookup_in_range (id : Z) :
  1 ≤ id ≤ 5 →
  fetch1 id = ([], Normal ("Message for ID " +:+ to_string id))
  ∧ fetch2 id = ([], Normal ("Message for ID " +:+ to_string id))
  ∧ to_string id = String (ascii_of_nat (48 + Z.to_nat id)) EmptyString.
Proof.
  intros Hin. split_and!.
  - unfold fetch1. by rewrite range_test_true.
  - unfold fetch2. by rewrite range_test_true.
  - assert (id = 1 ∨ id = 2 ∨ id = 3 ∨ id = 4 ∨ id = 5) as Hid by lia.
    destruct_or!; subst id; reflexivity.
Qed.

Lemma lookup_in_range_witness :
  fetch1 3 = ([], Normal "Message for ID 3")
  ∧ fetch2 3 = ([], Normal "Message for ID 3")
  ∧ to_string 3 = "3"%string.
Proof. apply (lookup_in_range 3). lia. Defined.

(** C2. For every id outside [1,5] the lookup of either variant fails with
    std::invalid_argument, and processTask writes exactly one line, the error
    record on the diagnostic stream, and never calls sendMessage. *)
Theorem lookup_out_of_range (id : Z) :
  ¬ (1 ≤ id ≤ 5) →
  let ex := invalid_argument ("Invalid ID: " +:+ to_string id) in
  let record := ("Task " +:+ to_string id +:+ ": Error -> Invalid ID: " +:+ to_string id)%string in
  fetch1 id = ([], Thrown ex)
  ∧ fetch2 id = ([], Thrown ex)
  ∧ process1 id = ([Print cerr record], Normal tt)
  ∧ process2 id = ([Print cerr record], Normal tt)
  ∧ notifications (events (process1 id)) = []
  ∧ notifications (events (process2 id)) = [].
Proof.
  intros Hout ex record.
  assert (fetch1 id = ([], Thrown ex)) as Hf.
  { unfold fetch1. by rewrite range_test_false. }
  assert (fetch2 id = ([], Thrown ex)) as Hf' by done.
  rewrite (process1_failed _ _ Hf), (process2_failed _ _ Hf'). done.
Qed.

Lemma lookup_out_of_range_witness :
  fetch1 (-3) = ([], Thrown (invalid_argument "Invalid ID: -3"))
  ∧ fetch2 (-3) = ([], Thrown (invalid_argument "Invalid ID: -3"))
  ∧ process1 (-3) = ([Print cerr "Task -3: Error -> Invalid ID: -3"], Normal tt)
  ∧ process2 (-3) = ([Print cerr "Task -3: Error -> Invalid ID: -3"], Normal tt)
  ∧ notifications (events (process1 (-3))) = []
  ∧ notifications (events (process2 (-3))) = [].
Proof. apply (lookup_out_of_range (-3)). lia. Defined.

(** C4. When the lookup succeeds with <message>, processTask first writes the
    record "Task <id>: Fetched -> <message>", then calls sendMessage with
    "Processed Task <id>: <message>" (which writes its own line), and nothing
    else; for ids 1 to 5 the payloads are the five literal strings. *)
Theorem process_success (id : Z) (message : string) :
  result (fetch1 id) = Normal message →
  let record := ("Task " +:+ to_string id +:+ ": Fetched -> " +:+ message)%string in
  let payload := ("Processed Task " +:+ to_string id +:+ ": " +:+ message)%string in
  events (process1 id) =
    [Print cerr record; Call_sendMessage payload;
     Print cerr ("Middleware: Sending -> " +:+ payload)]
  ∧ events (process2 id) =
    [Print cout record; Call_sendMessage payload;
     Print cout ("Middleware: Sending -> " +:+ payload)]
  ∧ (λ i, notifications (events (process1 i))) <$> seqZ 1 5 =
    [["Processed Task 1: Message for ID 1"]; ["Processed Task 2: Message for ID 2"];
     ["Processed Task 3: Message for ID 3"]; ["Processed Task 4: Message for ID 4"];
     ["Processed Task 5: Message for ID 5"]]%string
  ∧ (λ i, notifications (events (process2 i))) <$> seqZ 1 5 =
    (λ i, notifications (events (process1 i))) <$> seqZ 1 5.
Proof.
  intros Hres record payload.
  assert (fetch1 id = ([], Normal message)) as Hf.
  { destruct (fetch_cases id) as [[_ Hf]|[_ Hf]]; rewrite Hf in Hres |- *;
      cbn in Hres; congruence. }
  assert (fetch2 id = ([], Normal message)) as Hf' by done.
  rewrite (process1_found _ _ Hf), (process2_found _ _ Hf').
  split_and!; reflexivity.
Qed.

Lemma process_success_witness :
  events (process1 4) =
    [Print cerr "Task 4: Fetched -> Message for ID 4";
     Call_sendMessage "Processed Task 4: Message for ID 4";
     Print cerr "Middleware: Sending -> Processed Task 4: Message for ID 4"]
  ∧ events (process2 4) =
    [Print cout "Task 4: Fetched -> Message for ID 4";
     Call_sendMessage "Processed Task 4: Message for ID 4";
     Print cout "Middleware: Sending -> Processed Task 4: Message for ID 4"].
Proof.
  pose proof (process_success 4 "Message for ID 4" eq_refl) as (H1 & H2 & _).
  exact (conj H1 H2).
Defined.

(** * Properties of the queue *)
Section queue_facts.
Import MessageQueue.
Implicit Types (σ : queue) (t w : tid) (c : call) (tr : list label).
Implicit Types (ths : list call) (q : list Z) (m : option tid).

Lemma notify_one_blocked hint ths w :
  notify_one hint ths = Some w → ths !! w = Some PopBlocked.
Proof.
  unfold notify_one, first_blocked. case_decide; [naive_solver|].
  intros H'. apply fmap_Some in H' as [[i x] [Hfind ->]].
  by apply list_find_Some in Hfind as (? & -> & _).
Qed.

Lemma notify_one_none hint ths :
  notify_one hint ths = None → ∀ w, ths !! w ≠ Some PopBlocked.
Proof.
  unfold notify_one, first_blocked. case_decide; [done|].
  intros Hnone w Hw. apply fmap_None, list_find_None in Hnone.
  rewrite Forall_lookup in Hnone. by eapply Hnone.
Qed.

Lemma lock_inv_move q q' m m' ths t c c' :
  lock_inv (Queue q m ths) → ths !! t = Some c → lock_move t c c' m m' →
  lock_inv (Queue q' m' (<[t := c']> ths)).
Proof.
  unfold lock_inv. simpl. intros [Hin Hown] Ht Hmove. split.
  - intros t' c0. rewrite list_lookup_insert_Some.
    intros [(<- & <- & _)|[Hne Ht']] Hc0.
    + destruct Hmove; [apply (Hin t c); [done|congruence] | done | congruence].
    + pose proof (Hin _ _ Ht' Hc0). destruct Hmove; [done | congruence |].
      assert (m = Some t) by eauto. congruence.
  - intros t' Hm'. destruct (decide (t' = t)) as [->|Hne].
    + exists c'. split; [apply list_lookup_insert_eq; by eapply lookup_lt_Some|].
      destruct Hmove; [|done|done].
      destruct (Hown _ Hm') as (c0 & ? & ?). congruence.
    + rewrite list_lookup_insert_ne by done.
      destruct Hmove; [by apply Hown | congruence | done].
Qed.

Lemma lock_inv_unblock q m ths hint :
  lock_inv (Queue q m ths) → lock_inv (Queue q m (unblock (notify_one hint ths) ths)).
Proof.
  intros Hinv. destruct (notify_one hint ths) as [w|] eqn:Hw; [|done]. simpl.
  eapply lock_inv_move; [done | by eapply notify_one_blocked | by constructor].
Qed.

Lemma unblock_lookup_ne ths hint t c :
  ths !! t = Some c → c ≠ PopBlocked →
  unblock (notify_one hint ths) ths !! t = Some c.
Proof.
  intros Ht Hc. destruct (notify_one hint ths) as [w|] eqn:Hw; [|done]. simpl.
  apply notify_one_blocked in Hw. rewrite list_lookup_insert_ne; [done|].
  intros ->. congruence.
Qed.

Lemma unblock_lookup_Some ths hint t c :
  unblock (notify_one hint ths) ths !! t = Some c →
  ths !! t = Some c ∨ (ths !! t = Some PopBlocked ∧ c = PopRelock).
Proof.
  destruct (notify_one hint ths) as [w|] eqn:Hw; [|by left]. simpl.
  apply notify_one_blocked in Hw. rewrite list_lookup_insert_Some.
  intros [(<- & <- & _)|[_ ?]]; [by right | by left].
Qed.

Lemma step_lock_inv a σ l σ' : step a σ = Some (l, σ') → lock_inv σ → lock_inv σ'.
Proof.
  destruct σ as [q m ths]. unfold step, run_stmt. simpl.
  intros Hstep Hinv.
  repeat case_match; simplify_eq;
    try (eapply lock_inv_move; [done..|]; by constructor).
  eapply (lock_inv_move _ _ _ _ _ _ PushNotify);
    [by eapply lock_inv_unblock | by apply unblock_lookup_ne | by constructor].
Qed.

(** The thread that holds the mutex is the only one inside a critical
    section. *)
Lemma lock_inv_exclusive σ t t' c c' :
  lock_inv σ → threads σ !! t = Some c → threads σ !! t' = Some c' →
  holds_mutex c = true → holds_mutex c' = true → t = t'.
Proof.
  intros [Hin _] Ht Ht' Hc Hc'.
  pose proof (Hin _ _ Ht Hc). pose proof (Hin _ _ Ht' Hc'). congruence.
Qed.

(** A move that leaves [tasks] as it is, or appends to it. *)
Lemma front_inv_move q q' m m' ths t c c' :
  front_inv (Queue q m ths) → ths !! t = Some c →
  (q ≠ [] → q' ≠ []) → (∀ v, head q = Some v → head q' = Some v) →
  (c' = PopFront → q' ≠ []) → (∀ v, c' = PopDequeue v → head q' = Some v) →
  front_inv (Queue q' m' (<[t := c']> ths)).
Proof.
  unfold front_inv. simpl. intros Hinv Ht Hne Hhd Hfront Hdeq t'.
  split; [|intros v]; rewrite list_lookup_insert_Some.
  - intros [(_ & ? & _)|[_ Ht']]; [by apply Hfront|].
    apply Hne. by eapply Hinv.
  - intros [(_ & ? & _)|[_ Ht']]; [by apply Hdeq|].
    apply Hhd. by eapply Hinv.
Qed.

(** A move of the thread that holds the mutex, whatever it does to
    [tasks]. *)
Lemma front_inv_move_owner q q' m m' ths t c c' :
  lock_inv (Queue q m ths) → ths !! t = Some c → holds_mutex c = true →
  (c' = PopFront → q' ≠ []) → (∀ v, c' = PopDequeue v → head q' = Some v) →
  front_inv (Queue q' m' (<[t := c']> ths)).
Proof.
  unfold front_inv. simpl. intros Hlock Ht Hc Hfront Hdeq t'.
  split; [|intros v]; rewrite list_lookup_insert_Some.
  - intros [(_ & ? & _)|[Hne Ht']]; [by apply Hfront|].
    destruct Hne. by eapply (lock_inv_exclusive _ t t' c PopFront Hlock).
  - intros [(_ & ? & _)|[Hne Ht']]; [by apply Hdeq|].
    destruct Hne. by eapply (lock_inv_exclusive _ t t' c (PopDequeue v) Hlock).
Qed.

Lemma front_inv_unblock q m ths hint :
  front_inv (Queue q m ths) → front_inv (Queue q m (unblock (notify_one hint ths) ths)).
Proof.
  intros Hinv. destruct (notify_one hint ths) as [w|] eqn:Hw; [|done]. simpl.
  eapply front_inv_move; [done | by eapply notify_one_blocked | done..].
Qed.

Lemma step_front_inv a σ l σ' :
  step a σ = Some (l, σ') → lock_inv σ → front_inv σ → front_inv σ'.
Proof.
  destruct σ as [q m ths]. unfold step, run_stmt. simpl.
  intros Hstep Hlock Hinv.
  repeat case_match; simplify_eq;
    try (eapply front_inv_move; [done..| |]; intros; by simplify_eq);
    try (eapply front_inv_move_owner; [done..| |]; intros; by simplify_eq).
  eapply (front_inv_move _ _ _ _ _ _ PushNotify);
    [by eapply front_inv_unblock | by apply unblock_lookup_ne | done..].
Qed.

(** Tallies and multisets over the thread table, when one thread moves. *)
Lemma tally_insert f ths t c c' :
  ths !! t = Some c →
  (tally f (<[t := c']> ths) + f c = tally f ths + f c')%nat.
Proof.
  revert t. induction ths as [|c0 ths IH]; intros [|t] Ht; simplify_eq/=.
  - lia.
  - rewrite <- !Nat.add_assoc. f_equal. by apply IH.
Qed.

Lemma tally_unblock f ths hint :
  f PopBlocked = f PopRelock →
  tally f (unblock (notify_one hint ths) ths) = tally f ths.
Proof.
  intros Hf. destruct (notify_one hint ths) as [w|] eqn:Hw; [|done]. simpl.
  apply notify_one_blocked in Hw.
  pose proof (tally_insert f ths w _ PopRelock Hw). lia.
Qed.

Lemma tally_zero f ths :
  (∀ t c, ths !! t = Some c → f c = 0%nat) → tally f ths = 0%nat.
Proof.
  induction ths as [|c0 ths IH]; intros Hf; [done|]. simpl.
  rewrite (Hf 0%nat c0), IH; [done| |done].
  intros t c Ht. by apply (Hf (S t)).
Qed.

Lemma in_transit_insert ths t c c' :
  ths !! t = Some c →
  in_transit (<[t := c']> ths) ⊎ carried c = in_transit ths ⊎ carried c'.
Proof.
  revert t. induction ths as [|c0 ths IH]; intros [|t] Ht; simplify_eq/=.
  - multiset_solver.
  - rewrite <- !(assoc_L (⊎)). f_equal. by apply IH.
Qed.

Lemma in_transit_unblock ths hint :
  in_transit (unblock (notify_one hint ths) ths) = in_transit ths.
Proof.
  destruct (notify_one hint ths) as [w|] eqn:Hw; [|done]. simpl.
  apply notify_one_blocked in Hw.
  pose proof (in_transit_insert ths w _ PopRelock Hw) as Hins.
  simpl in Hins. multiset_solver.
Qed.

Lemma in_transit_empty ths :
  (∀ t c, ths !! t = Some c → carried c = ∅) → in_transit ths = ∅.
Proof.
  induction ths as [|c0 ths IH]; intros Hf; [done|]. simpl.
  rewrite (Hf 0%nat c0), IH; [multiset_solver| |done].
  intros t c Ht. by apply (Hf (S t)).
Qed.

(** The readings of a trace that grows by one label. *)
Lemma enqueued_snoc tr l :
  enqueued (tr ++ [l]) = enqueued tr ++ match l with Enqueue _ v => [v] | _ => [] end.
Proof. unfold enqueued. rewrite omap_app. by destruct l. Qed.
Lemma dequeued_snoc tr l :
  dequeued (tr ++ [l]) = dequeued tr ++ match l with Dequeue _ v => [v] | _ => [] end.
Proof. unfold dequeued. rewrite omap_app. by destruct l. Qed.
Lemma pushes_called_snoc tr l :
  pushes_called (tr ++ [l]) =
  pushes_called tr ++ match l with Invoke_push _ v => [v] | _ => [] end.
Proof. unfold pushes_called. rewrite omap_app. by destruct l. Qed.
Lemma pops_returned_snoc tr l :
  pops_returned (tr ++ [l]) =
  pops_returned tr ++ match l with Return_pop _ v => [v] | _ => [] end.
Proof. unfold pops_returned. rewrite omap_app. by destruct l. Qed.
Lemma pushes_returned_snoc tr l :
  pushes_returned (tr ++ [l]) =
  pushes_returned tr ++ match l with Return_push t => [t] | _ => [] end.
Proof. unfold pushes_returned. rewrite omap_app. by destruct l. Qed.
Lemma signals_snoc tr l :
  signals (tr ++ [l]) = signals tr ++ match l with Signal _ w => [w] | _ => [] end.
Proof. unfold signals. rewrite omap_app. by destruct l. Qed.

Lemma history_inv_unblock tr q m ths hint :
  history_inv tr (Queue q m ths) →
  history_inv tr (Queue q m (unblock (notify_one hint ths) ths)).
Proof.
  intros [Hfifo Hpush Hsig Hpop Hcons].
  unfold push_in_effect, push_signalled, pop_in_effect in *. simpl in *.
  split; unfold push_in_effect, push_signalled, pop_in_effect; simpl;
    rewrite ?tally_unblock, ?in_transit_unblock by done; done.
Qed.

Local Ltac history_goal :=
  unfold completed_pushes, completed_pops, push_in_effect, push_signalled,
    pop_in_effect; simpl;
  rewrite ?enqueued_snoc, ?dequeued_snoc, ?pushes_called_snoc,
    ?pops_returned_snoc, ?pushes_returned_snoc, ?signals_snoc; simpl;
  rewrite ?app_nil_r, ?length_app; simpl;
  try match goal with
    | H : ?l !! ?t0 = Some _ |- context [tally ?f (<[?t0 := ?c']> ?l)] =>
        pose proof (tally_insert f l t0 _ c' H) as Hins; simpl in Hins; lia
    | H : ?l !! ?t0 = Some _ |- context [in_transit (<[?t0 := ?c']> ?l)] =>
        pose proof (in_transit_insert l t0 _ c' H) as Hins; simpl in Hins;
        rewrite ?list_to_set_disj_app; simpl; multiset_solver
    end;
  try done.

Local Ltac history_hyps H :=
  destruct H as [Hfifo Hpush Hsig Hpop Hcons];
  unfold completed_pushes, completed_pops, push_in_effect, push_signalled,
    pop_in_effect in *; simpl in *.

(** The signaller moves on, once the waiter has been unblocked. *)
Lemma history_inv_signal tr q m ths t woken :
  ths !! t = Some PushNotify → history_inv tr (Queue q m ths) →
  history_inv (tr ++ [Signal t woken]) (Queue q m (<[t := PushUnlock]> ths)).
Proof. intros Ht Hhist. history_hyps Hhist. split; history_goal. Qed.

Lemma history_inv_call tr q m ths t l c' :
  ths !! t = Some Idle →
  (∃ v, l = Invoke_push t v ∧ c' = PushLock v) ∨ (l = Invoke_pop t ∧ c' = PopLock) →
  history_inv tr (Queue q m ths) →
  history_inv (tr ++ [l]) (Queue q m (<[t := c']> ths)).
Proof.
  intros Ht [(v & -> & ->)|[-> ->]] Hhist; history_hyps Hhist; split; history_goal.
Qed.

(** Any other statement of a thread standing at [c]. *)
Lemma run_stmt_history t hint c q m ths l σ' tr :
  ths !! t = Some c → c ≠ PushNotify →
  run_stmt t hint c (Queue q m ths) = Some (l, σ') →
  (∀ v, c = PopDequeue v → head q = Some v) →
  history_inv tr (Queue q m ths) → history_inv (tr ++ [l]) σ'.
Proof.
  intros Ht Hc Hstep Hfront Hhist. history_hyps Hhist.
  destruct c; simpl in Hstep; repeat case_match; simplify_eq.
  all: split; history_goal.
  - by rewrite Hfifo, (assoc_L (++)).
  - by rewrite Hfifo, app_nil_r.
  - specialize (Hfront _ eq_refl). apply head_Some in Hfront as [q' ->].
    by rewrite Hfifo, <- (assoc_L (++)).
  - specialize (Hfront _ eq_refl). apply head_Some in Hfront as [q' ->].
    pose proof (in_transit_insert ths t _ (PopUnlock taskId) Ht) as Hins.
    simpl in *. multiset_solver.
Qed.

Lemma step_history_inv a σ l σ' tr :
  step a σ = Some (l, σ') → front_inv σ → history_inv tr σ →
  history_inv (tr ++ [l]) σ'.
Proof.
  destruct σ as [q m ths]. intros Hstep Hfront Hhist.
  destruct a as [t v|t|t hint]; simpl in Hstep.
  - destruct (ths !! t) as [[]|] eqn:Ht; simplify_eq.
    apply history_inv_call; [done | left; by exists v | done].
  - destruct (ths !! t) as [[]|] eqn:Ht; simplify_eq.
    apply history_inv_call; [done | by right | done].
  - destruct (ths !! t) as [c|] eqn:Ht; [|done].
    destruct (decide (c = PushNotify)) as [->|Hc].
    + (* the signal: first the waiter is unblocked, then the signaller moves *)
      simpl in Hstep. simplify_eq.
      apply history_inv_signal; [by apply unblock_lookup_ne|].
      by apply history_inv_unblock.
    + eapply run_stmt_history; [done..| |done].
      intros v ->. by apply (Hfront t).
Qed.

Lemma consistent_init n : consistent [] (init n).
Proof.
  split; [split | | split]; simpl.
  - intros t c [-> _]%lookup_replicate. done.
  - done.
  - intros t. split; [|intros v]; intros [? _]%lookup_replicate; done.
  - done.
  - unfold push_in_effect. simpl. symmetry. apply tally_zero.
    by intros t c [-> _]%lookup_replicate.
  - unfold push_signalled. simpl. symmetry. apply tally_zero.
    by intros t c [-> _]%lookup_replicate.
  - unfold pop_in_effect. simpl. symmetry. apply tally_zero.
    by intros t c [-> _]%lookup_replicate.
  - rewrite in_transit_empty; [multiset_solver|].
    by intros t c [-> _]%lookup_replicate.
Qed.

Lemma step_consistent a σ l σ' tr :
  step a σ = Some (l, σ') → consistent tr σ → consistent (tr ++ [l]) σ'.
Proof.
  intros Hstep [Hlock Hfront Hhist]. split.
  - by eapply step_lock_inv.
  - by eapply step_front_inv.
  - by eapply step_history_inv.
Qed.

Lemma exec_consistent sched tr σ tr' σ' :
  exec sched tr σ = Some (tr', σ') → consistent tr σ → consistent tr' σ'.
Proof.
  revert tr σ. induction sched as [|a sched IH]; intros tr σ Hexec Hinv.
  - by simplify_eq/=.
  - simpl in Hexec. destruct (step a σ) as [[l σ1]|] eqn:Hstep; [|done].
    eapply IH; [done|]. by eapply step_consistent.
Qed.

Lemma reachable_consistent n sched tr σ :
  exec sched [] (init n) = Some (tr, σ) → consistent tr σ.
Proof. intros Hexec. eapply exec_consistent; [done | apply consistent_init]. Qed.

(** *** Running schedules *)

Lemma exec_app s1 s2 tr σ :
  exec (s1 ++ s2) tr σ =
  match exec s1 tr σ with
  | Some (tr1, σ1) => exec s2 tr1 σ1
  | None => None
  end.
Proof.
  revert tr σ. induction s1 as [|a s1 IH]; intros tr σ; [done|]. simpl.
  destruct (step a σ) as [[l σ1]|]; [apply IH | done].
Qed.

(** The trace only grows, and the growth does not depend on the past. *)
Lemma exec_trace sched tr σ tr' σ' :
  exec sched tr σ = Some (tr', σ') →
  ∃ tr1, tr' = tr ++ tr1 ∧ ∀ tr0, exec sched tr0 σ = Some (tr0 ++ tr1, σ').
Proof.
  revert tr σ. induction sched as [|a sched IH]; intros tr σ Hexec; simpl in *.
  - simplify_eq. exists []. split; [by rewrite app_nil_r|].
    intros tr0. by rewrite app_nil_r.
  - destruct (step a σ) as [[l σ1]|]; [|done].
    destruct (IH _ _ Hexec) as (tr1 & -> & Hany).
    exists (l :: tr1). split; [by rewrite <- (assoc_L (++))|].
    intros tr0. rewrite Hany. by rewrite <- (assoc_L (++)).
Qed.

Lemma length_unblock woken ths : length (unblock woken ths) = length ths.
Proof. destruct woken; [apply length_insert | done]. Qed.

Local Ltac at_thread :=
  rewrite list_lookup_insert_eq
    by (rewrite ?length_insert, ?length_unblock, ?length_insert;
        eapply lookup_lt_Some; eassumption).

(** A push that runs alone appends its task and leaves the mutex free. *)
Lemma push_alone_spec t v tr σ :
  queueMutex σ = None → threads σ !! t = Some Idle →
  ∃ woken ths',
    exec (push_alone t v) tr σ =
    Some (tr ++ [Invoke_push t v; Acquire t; Enqueue t v; Signal t woken; Return_push t],
          Queue (tasks σ ++ [v]) None ths')
    ∧ ths' !! t = Some Idle.
Proof.
  destruct σ as [q m ths]. simpl. intros -> Ht.
  eexists _, _. rewrite Ht. simpl. at_thread. simpl. at_thread. simpl.
  at_thread. simpl. at_thread. simpl.
  rewrite <- !(assoc_L (++)). simpl. split; [reflexivity|]. by at_thread.
Qed.

(** A pop that runs alone on a queue that is not empty removes the task in
    front and returns it. *)
Lemma pop_alone_spec t v q tr σ :
  queueMutex σ = None → threads σ !! t = Some Idle → tasks σ = v :: q →
  ∃ ths',
    exec (pop_alone t) tr σ =
    Some (tr ++ [Invoke_pop t; Acquire t; Ready t; Front t v; Dequeue t v; Return_pop t v],
          Queue q None ths')
    ∧ ths' !! t = Some Idle.
Proof.
  destruct σ as [q0 m ths]. simpl. intros -> Ht ->.
  eexists. rewrite Ht. simpl. at_thread. simpl. at_thread. simpl.
  at_thread. simpl. at_thread. simpl. at_thread. simpl.
  rewrite <- !(assoc_L (++)). simpl. split; [reflexivity|]. by at_thread.
Qed.

(** *** Every pop returns the task it removed *)

Lemma dequeued_by_snoc t tr l :
  dequeued_by t (tr ++ [l]) =
  dequeued_by t tr
  ++ match l with
     | Dequeue t' v => if decide (t' = t) then [v] else []
     | _ => []
     end.
Proof.
  unfold dequeued_by. rewrite omap_app. destruct l; try done.
  simpl. by case_decide.
Qed.

Lemma pops_returned_to_snoc t tr l :
  pops_returned_to t (tr ++ [l]) =
  pops_returned_to t tr
  ++ match l with
     | Return_pop t' v => if decide (t' = t) then [v] else []
     | _ => []
     end.
Proof.
  unfold pops_returned_to. rewrite omap_app. destruct l; try done.
  simpl. by case_decide.
Qed.

Lemma in_return_unblock ths hint t :
  in_return (unblock (notify_one hint ths) ths !! t) = in_return (ths !! t).
Proof.
  destruct (notify_one hint ths) as [w|] eqn:Hw; [|done]. simpl.
  apply notify_one_blocked in Hw.
  destruct (decide (w = t)) as [->|Hne].
  - rewrite list_lookup_insert_eq by (by eapply lookup_lt_Some). by rewrite Hw.
  - by rewrite list_lookup_insert_ne.
Qed.

Lemma step_returns_inv a σ l σ' tr :
  step a σ = Some (l, σ') → returns_inv tr σ → returns_inv (tr ++ [l]) σ'.
Proof.
  destruct σ as [q m ths]. unfold step, run_stmt, returns_inv. simpl.
  intros Hstep Hinv t. specialize (Hinv t).
  rewrite dequeued_by_snoc, pops_returned_to_snoc.
  repeat case_match; simplify_eq; simpl; rewrite ?app_nil_r.
  all: first
    [ rewrite list_lookup_insert_eq
        by (rewrite ?length_unblock; by eapply lookup_lt_Some)
    | match goal with
      | |- context [<[?t0 := _]> _ !! ?t1] =>
          destruct (decide (t0 = t1)) as [->|Hne];
          [rewrite list_lookup_insert_eq
             by (rewrite ?length_unblock; by eapply lookup_lt_Some)
          |rewrite list_lookup_insert_ne by done]
      end ].
  all: rewrite ?in_return_unblock; try done.
  all: match goal with
       | H : _ !! ?t0 = Some _, Hi : context [_ !! ?t0] |- _ => rewrite H in Hi
       end.
  all: simpl in *; rewrite ?app_nil_r in *; by rewrite ?Hinv.
Qed.

Lemma returns_inv_init n : returns_inv [] (init n).
Proof.
  intros t. simpl. destruct (replicate n Idle !! t) as [c|] eqn:Ht; [|done].
  by apply lookup_replicate in Ht as [-> _].
Qed.

Lemma exec_returns_inv sched tr σ tr' σ' :
  exec sched tr σ = Some (tr', σ') → returns_inv tr σ → returns_inv tr' σ'.
Proof.
  revert tr σ. induction sched as [|a sched IH]; intros tr σ Hexec Hinv.
  - by simplify_eq/=.
  - simpl in Hexec. destruct (step a σ) as [[l σ1]|] eqn:Hstep; [|done].
    eapply IH; [done|]. by eapply step_returns_inv.
Qed.

Lemma fifo_scenario_spec t σ :
  queueMutex σ = None → threads σ !! t = Some Idle →
  ∃ tr' σ',
    exec (fifo_scenario t) [] σ = Some (tr', σ')
    ∧ pops_returned tr' = take 3 (tasks σ ++ [1; 2; 3])
    ∧ tasks σ' = drop 3 (tasks σ ++ [1; 2; 3]).
Proof.
  intros Hm Ht. unfold fifo_scenario.
  destruct (push_alone_spec t 1 [] σ Hm Ht) as (w1 & ths1 & E1 & Ht1).
  rewrite exec_app, E1.
  edestruct (push_alone_spec t 2) as (w2 & ths2 & E2 & Ht2); [| |rewrite exec_app, E2];
    [done..|].
  edestruct (push_alone_spec t 3) as (w3 & ths3 & E3 & Ht3); [| |rewrite exec_app, E3];
    [done..|].
  simpl tasks in *. clear E1 E2 E3.
  replace (((tasks σ ++ [1]) ++ [2]) ++ [3]) with (tasks σ ++ [1; 2; 3])
    by (by rewrite <- !(assoc_L (++))).
  assert (3 ≤ length (tasks σ ++ [1%Z; 2%Z; 3%Z]))%nat as Hlen
    by (rewrite length_app; simpl; lia).
  destruct (tasks σ ++ [1; 2; 3]) as [|a [|b [|c rest]]]; simpl in Hlen; try lia.
  match goal with |- context [exec _ ?tr0 ?σ0] =>
    destruct (pop_alone_spec t a _ tr0 σ0 eq_refl Ht3 eq_refl) as (ths4 & E4 & Ht4)
  end.
  rewrite exec_app, E4. cbv beta iota.
  match goal with |- context [exec _ ?tr0 ?σ0] =>
    destruct (pop_alone_spec t b _ tr0 σ0 eq_refl Ht4 eq_refl) as (ths5 & E5 & Ht5)
  end.
  rewrite exec_app, E5. cbv beta iota.
  match goal with |- context [exec _ ?tr0 ?σ0] =>
    destruct (pop_alone_spec t c _ tr0 σ0 eq_refl Ht5 eq_refl) as (ths6 & E6 & Ht6)
  end.
  rewrite E6. clear E4 E5 E6.
  eexists _, _. split; [reflexivity|]. split; [|reflexivity].
  unfold pops_returned. rewrite !omap_app. reflexivity.
Qed.

(** C3 (amended). Under every interleaving of the statements of push and
    pop the tasks come out in the order they went in: the tasks appended so
    far are the tasks removed so far followed by the pending ones, and what
    the pops of a thread have returned is what they have removed.  In a
    state the queue can reach, in which the mutex is free and thread [t] is
    outside the queue: a pop by [t] during which no other thread takes a
    step returns the pending task that was pushed first; and when [t] pushes
    1, 2, 3 and then pops three times, and no other thread takes a step in
    between, the pops return the first three of the pending tasks followed
    by 1, 2, 3, which is 1, then 2, then 3 when no task is pending. *)
Theorem queue_is_fifo n sched tr σ :
  exec sched [] (init n) = Some (tr, σ) →
  enqueued tr = dequeued tr ++ tasks σ
  ∧ (∀ t, dequeued_by t tr = pops_returned_to t tr ++ in_return (threads σ !! t))
  ∧ (∀ t v q, queueMutex σ = None → threads σ !! t = Some Idle → tasks σ = v :: q →
       ∃ tr' σ', exec (pop_alone t) [] σ = Some (tr', σ')
                 ∧ pops_returned tr' = [v] ∧ tasks σ' = q)
  ∧ (∀ t, queueMutex σ = None → threads σ !! t = Some Idle →
       ∃ tr' σ', exec (fifo_scenario t) [] σ = Some (tr', σ')
                 ∧ pops_returned tr' = take 3 (tasks σ ++ [1; 2; 3])
                 ∧ tasks σ' = drop 3 (tasks σ ++ [1; 2; 3])
                 ∧ (tasks σ = [] → pops_returned tr' = [1; 2; 3] ∧ tasks σ' = [])).
Proof.
  intros Hexec.
  pose proof (exec_returns_inv _ _ _ _ _ Hexec (returns_inv_init n)) as Hret.
  apply reachable_consistent in Hexec as [_ _ Hhist].
  split_and!.
  - apply Hhist.
  - apply Hret.
  - intros t v q Hm Ht Hq.
    destruct (pop_alone_spec t v q [] σ Hm Ht Hq) as (ths' & E & _).
    eexists _, _. split; [exact E | done].
  - intros t Hm Ht.
    destruct (fifo_scenario_spec t σ Hm Ht) as (tr' & σ' & E & Hret' & Hrest).
    exists tr', σ'. split_and!; [done..|].
    intros Hq. rewrite Hq in Hret', Hrest. done.
Qed.

Lemma queue_is_fifo_witness :
  ∃ tr' σ',
    exec (fifo_scenario 1) [] (Queue [] None [PopBlocked; Idle]) = Some (tr', σ')
    ∧ pops_returned tr' = [1; 2; 3] ∧ tasks σ' = [].
Proof.
  assert (exec [Call_pop 0; Run 0 0; Run 0 0] [] (init 2)
          = Some ([Invoke_pop 0; Acquire 0; Block 0], Queue [] None [PopBlocked; Idle]))
    as Hexec by (vm_compute; reflexivity).
  destruct (queue_is_fifo _ _ _ _ Hexec) as (_ & _ & _ & Hscenario).
  destruct (Hscenario 1%nat eq_refl eq_refl) as (tr' & σ' & E & _ & _ & Hempty).
  exists tr', σ'. split; [exact E | exact (Hempty eq_refl)].
Defined.

(** Stated for every queue state, the FIFO scenario fails: on the queue
    that holds 7, which one push reaches, the three pops return 7, 1, 2. *)
Lemma fifo_scenario_after_pending_task :
  snd <$> exec (push_alone 0 7) [] (init 1) = Some (Queue [7] None [Idle])
  ∧ (pops_returned ∘ fst) <$> exec (fifo_scenario 0) [] (Queue [7] None [Idle])
    = Some [7; 1; 2]
  ∧ (pops_returned ∘ fst) <$> exec (fifo_scenario 0) [] (Queue [7] None [Idle])
    ≠ Some [1; 2; 3].
Proof. split_and!; [by vm_compute..|]. vm_compute. congruence. Qed.

(** Nor does the scenario hold when another thread runs in between: with
    thread 0 blocked in pop, the signal of the first push wakes it, it takes
    1, and the pops of thread 1 return 2 and 3; its third pop blocks. *)
Lemma fifo_scenario_with_waiting_consumer :
  (pops_returned_to 1 ∘ fst)
    <$> exec (push_alone 1 1 ++ [Run 0 0; Run 0 0; Run 0 0; Run 0 0; Run 0 0]
              ++ push_alone 1 2 ++ push_alone 1 3 ++ pop_alone 1 ++ pop_alone 1
              ++ [Call_pop 1; Run 1 1; Run 1 1])
          [] (Queue [] None [PopBlocked; Idle])
  = Some [2; 3]
  ∧ snd
      <$> exec (push_alone 1 1 ++ [Run 0 0; Run 0 0; Run 0 0; Run 0 0; Run 0 0]
                ++ push_alone 1 2 ++ push_alone 1 3 ++ pop_alone 1 ++ pop_alone 1
                ++ [Call_pop 1; Run 1 1; Run 1 1])
            [] (Queue [] None [PopBlocked; Idle])
    = Some (Queue [] None [Idle; PopBlocked]).
Proof. by vm_compute. Qed.

Lemma free_mutex_no_effect_pending σ :
  lock_inv σ → queueMutex σ = None →
  push_in_effect σ = 0%nat ∧ push_signalled σ = 0%nat ∧ pop_in_effect σ = 0%nat
  ∧ ∀ t c, threads σ !! t = Some c → holds_mutex c = false.
Proof.
  intros [Hin _] Hm.
  assert (∀ t c, threads σ !! t = Some c → holds_mutex c = false) as Hout.
  { intros t c Ht. destruct (holds_mutex c) eqn:Hc; [|done].
    pose proof (Hin _ _ Ht Hc). congruence. }
  split_and!; [..|done]; apply tally_zero; intros t c Ht;
    specialize (Hout _ _ Ht); by destruct c.
Qed.

(** C5. In every state reached from the empty queue by any interleaving of
    the statements of push and pop, the pushes that took effect are the pops
    that took effect plus the pending tasks; counted by returns, the
    difference is off by the one call that holds the mutex between its
    effect and its return; and whenever the mutex is free (no thread is
    inside a critical section, so the queue can be observed), the completed
    pushes minus the completed pops is the length of the queue, which is
    not negative. *)
Theorem queue_counting n sched tr σ :
  exec sched [] (init n) = Some (tr, σ) →
  (length (enqueued tr) = length (dequeued tr) + length (tasks σ))%nat
  ∧ (completed_pushes tr + push_in_effect σ
     = completed_pops tr + pop_in_effect σ + length (tasks σ))%nat
  ∧ (queueMutex σ = None →
     Z.of_nat (completed_pushes tr) - Z.of_nat (completed_pops tr)
     = Z.of_nat (length (tasks σ))
     ∧ 0 ≤ Z.of_nat (completed_pushes tr) - Z.of_nat (completed_pops tr)).
Proof.
  intros Hexec. apply reachable_consistent in Hexec as [Hlock _ Hhist].
  destruct Hhist as [Hfifo Hpush _ Hpop _].
  assert (length (enqueued tr) = length (dequeued tr) + length (tasks σ))%nat as Hlen
    by (by rewrite Hfifo, length_app).
  split_and!; [done | lia |].
  intros Hm. destruct (free_mutex_no_effect_pending σ Hlock Hm) as (? & _ & ? & _).
  lia.
Qed.

Lemma queue_counting_witness :
  ∃ tr σ,
    exec (push_alone 0 4 ++ push_alone 1 5 ++ pop_alone 1 ++ push_alone 0 6) [] (init 2)
    = Some (tr, σ)
    ∧ Z.of_nat (completed_pushes tr) - Z.of_nat (completed_pops tr)
      = Z.of_nat (length (tasks σ))
    ∧ 0 ≤ Z.of_nat (completed_pushes tr) - Z.of_nat (completed_pops tr).
Proof.
  assert ((snd <$> exec (push_alone 0 4 ++ push_alone 1 5 ++ pop_alone 1
                         ++ push_alone 0 6) [] (init 2))
          = Some (Queue [5; 6] None [Idle; Idle])) as Hrun by (by vm_compute).
  destruct (exec _ _ _) as [[tr σ]|] eqn:Hexec; [|done].
  injection Hrun as Hσ.
  destruct (queue_counting 2 _ tr σ Hexec) as (_ & _ & Hfree).
  exists tr, σ. split; [reflexivity|]. apply Hfree. by rewrite Hσ.
Defined.

End queue_facts.

(** * Blocking and waking *)
Section queue_blocking.
Import MessageQueue.
Implicit Types (σ : queue) (t w : tid) (c : call) (tr : list label).
Implicit Types (ths : list call) (q : list Z) (m : option tid).

(** *** Blocking *)

(** While no push takes effect on an empty queue, a thread inside pop
    stays inside pop. *)
Lemma step_awaiting a σ l σ' t c :
  tasks σ = [] → threads σ !! t = Some c → awaiting c = true →
  step a σ = Some (l, σ') →
  match l with Enqueue _ _ => False | _ => True end →
  tasks σ' = []
  ∧ (∃ c', threads σ' !! t = Some c' ∧ awaiting c' = true)
  ∧ match l with Return_pop t' _ => t' ≠ t | _ => True end.
Proof.
  destruct σ as [q m ths]. unfold step, run_stmt. simpl.
  intros -> Ht Hc Hstep Hl.
  repeat case_match; simplify_eq; simpl in *; try done.
  all: split; [done|].
  all: match goal with
       | |- context [<[?t1 := _]> _ !! ?t2] => destruct (decide (t1 = t2)) as [->|Hne]
       end.
  all: try (simplify_eq; done).
  all: try (simplify_eq; split; [|done]; eexists;
            split; [apply list_lookup_insert_eq; by eapply lookup_lt_Some|done]).
  all: rewrite ?list_lookup_insert_ne by done.
  all: try (split; [by eexists|done]).
  split; [|done].
  destruct (notify_one hint ths) as [w|] eqn:Hw; simpl; [|by eexists].
  destruct (decide (w = t)) as [->|Hw'].
  - exists PopRelock. split; [|done].
    apply list_lookup_insert_eq. by eapply lookup_lt_Some.
  - rewrite list_lookup_insert_ne by done. by eexists.
Qed.

Lemma exec_awaiting sched tr σ tr' σ' t c :
  tasks σ = [] → threads σ !! t = Some c → awaiting c = true →
  exec sched tr σ = Some (tr', σ') →
  enqueued tr' = enqueued tr →
  pops_returned_to t tr' = pops_returned_to t tr
  ∧ tasks σ' = []
  ∧ ∃ c', threads σ' !! t = Some c' ∧ awaiting c' = true.
Proof.
  revert tr σ c. induction sched as [|a sched IH]; intros tr σ c Hq Ht Hc Hexec Henq.
  - simplify_eq/=. eauto.
  - simpl in Hexec. destruct (step a σ) as [[l σ1]|] eqn:Hstep; [|done].
    destruct (exec_trace _ _ _ _ _ Hexec) as (tr1 & -> & _).
    assert (enqueued [l] = [] ∧ enqueued tr1 = []) as [Hl Htr1].
    { unfold enqueued in *. rewrite !omap_app in Henq.
      rewrite <- (app_nil_r (omap _ tr)) in Henq at 2.
      rewrite <- (assoc_L (++)) in Henq.
      apply (inj (app _)) in Henq. by apply app_eq_nil in Henq. }
    destruct (step_awaiting _ _ _ _ _ _ Hq Ht Hc Hstep) as (Hq1 & (c1 & Ht1 & Hc1) & Hret).
    { by destruct l. }
    destruct (IH _ _ _ Hq1 Ht1 Hc1 Hexec) as (Hpops & ? & ?).
    { unfold enqueued in *. by rewrite !omap_app, Htr1, app_nil_r. }
    split; [|done]. rewrite Hpops, pops_returned_to_snoc.
    destruct l; rewrite ?app_nil_r; try done. by rewrite decide_False, app_nil_r.
Qed.

(** A pop called on an empty queue has not returned as long as no push has
    taken effect. *)
Lemma pop_waits_for_push σ t sched tr σ' :
  tasks σ = [] →
  exec (Call_pop t :: sched) [] σ = Some (tr, σ') →
  enqueued tr = [] →
  pops_returned_to t tr = []
  ∧ ∃ c, threads σ' !! t = Some c ∧ awaiting c = true.
Proof.
  intros Hq Hexec Henq. simpl in Hexec.
  destruct (threads σ !! t) as [[]|] eqn:Ht; try done.
  eapply (exec_awaiting _ _ _ _ _ t PopLock) in Hexec as (? & _ & ?);
    [done | done | | done | done].
  simpl. apply list_lookup_insert_eq. by eapply lookup_lt_Some.
Qed.

(** [notify_one] unblocks one waiter if there is any, and touches no other
    thread. *)
Lemma signal_wakes_one σ t hint l σ' :
  threads σ !! t = Some PushNotify →
  step (Run t hint) σ = Some (l, σ') →
  (∃ w, l = Signal t (Some w)
        ∧ threads σ !! w = Some PopBlocked
        ∧ threads σ' = <[t := PushUnlock]> (<[w := PopRelock]> (threads σ)))
  ∨ (l = Signal t None
     ∧ (∀ w, threads σ !! w ≠ Some PopBlocked)
     ∧ threads σ' = <[t := PushUnlock]> (threads σ)).
Proof.
  intros Ht Hstep. simpl in Hstep. rewrite Ht in Hstep. simpl in Hstep.
  simplify_eq. destruct (notify_one hint (threads σ)) as [w|] eqn:Hw; simpl.
  - left. exists w. by apply notify_one_blocked in Hw.
  - right. split_and!; [done| |done]. by eapply notify_one_none.
Qed.

Lemma list_to_set_disj_sub_singleton (l : list Z) (v : Z) :
  list_to_set_disj l ⊆ ({[+ v +]} : gmultiset Z) → l = [] ∨ l = [v].
Proof.
  intros Hsub. destruct l as [|a [|b l]]; [by left|right|exfalso].
  - assert (a ∈ ({[+ v +]} : gmultiset Z)) as Ha by multiset_solver.
    apply gmultiset_elem_of_singleton in Ha. by subst.
  - apply gmultiset_subseteq_size in Hsub.
    rewrite !list_to_set_disj_cons, !gmultiset_size_disj_union,
      !gmultiset_size_singleton in Hsub. lia.
Qed.

(** After one push on an empty queue, the pops return at most one task, the
    pushed one. *)
Lemma one_push_one_pop n s0 tr0 σ0 s1 tr1 σ1 v :
  exec s0 [] (init n) = Some (tr0, σ0) →
  tasks σ0 = [] → in_transit (threads σ0) = ∅ →
  exec s1 [] σ0 = Some (tr1, σ1) →
  pushes_called tr1 = [v] →
  pops_returned tr1 = [] ∨ pops_returned tr1 = [v].
Proof.
  intros Hexec0 Hq Hidle Hexec1 Hpush.
  pose proof (reachable_consistent _ _ _ _ Hexec0) as Hinv0.
  destruct (exec_trace _ _ _ _ _ Hexec1) as (tr1' & Htr & Hany).
  simpl in Htr. subst tr1'. specialize (Hany tr0).
  pose proof (exec_consistent _ _ _ _ _ Hany Hinv0) as [_ _ Hhist1].
  destruct Hinv0 as [_ _ Hhist0].
  apply conservation in Hhist0, Hhist1.
  rewrite Hq, Hidle in Hhist0.
  unfold pushes_called, pops_returned in *.
  rewrite !omap_app, !list_to_set_disj_app, Hpush in Hhist1.
  apply list_to_set_disj_sub_singleton. simpl in *. multiset_solver.
Qed.

Local Ltac at_thread E :=
  rewrite ?list_lookup_insert_ne in E by done;
  rewrite ?list_lookup_insert_eq in E
    by (rewrite ?length_insert; eapply lookup_lt_Some; eassumption);
  simpl in E.

(** One push hands its task to a blocked pop: the signal unblocks the
    waiter, which then finds the task and returns it. *)
Lemma handover_spec p w v tr σ :
  queueMutex σ = None → tasks σ = [] →
  threads σ !! p = Some Idle → threads σ !! w = Some PopBlocked →
  ∃ ths',
    exec (handover p w v) tr σ =
    Some (tr ++ [Invoke_push p v; Acquire p; Enqueue p v; Signal p (Some w);
                 Return_push p; Acquire w; Ready w; Front w v; Dequeue w v;
                 Return_pop w v],
          Queue [] None ths')
    ∧ ths' !! w = Some Idle.
Proof.
  destruct σ as [q m ths]. intros Hm Hq Hp Hw. simpl in Hm, Hq, Hp, Hw. subst q m.
  assert (p ≠ w) as Hpw by (intros ->; congruence).
  assert (w ≠ p) as Hwp by done.
  destruct (exec _ _ _) as [[tr' σ']|] eqn:E.
  all: unfold handover in E; simpl in E; rewrite Hp in E; simpl in E.
  all: at_thread E; at_thread E; at_thread E.
  all: unfold notify_one in E; rewrite decide_True in E by (by rewrite !list_lookup_insert_ne by done);
    simpl in E.
  all: at_thread E; at_thread E; at_thread E; at_thread E; at_thread E; at_thread E.
  all: simplify_eq.
  eexists. rewrite <- !(assoc_L (++)). simpl. split; [reflexivity|].
  apply list_lookup_insert_eq. rewrite !length_insert. by eapply lookup_lt_Some.
Qed.

(** A pop by a third thread can take the task before the signalled waiter
    runs: the waiter then finds the queue empty and blocks again. *)
Lemma overtaken_spec p w u v tr σ :
  queueMutex σ = None → tasks σ = [] →
  threads σ !! p = Some Idle → threads σ !! w = Some PopBlocked →
  threads σ !! u = Some Idle → p ≠ u →
  ∃ ths',
    exec (overtaken p w u v) tr σ =
    Some (tr ++ [Invoke_push p v; Acquire p; Enqueue p v; Signal p (Some w);
                 Return_push p; Invoke_pop u; Acquire u; Ready u; Front u v;
                 Dequeue u v; Return_pop u v; Acquire w; Block w],
          Queue [] None ths')
    ∧ ths' !! w = Some PopBlocked.
Proof.
  destruct σ as [q m ths]. intros Hm Hq Hp Hw Hu Hpu.
  simpl in Hm, Hq, Hp, Hw, Hu. subst q m.
  assert (p ≠ w) as Hpw by (intros ->; congruence).
  assert (w ≠ p) as Hwp by done.
  assert (u ≠ w) as Huw by (intros ->; congruence).
  assert (w ≠ u) as Hwu by done.
  assert (u ≠ p) as Hup by done.
  destruct (exec _ _ _) as [[tr' σ']|] eqn:E.
  all: unfold overtaken in E; simpl in E; rewrite Hp in E; simpl in E.
  all: at_thread E; at_thread E; at_thread E.
  all: unfold notify_one in E; rewrite decide_True in E by (by rewrite !list_lookup_insert_ne by done);
    simpl in E.
  all: at_thread E; at_thread E.
  all: unfold tid in *; rewrite Hu in E; simpl in E.
  all: do 7 at_thread E.
  all: simplify_eq.
  eexists. rewrite <- !(assoc_L (++)). simpl. split; [reflexivity|].
  apply list_lookup_insert_eq. rewrite !length_insert. by eapply lookup_lt_Some.
Qed.




End queue_blocking.

(** * Safety of the critical sections *)
Section queue_safety.
Import MessageQueue.
Implicit Types (σ : queue) (t : tid) (c : call) (tr : list label).

(** Mutual exclusion: two threads are never both between their lock and
    their unlock, and the thread that is there owns the mutex. *)
Theorem mutual_exclusion n sched tr σ t t' c c' :
  exec sched [] (init n) = Some (tr, σ) →
  threads σ !! t = Some c → holds_mutex c = true →
  threads σ !! t' = Some c' → holds_mutex c' = true →
  t = t' ∧ queueMutex σ = Some t.
Proof.
  intros Hexec Ht Hc Ht' Hc'. apply reachable_consistent in Hexec as [Hlock _ _].
  split; [by eapply lock_inv_exclusive|]. by eapply (proj1 Hlock).
Qed.

Lemma mutual_exclusion_witness :
  (0 = 0)%nat ∧ queueMutex (Queue [] (Some 0%nat) [PushEnqueue 4; PopLock]) = Some 0%nat.
Proof.
  assert (exec [Call_push 0 4; Call_pop 1; Run 0 0] [] (init 2)
          = Some ([Invoke_push 0 4; Invoke_pop 1; Acquire 0],
                  Queue [] (Some 0%nat) [PushEnqueue 4; PopLock]))
    as Hexec by (vm_compute; reflexivity).
  exact (mutual_exclusion _ _ _ _ 0%nat 0%nat _ _ Hexec eq_refl eq_refl eq_refl eq_refl).
Defined.

(** [tasks.front()] and [tasks.pop()] are only executed on a queue that is
    not empty, and the task removed by [tasks.pop()] is the one [front] has
    read: the statements of pop never have undefined behaviour. *)
Theorem front_is_defined n sched tr σ t hint :
  exec sched [] (init n) = Some (tr, σ) →
  (threads σ !! t = Some PopFront →
   ∃ v q σ', tasks σ = v :: q ∧ step (Run t hint) σ = Some (Front t v, σ'))
  ∧ (∀ v, threads σ !! t = Some (PopDequeue v) →
          ∃ q σ', tasks σ = v :: q ∧ step (Run t hint) σ = Some (Dequeue t v, σ')
                  ∧ tasks σ' = q).
Proof.
  intros Hexec. apply reachable_consistent in Hexec as [_ Hfront _].
  destruct (Hfront t) as [Hne Hhd]. split.
  - intros Ht. specialize (Hne Ht). destruct (tasks σ) as [|v q] eqn:Hq; [done|].
    exists v, q. eexists. split; [done|]. simpl. rewrite Ht. simpl. by rewrite Hq.
  - intros v Ht. specialize (Hhd v Ht). apply head_Some in Hhd as [q Hq].
    exists q. eexists. split; [done|]. simpl. rewrite Ht. simpl. by rewrite Hq.
Qed.

Lemma front_is_defined_witness :
  ∃ v q σ',
    tasks (Queue [4] (Some 1%nat) [Idle; PopFront]) = v :: q
    ∧ step (Run 1 1) (Queue [4] (Some 1%nat) [Idle; PopFront]) = Some (Front 1 v, σ').
Proof.
  assert (exec (push_alone 0 4 ++ [Call_pop 1; Run 1 1; Run 1 1]) [] (init 2)
          = Some ([Invoke_push 0 4; Acquire 0; Enqueue 0 4; Signal 0 None; Return_push 0;
                   Invoke_pop 1; Acquire 1; Ready 1],
                  Queue [4] (Some 1%nat) [Idle; PopFront]))
    as Hexec by (vm_compute; reflexivity).
  exact (proj1 (front_is_defined _ _ _ _ 1%nat 1%nat Hexec) eq_refl).
Defined.

End queue_safety.

(** * Properties of the worker pool *)
Section driver_facts.
Import MessageQueue Driver.
Implicit Types (σ : queue) (t w : tid) (c : call) (tr : list plabel).
Implicit Types (ths : list call) (q : list Z) (m : option tid).
Implicit Types (p : program) (Σ : system).

Lemma step_label a σ l σ' :
  step a σ = Some (l, σ') →
  match a with
  | Call_push t v => l = Invoke_push t v
  | Call_pop t => l = Invoke_pop t
  | Run t _ =>
      match l with
      | Invoke_push _ _ | Invoke_pop _ => False
      | Return_pop t' v => t' = t ∧ threads σ !! t = Some (PopUnlock v)
      | _ => True
      end
  end.
Proof.
  destruct σ as [q m ths]. unfold step, run_stmt. simpl. intros Hstep.
  repeat case_match; simplify_eq; done.
Qed.

(** A step of one thread leaves the others where they are, except that it
    may unblock one. *)
Lemma step_other a σ l σ' t c :
  step a σ = Some (l, σ') → thread_of a ≠ t → threads σ !! t = Some c →
  threads σ' !! t = Some c ∨ (c = PopBlocked ∧ threads σ' !! t = Some PopRelock).
Proof.
  destruct σ as [q m ths]. unfold step, run_stmt. simpl. intros Hstep Hne Ht.
  repeat case_match; simplify_eq; simpl in *;
    rewrite ?list_lookup_insert_ne by done; try by left.
  destruct (notify_one hint ths) as [w|] eqn:Hw; simpl; [|by left].
  apply notify_one_blocked in Hw.
  destruct (decide (w = t)) as [->|Hwt].
  - right. simplify_eq. split; [done|].
    apply list_lookup_insert_eq. by eapply lookup_lt_Some.
  - left. by rewrite list_lookup_insert_ne.
Qed.

Lemma step_pusher a σ l σ' t c :
  step a σ = Some (l, σ') → thread_of a = t →
  (∀ t', a ≠ Call_pop t') →
  threads σ !! t = Some c → pushing c = true →
  (∃ c', threads σ' !! t = Some c' ∧ pushing c' = true)
  ∧ match l with Return_pop _ _ => False | _ => True end.
Proof.
  destruct σ as [q m ths]. unfold step, run_stmt. simpl.
  intros Hstep <- Hcall Ht Hc.
  repeat case_match; simplify_eq/=; simplify_eq; try done.
  all: try by (destruct (Hcall _ eq_refl)).
  all: split; [|done]; eexists; split;
    [apply list_lookup_insert_eq; rewrite ?length_unblock; by eapply lookup_lt_Some|done].
Qed.

Local Arguments step : simpl never.

Lemma queue_trace_snoc tr l :
  queue_trace (tr ++ [l]) =
  queue_trace tr ++ match l with In_queue ql => [ql] | _ => [] end.
Proof. unfold queue_trace. rewrite omap_app. by destruct l. Qed.

Lemma handled_snoc tr l :
  handled (tr ++ [l]) = handled tr ++ match l with Handled _ v _ => [v] | _ => [] end.
Proof. unfold handled. rewrite omap_app. by destruct l. Qed.

Lemma being_processed_insert (ws : list worker_pc) i (u u' : worker_pc) :
  ws !! i = Some u →
  being_processed (<[i := u']> ws) ⊎ in_hand u = being_processed ws ⊎ in_hand u'.
Proof.
  revert i. induction ws as [|w0 ws IH]; intros [|i] Hi; simplify_eq/=.
  - multiset_solver.
  - rewrite <- !(assoc_L (⊎)). f_equal. by apply IH.
Qed.

Lemma being_processed_empty (ws : list worker_pc) :
  (∀ i (u : worker_pc), ws !! i = Some u → in_hand u = ∅) → being_processed ws = ∅.
Proof.
  induction ws as [|w0 ws IH]; intros Hf; [done|]. simpl.
  rewrite (Hf 0%nat w0), IH; [multiset_solver| |done].
  intros i u Hi. by apply (Hf (S i)).
Qed.

Lemma driver_inv_start p : driver_inv p [] (start p).
Proof.
  split; simpl.
  - by exists Idle.
  - done.
  - intros k _ i u _ [-> _]%lookup_replicate. done.
  - rewrite being_processed_empty; [multiset_solver|].
    by intros i u [-> _]%lookup_replicate.
Qed.

Lemma main_step_driver_inv p hint Σ l Σ' tr :
  main_step p hint Σ = Some (l, Σ') → driver_inv p tr Σ → driver_inv p (tr ++ [l]) Σ'.
Proof.
  destruct Σ as [σ mpc ws st]. unfold main_step. simpl.
  intros Hstep [(c & Hmain & Hc) Hseed Hun Hpops]. simpl in *.
  destruct mpc as [i|[|v rest]|rest|k|]; repeat case_match; simplify_eq.
  all: try match goal with H : step _ _ = Some _ |- _ =>
      pose proof (step_label _ _ _ _ H) as Hl;
      destruct (step_pusher _ _ _ _ 0%nat c H) as [Hmain' Hret]; [done..|];
      simpl in Hl
    end.
  all: split; simpl; rewrite ?queue_trace_snoc, ?handled_snoc, ?app_nil_r; eauto;
    try (by intros ? [=]).
  all: simpl in *;
    rewrite ?pushes_called_snoc, ?pops_returned_snoc, ?app_nil_r in *; simpl;
    rewrite ?app_nil_r; try done.
  - (* a worker is started: the ones after it have not *)
    intros k [= <-] i' u Hle. rewrite list_lookup_insert_ne by lia.
    apply (Hun i); [done|lia].
  - destruct (ws !! i) as [u|] eqn:Hu.
    + pose proof (being_processed_insert ws i u Loop_top Hu) as Hins.
      rewrite (Hun i eq_refl i u) in Hins by done. simpl in Hins. multiset_solver.
    + rewrite list_insert_ge; [done|]. by apply lookup_ge_None.
  - subst l0. by rewrite <- (assoc_L (++)).
  - subst l0. by rewrite app_nil_r.
Qed.

Lemma unspawned_insert (mpc : main_pc) (ws : list worker_pc) i (u0 u' : worker_pc) :
  (∀ k, mpc = Spawning k →
        ∀ i u, (k ≤ i)%nat → ws !! i = Some u → u = Not_started) →
  ws !! i = Some u0 → u0 ≠ Not_started →
  ∀ k, mpc = Spawning k →
       ∀ j u, (k ≤ j)%nat → <[i := u']> ws !! j = Some u → u = Not_started.
Proof.
  intros Hun Hi Hu0 k Hk j u Hle. rewrite list_lookup_insert_Some.
  intros [(<- & _ & _)|[_ Hj]]; [|by eapply Hun].
  destruct Hu0. by eapply Hun.
Qed.

Lemma worker_step_driver_inv p i hint Σ l Σ' tr :
  worker_step p i hint Σ = Some (l, Σ') → driver_inv p tr Σ →
  driver_inv p (tr ++ [l]) Σ'.
Proof.
  destruct Σ as [σ mpc ws st]. unfold worker_step. simpl.
  intros Hstep [(c & Hmain & Hc) Hseed Hun Hpops]. simpl in *.
  destruct (ws !! i) as [[| | |v|]|] eqn:Hi; try done.
  - (* the worker calls pop *)
    destruct (step (Call_pop (S i)) σ) as [[ql σ1]|] eqn:Hq; simplify_eq.
    pose proof (step_label _ _ _ _ Hq) as Hl. simpl in Hl. subst ql.
    destruct (step_other _ _ _ _ 0%nat c Hq) as [Hmain'|[-> _]]; [done..| |done].
    pose proof (being_processed_insert ws i _ In_pop Hi) as Hins. simpl in Hins.
    split; simpl; rewrite ?queue_trace_snoc, ?handled_snoc; simpl;
      rewrite ?pushes_called_snoc, ?pops_returned_snoc, ?app_nil_r; simpl;
      rewrite ?app_nil_r.
    + eauto.
    + done.
    + by eapply unspawned_insert.
    + multiset_solver.
  - (* the worker runs a statement of pop *)
    destruct (step (Run (S i) hint) σ) as [[ql σ1]|] eqn:Hq; simplify_eq.
    pose proof (step_label _ _ _ _ Hq) as Hl. simpl in Hl.
    destruct (step_other _ _ _ _ 0%nat c Hq) as [Hmain'|[-> _]]; [done..| |done].
    split; simpl; rewrite ?queue_trace_snoc, ?handled_snoc; simpl;
      rewrite ?pushes_called_snoc, ?pops_returned_snoc, ?app_nil_r; simpl.
    + eauto.
    + revert Hl. destruct ql; intros Hl; rewrite ?app_nil_r; done.
    + by eapply unspawned_insert.
    + revert Hl. destruct ql; intros _; rewrite ?app_nil_r;
        match goal with
        | |- context [being_processed (<[i := ?u']> ws)] =>
            pose proof (being_processed_insert ws i _ u' Hi) as Hins
        end;
        simpl in Hins; rewrite ?list_to_set_disj_app; simpl; multiset_solver.
  - (* the worker runs the handler *)
    simplify_eq.
    pose proof (being_processed_insert ws i _ Loop_top Hi) as Hins. simpl in Hins.
    split; simpl; rewrite ?queue_trace_snoc, ?handled_snoc, ?app_nil_r; simpl.
    + eauto.
    + done.
    + by eapply unspawned_insert.
    + rewrite list_to_set_disj_app. simpl. multiset_solver.
Qed.

Lemma pstep_driver_inv p turn Σ l Σ' tr :
  pstep p turn Σ = Some (l, Σ') → driver_inv p tr Σ → driver_inv p (tr ++ [l]) Σ'.
Proof.
  unfold pstep. destruct (process Σ); [|done..]. destruct turn as [[|i] hint]; simpl.
  - apply main_step_driver_inv.
  - apply worker_step_driver_inv.
Qed.

(** Every step of the process is a step of the queue, or leaves the queue
    alone. *)
Lemma pstep_queue p turn Σ l Σ' :
  pstep p turn Σ = Some (l, Σ') →
  match l with
  | In_queue ql => ∃ a, step a (taskQueue Σ) = Some (ql, taskQueue Σ')
  | _ => taskQueue Σ' = taskQueue Σ
  end.
Proof.
  unfold pstep, main_step, worker_step. destruct Σ as [σ mpc ws st]. simpl.
  intros Hstep. repeat case_match; simplify_eq; simpl; eauto.
Qed.

Lemma pexec_queue p sched tr Σ tr' Σ' :
  pexec p sched tr Σ = Some (tr', Σ') →
  ∃ qsched,
    exec qsched (queue_trace tr) (taskQueue Σ) = Some (queue_trace tr', taskQueue Σ').
Proof.
  revert tr Σ. induction sched as [|turn sched IH]; intros tr Σ Hexec; simpl in Hexec.
  - simplify_eq. by exists [].
  - destruct (pstep p turn Σ) as [[l Σ1]|] eqn:Hstep; [|done].
    destruct (IH _ _ Hexec) as [qsched Hq].
    pose proof (pstep_queue _ _ _ _ _ Hstep) as Hl.
    rewrite queue_trace_snoc in Hq.
    destruct l; try (rewrite app_nil_r, Hl in Hq; by exists qsched).
    destruct Hl as [a Ha]. exists (a :: qsched). simpl. by rewrite Ha.
Qed.

Lemma pexec_driver_inv p sched tr Σ tr' Σ' :
  pexec p sched tr Σ = Some (tr', Σ') → driver_inv p tr Σ → driver_inv p tr' Σ'.
Proof.
  revert tr Σ. induction sched as [|turn sched IH]; intros tr Σ Hexec Hinv.
  - by simplify_eq/=.
  - simpl in Hexec. destruct (pstep p turn Σ) as [[l Σ1]|] eqn:Hstep; [|done].
    eapply IH; [done|]. by eapply pstep_driver_inv.
Qed.

(** Conservation of tasks, from the seed to the handler. *)
Lemma tasks_conserved p sched tr Σ :
  pexec p sched [] (start p) = Some (tr, Σ) →
  list_to_set_disj (seed p) = list_to_set_disj (handled tr) ⊎ outstanding p Σ.
Proof.
  intros Hexec.
  pose proof (pexec_driver_inv _ _ _ _ _ _ Hexec (driver_inv_start p))
    as [_ Hseed _ Hpops].
  destruct (pexec_queue _ _ _ _ _ _ Hexec) as [qsched Hq].
  apply reachable_consistent in Hq as [_ _ Hhist].
  apply conservation in Hhist.
  unfold outstanding. rewrite Hseed, list_to_set_disj_app.
  multiset_solver.
Qed.

Lemma elements_list_to_set_disj (l : list Z) :
  elements (list_to_set_disj l : gmultiset Z) ≡ₚ l.
Proof.
  induction l as [|x l IH]; simpl.
  - by rewrite gmultiset_elements_empty.
  - by rewrite gmultiset_elements_disj_union, gmultiset_elements_singleton, IH.
Qed.

Lemma list_to_set_disj_submseteq (l1 l2 : list Z) :
  (list_to_set_disj l1 : gmultiset Z) ⊆ list_to_set_disj l2 → l1 ⊆+ l2.
Proof.
  intros Hsub%gmultiset_elements_submseteq.
  by rewrite !elements_list_to_set_disj in Hsub.
Qed.

Lemma submseteq_NoDup (l1 l2 : list Z) : l1 ⊆+ l2 → NoDup l2 → NoDup l1.
Proof.
  intros (l & Hsub & Hperm)%submseteq_sublist_l Hnodup.
  rewrite <- Hperm in Hnodup. by eapply sublist_NoDup.
Qed.

(** C6. Whatever the number of workers, the seed, the handler and the
    interleaving: every seeded task is either outstanding (not pushed yet,
    carried by a thread, pending in the queue, or popped and about to be
    processed) or has gone through the handler, once.  So the handler never
    runs more often than there are tasks, never twice on a task of a seed
    without duplicates, and once the queue is drained it has run exactly
    once per seeded task. *)
Theorem task_conservation p sched tr Σ :
  pexec p sched [] (start p) = Some (tr, Σ) →
  list_to_set_disj (seed p) = list_to_set_disj (handled tr) ⊎ outstanding p Σ
  ∧ (length (handled tr) ≤ length (seed p))%nat
  ∧ (NoDup (seed p) → NoDup (handled tr))
  ∧ (drained p Σ →
     handled tr ≡ₚ seed p ∧ length (handled tr) = length (seed p)).
Proof.
  intros Hexec. pose proof (tasks_conserved _ _ _ _ Hexec) as Hcons.
  assert (handled tr ⊆+ seed p) as Hsub.
  { apply list_to_set_disj_submseteq. rewrite Hcons. multiset_solver. }
  split_and!; [done | by apply submseteq_length | by apply submseteq_NoDup |].
  unfold drained. intros Hdrained. rewrite Hdrained, (right_id_L ∅ (⊎)) in Hcons.
  assert (handled tr ≡ₚ seed p) as Hperm.
  { by rewrite <- (elements_list_to_set_disj (handled tr)), <- Hcons,
      elements_list_to_set_disj. }
  split; [done | by rewrite Hperm].
Qed.

Lemma drain_schedule_run :
  pexec CodeSample.main drain_schedule [] (start CodeSample.main) ≫= (λ r,
    Some (handled r.1, r.2))
  = Some ([1; 2; 3; 4; 5],
          System (Queue [] None [Idle; PopBlocked; PopBlocked; PopBlocked])
                 (Shutting 0) [In_pop; In_pop; In_pop] Running).
Proof. vm_compute. reflexivity. Qed.

Lemma task_conservation_witness :
  ∃ tr Σ,
    pexec CodeSample.main drain_schedule [] (start CodeSample.main) = Some (tr, Σ)
    ∧ drained CodeSample.main Σ
    ∧ handled tr ≡ₚ seqZ 1 5 ∧ length (handled tr) = 5%nat.
Proof.
  pose proof drain_schedule_run as Hrun.
  destruct (pexec _ _ _ _) as [[tr Σ]|] eqn:Hexec; [|done].
  simpl in Hrun. injection Hrun as Hhandled HΣ.
  exists tr, Σ.
  assert (drained CodeSample.main Σ) as Hdrained.
  { rewrite HΣ. unfold drained, outstanding. simpl. multiset_solver. }
  destruct (task_conservation CodeSample.main drain_schedule tr Σ Hexec)
    as (_ & _ & _ & Hall).
  destruct (Hall Hdrained) as [Hperm Hlen].
  split; [reflexivity|]. split; [exact Hdrained|]. split; [exact Hperm | exact Hlen].
Defined.

(** *** The worker loop *)

(** No step makes a thread function return. *)
Lemma pstep_no_finish p turn Σ l Σ' :
  pstep p turn Σ = Some (l, Σ') →
  (∀ i, workers Σ !! i ≠ Some Finished) → ∀ i, workers Σ' !! i ≠ Some Finished.
Proof.
  unfold pstep, main_step, worker_step. destruct Σ as [σ mpc ws st]. simpl.
  intros Hstep Hnone i. specialize (Hnone i).
  repeat case_match; simplify_eq; simpl; try done.
  all: rewrite list_lookup_insert_Some; intros [(_ & ? & _)|[_ ?]]; done.
Qed.

(** With a handler that returns normally, the process is not terminated
    by an exception. *)
Lemma pstep_absorbs p turn Σ l Σ' :
  (∀ id, result (@processTask (handler p) id) = Normal tt) →
  pstep p turn Σ = Some (l, Σ') →
  process Σ ≠ Terminated → process Σ' ≠ Terminated.
Proof.
  unfold pstep, main_step, worker_step. destruct Σ as [σ mpc ws st]. simpl.
  intros Hhandler Hstep Hrun.
  repeat case_match; simplify_eq; simpl; try done.
  match goal with H : result _ = Thrown _ |- _ => by rewrite Hhandler in H end.
Qed.

Lemma pexec_absorbs p sched tr Σ tr' Σ' :
  (∀ id, result (@processTask (handler p) id) = Normal tt) →
  pexec p sched tr Σ = Some (tr', Σ') →
  process Σ ≠ Terminated → process Σ' ≠ Terminated.
Proof.
  intros Hhandler. revert tr Σ.
  induction sched as [|turn sched IH]; intros tr Σ Hexec Hrun.
  - by simplify_eq/=.
  - simpl in Hexec. destruct (pstep p turn Σ) as [[l Σ1]|] eqn:Hstep; [|done].
    eapply IH; [done|]. by eapply pstep_absorbs.
Qed.

(** With joined workers, at least one of them, and a handler that returns
    normally, [main] stays before or in the first join. *)
Lemma pstep_stuck_in_join p turn Σ l Σ' :
  at_shutdown p = Join → (0 < nworkers p)%nat →
  (∀ id, result (@processTask (handler p) id) = Normal tt) →
  pstep p turn Σ = Some (l, Σ') → stuck_in_join Σ → stuck_in_join Σ'.
Proof.
  intros Hjoin Hpos Hhandler Hstep [Hrun Hnone Hmain Hfirst].
  split.
  - assert (process Σ' ≠ Terminated) as Hterm
      by (eapply pstep_absorbs; [done..|by rewrite Hrun]).
    revert Hstep Hterm. unfold pstep, main_step, worker_step.
    destruct Σ as [σ mpc ws st]. simpl in *. intros Hstep Hterm.
    repeat case_match; simplify_eq; simpl in *; try done.
    pose proof (Hfirst _ eq_refl). lia.
  - by eapply pstep_no_finish.
  - revert Hstep. unfold pstep, main_step, worker_step.
    destruct Σ as [σ mpc ws st]. simpl in *. intros Hstep.
    repeat case_match; simplify_eq; simpl in *; try done.
    pose proof (Hfirst _ eq_refl). lia.
  - revert Hstep. unfold pstep, main_step, worker_step.
    destruct Σ as [σ mpc ws st]. simpl in *. intros Hstep k.
    repeat case_match; simplify_eq; simpl in *; try done.
    all: try by intros [=].
    all: try by apply Hfirst.
    by destruct (Hnone k0).
Qed.

Lemma pexec_stuck_in_join p sched tr Σ tr' Σ' :
  at_shutdown p = Join → (0 < nworkers p)%nat →
  (∀ id, result (@processTask (handler p) id) = Normal tt) →
  pexec p sched tr Σ = Some (tr', Σ') → stuck_in_join Σ → stuck_in_join Σ'.
Proof.
  intros Hjoin Hpos Hhandler. revert tr Σ.
  induction sched as [|turn sched IH]; intros tr Σ Hexec Hinv.
  - by simplify_eq/=.
  - simpl in Hexec. destruct (pstep p turn Σ) as [[l Σ1]|] eqn:Hstep; [|done].
    eapply IH; [done|]. by eapply pstep_stuck_in_join.
Qed.

Lemma stuck_in_join_start p : stuck_in_join (start p).
Proof.
  split; simpl; [done| |done|done].
  intros i [? _]%lookup_replicate. done.
Qed.

(** [main] waiting in the first join cannot move. *)
Lemma first_join_blocks p Σ hint :
  at_shutdown p = Join → (0 < nworkers p)%nat →
  process Σ = Running → workers Σ !! 0%nat ≠ Some Finished →
  main_at Σ = Shutting 0 → pstep p (0%nat, hint) Σ = None.
Proof.
  intros Hjoin Hpos Hrun Hw Hmain. unfold pstep, main_step. rewrite Hrun, Hmain. simpl.
  rewrite decide_True, Hjoin by done.
  destruct (workers Σ !! 0%nat) as [[]|]; done.
Qed.

Lemma handlers_return p id :
  p = CodeSample.main ∨ p = WithSOLID.main →
  result (@processTask (handler p) id) = Normal tt.
Proof. intros [->| ->]; [apply process1_returns | apply process2_returns]. Qed.

Lemma main_only_run :
  (process ∘ snd) <$> pexec WithSOLID.main main_only_schedule [] (start WithSOLID.main)
  = Some (Exited 0).
Proof. by vm_compute. Qed.

(** C9. In every state the first variant can reach, the process is
    running, no worker's thread function has returned, and [main] has not
    returned and is not past the first join; when [main] waits in that join
    it cannot move.  The state in which the five tasks are handled, the
    queue is drained, the three workers are blocked and [main] waits in the
    first join is reached.  No worker ever finishes in any program of this
    shape; the second variant, which detaches, does exit. *)
Theorem join_never_completes sched tr Σ :
  pexec CodeSample.main sched [] (start CodeSample.main) = Some (tr, Σ) →
  stuck_in_join Σ
  ∧ (∀ hint, main_at Σ = Shutting 0 → pstep CodeSample.main (0%nat, hint) Σ = None)
  ∧ (pexec CodeSample.main drain_schedule [] (start CodeSample.main) ≫= (λ r,
       Some (handled r.1, r.2))
     = Some ([1; 2; 3; 4; 5],
             System (Queue [] None [Idle; PopBlocked; PopBlocked; PopBlocked])
                    (Shutting 0) [In_pop; In_pop; In_pop] Running))
  ∧ (∀ p' sched' tr' Σ',
       pexec p' sched' [] (start p') = Some (tr', Σ') →
       ∀ i, workers Σ' !! i ≠ Some Finished)
  ∧ (process ∘ snd) <$> pexec WithSOLID.main main_only_schedule [] (start WithSOLID.main)
    = Some (Exited 0).
Proof.
  intros Hexec.
  assert (stuck_in_join Σ) as Hstuck.
  { eapply (pexec_stuck_in_join CodeSample.main); [done | simpl; lia | | done |].
    - intros id. apply process1_returns.
    - apply stuck_in_join_start. }
  split_and!; [done | | exact drain_schedule_run | | exact main_only_run].
  - intros hint Hmain. destruct Hstuck as [Hrun Hnone _ _].
    apply first_join_blocks; [done | simpl; lia | done..].
  - intros p' sched'. generalize (stuck_in_join_start p').
    intros [_ Hnone _ _]. revert Hnone.
    generalize (@nil plabel) (start p').
    induction sched' as [|turn sched' IH]; intros tr0 Σ0 Hnone tr' Σ' Hexec'.
    + by simplify_eq/=.
    + simpl in Hexec'.
      destruct (pstep p' turn Σ0) as [[l Σ1]|] eqn:Hstep; [|done].
      eapply IH; [|done]. by eapply pstep_no_finish.
Qed.

Lemma join_never_completes_witness :
  ∃ tr Σ,
    pexec CodeSample.main drain_schedule [] (start CodeSample.main) = Some (tr, Σ)
    ∧ stuck_in_join Σ
    ∧ ∀ hint, main_at Σ = Shutting 0 → pstep CodeSample.main (0%nat, hint) Σ = None.
Proof.
  pose proof drain_schedule_run as Hrun.
  destruct (pexec CodeSample.main drain_schedule [] (start CodeSample.main))
    as [[tr Σ]|] eqn:Hexec; [clear Hrun|done].
  destruct (join_never_completes drain_schedule tr Σ Hexec) as (H1 & H2 & _).
  exists tr, Σ. split; [reflexivity|]. split; [exact H1 | exact H2].
Defined.

(** C10. The two variants have the same lookup, and their handlers end the
    same way, make the same calls of sendMessage and write the same lines
    in the same order: the trace of the first variant is that of the
    second with every line sent to the diagnostic stream.  Their [main]
    functions start as many workers on the same seed; the first joins,
    the second detaches. *)
Theorem variants_agree (id : Z) :
  fetch1 id = fetch2 id
  ∧ result (process1 id) = result (process2 id)
  ∧ notifications (events (process1 id)) = notifications (events (process2 id))
  ∧ events (process1 id) = on_cerr <$> events (process2 id)
  ∧ nworkers CodeSample.main = nworkers WithSOLID.main
  ∧ seed CodeSample.main = seed WithSOLID.main
  ∧ at_shutdown CodeSample.main = Join
  ∧ at_shutdown WithSOLID.main = Detach.
Proof.
  split_and!; try done.
  - by rewrite process1_returns, process2_returns.
  - destruct (fetch_cases id) as [[_ Hf]|[_ Hf]].
    + by rewrite (process1_found _ _ Hf), (process2_found _ _ Hf).
    + by rewrite (process1_failed _ _ Hf), (process2_failed _ _ Hf).
  - destruct (fetch_cases id) as [[_ Hf]|[_ Hf]].
    + by rewrite (process1_found _ _ Hf), (process2_found _ _ Hf).
    + by rewrite (process1_failed _ _ Hf), (process2_failed _ _ Hf).
Qed.

(** The end-to-end scenario: ids 1 to 5 are seeded, three workers run; along
    the draining schedule the handler runs five times, every lookup
    succeeds, and sendMessage is called with the five composed messages. *)
Theorem end_to_end :
  pexec CodeSample.main drain_schedule [] (start CodeSample.main) ≫= (λ r,
    Some (handled r.1, notifications (output r.1), process r.2))
  = Some ([1; 2; 3; 4; 5],
          ["Processed Task 1: Message for ID 1"; "Processed Task 2: Message for ID 2";
           "Processed Task 3: Message for ID 3"; "Processed Task 4: Message for ID 4";
           "Processed Task 5: Message for ID 5"]%string,
          Running).
Proof. vm_compute. reflexivity. Qed.

End driver_facts.

(** * The queue: progress, wake-ups and round trips *)
Section queue_wakeup.
Import MessageQueue Wakeup.
Implicit Types (σ : queue) (t w : tid) (c : call) (tr : list label).
Implicit Types (ths : list call) (q : list Z) (m : option tid).

Local Ltac at_thread :=
  rewrite list_lookup_insert_eq
    by (rewrite ?length_insert, ?length_unblock, ?length_insert;
        eapply lookup_lt_Some; eassumption).

(** A thread inside a call that is not asleep in [cv.wait] can execute its
    statement, unless it waits for the mutex, and then the owner of the
    mutex can execute its own. *)
Lemma thread_progress qtr σ t c hint :
  consistent qtr σ →
  threads σ !! t = Some c → c ≠ Idle → c ≠ PopBlocked →
  (∃ l σ', step (Run t hint) σ = Some (l, σ'))
  ∨ (∃ o co l σ', queueMutex σ = Some o ∧ o ≠ t
                  ∧ threads σ !! o = Some co ∧ holds_mutex co = true
                  ∧ step (Run o hint) σ = Some (l, σ')).
Proof.
  intros [[Hin Hown] Hfront _] Ht Hidle Hblocked.
  assert (∀ o co, threads σ !! o = Some co → holds_mutex co = true →
                  ∃ l σ', step (Run o hint) σ = Some (l, σ')) as Howner.
  { intros o co Ho Hco. destruct (Hfront o) as [Hne _]. simpl. rewrite Ho.
    destruct co; try done; simpl; eauto.
    - destruct (tasks σ); eauto.
    - specialize (Hne Ho). destruct (tasks σ); [done|eauto]. }
  destruct (holds_mutex c) eqn:Hc; [left; by eapply Howner|].
  destruct (queueMutex σ) as [o|] eqn:Hm.
  - right. destruct (Hown _ eq_refl) as (co & Ho & Hco).
    destruct (Howner _ _ Ho Hco) as (l & σ' & Hstep).
    exists o, co, l, σ'. split_and!; try done. intros ->. congruence.
  - left. simpl. rewrite Ht. destruct c; try done; simpl; rewrite Hm; eauto.
Qed.

(** The queue has no deadlock: in every state the threads can reach, a
    thread inside a call that is not asleep in [cv.wait] can execute its
    statement, unless it waits for the mutex, and then the owner of the
    mutex, another thread, can execute its own. *)
Theorem queue_never_deadlocks n sched tr σ t c hint :
  exec sched [] (init n) = Some (tr, σ) →
  threads σ !! t = Some c → c ≠ Idle → c ≠ PopBlocked →
  (∃ l σ', step (Run t hint) σ = Some (l, σ'))
  ∨ (∃ o co l σ', queueMutex σ = Some o ∧ o ≠ t
                  ∧ threads σ !! o = Some co ∧ holds_mutex co = true
                  ∧ step (Run o hint) σ = Some (l, σ')).
Proof.
  intros Hexec. apply reachable_consistent in Hexec. by eapply thread_progress.
Qed.

Lemma queue_never_deadlocks_witness :
  ∃ o co l σ',
    queueMutex (Queue [] (Some 0%nat) [PushEnqueue 4; PopLock]) = Some o ∧ o ≠ 1%nat
    ∧ [PushEnqueue 4; PopLock] !! o = Some co ∧ holds_mutex co = true
    ∧ step (Run o 0) (Queue [] (Some 0%nat) [PushEnqueue 4; PopLock]) = Some (l, σ').
Proof.
  assert (exec [Call_push 0 4; Call_pop 1; Run 0 0] [] (init 2)
          = Some ([Invoke_push 0 4; Invoke_pop 1; Acquire 0],
                  Queue [] (Some 0%nat) [PushEnqueue 4; PopLock]))
    as Hexec by (vm_compute; reflexivity).
  destruct (queue_never_deadlocks _ _ _ _ 1%nat PopLock 0%nat Hexec eq_refl)
    as [(l & σ' & Hstep)|Howner]; [discriminate .. | | exact Howner].
  exfalso. revert Hstep. vm_compute. discriminate.
Defined.

(** When a thread wakes up in [cv.wait], for whatever reason, it takes the
    mutex and tests the queue again: if the queue is empty it goes back to
    sleep and the queue is exactly as before; if not it removes the task in
    front and returns it. *)
Theorem wakeup_retests σ t tr :
  queueMutex σ = None → threads σ !! t = Some PopBlocked →
  (tasks σ = [] →
   exec (wake_and_retest t) tr σ = Some (tr ++ [Wake t; Acquire t; Block t], σ))
  ∧ (∀ v q, tasks σ = v :: q →
       ∃ ths',
         exec (wake_and_retest t ++ [Run t t; Run t t; Run t t]) tr σ
         = Some (tr ++ [Wake t; Acquire t; Ready t; Front t v; Dequeue t v; Return_pop t v],
                 Queue q None ths')
         ∧ ths' !! t = Some Idle
         ∧ ∀ t', t' ≠ t → ths' !! t' = threads σ !! t').
Proof.
  destruct σ as [q0 m ths]. simpl. intros -> Ht. split.
  - intros ->. rewrite Ht. simpl. at_thread. simpl. at_thread. simpl.
    rewrite <- !(assoc_L (++)). simpl.
    by rewrite !list_insert_insert_eq, list_insert_id.
  - intros v q ->. eexists. rewrite Ht. simpl. at_thread. simpl. at_thread. simpl.
    at_thread. simpl. at_thread. simpl. at_thread. simpl.
    rewrite <- !(assoc_L (++)). simpl. split; [reflexivity|].
    rewrite !list_insert_insert_eq. split.
    + by at_thread.
    + intros t' Hne. by rewrite list_lookup_insert_ne.
Qed.

Lemma wakeup_retests_witness :
  exec (wake_and_retest 1) [] (Queue [] None [Idle; PopBlocked])
  = Some ([] ++ [Wake 1; Acquire 1; Block 1], Queue [] None [Idle; PopBlocked]).
Proof.
  destruct (wakeup_retests (Queue [] None [Idle; PopBlocked]) 1%nat [] eq_refl eq_refl)
    as [Hempty _].
  exact (Hempty eq_refl).
Defined.

(** *** Round trips *)

(** What the other threads do leaves a thread outside the queue where it is. *)
Lemma exec_idle_stays sched tr σ tr' σ' t :
  exec sched tr σ = Some (tr', σ') →
  Forall (λ a, Driver.thread_of a ≠ t) sched →
  threads σ !! t = Some Idle → threads σ' !! t = Some Idle.
Proof.
  revert tr σ. induction sched as [|a sched IH]; intros tr σ Hexec Hall Ht.
  - by simplify_eq/=.
  - simpl in Hexec. destruct (step a σ) as [[l σ1]|] eqn:Hstep; [|done].
    inversion Hall as [|? ? Ha Hall']; subst. eapply (IH _ σ1); [done..|].
    by destruct (step_other _ _ _ _ _ _ Hstep Ha Ht) as [?|[? _]].
Qed.

Lemma pushes_alone_cons t v vs :
  pushes_alone t (v :: vs) = push_alone t v ++ pushes_alone t vs.
Proof. done. Qed.

Lemma pops_alone_S t n : pops_alone t (S n) = pop_alone t ++ pops_alone t n.
Proof. done. Qed.

Lemma pushes_alone_spec t vs tr σ :
  queueMutex σ = None → threads σ !! t = Some Idle →
  ∃ tr' ths',
    exec (pushes_alone t vs) tr σ = Some (tr', Queue (tasks σ ++ vs) None ths')
    ∧ ths' !! t = Some Idle
    ∧ pushes_called tr' = pushes_called tr ++ vs
    ∧ pops_returned tr' = pops_returned tr.
Proof.
  revert tr σ. induction vs as [|v vs IH]; intros tr σ Hm Ht.
  - destruct σ as [q m ths]. simpl in *. subst. exists tr, ths.
    by rewrite !app_nil_r.
  - destruct (push_alone_spec t v tr σ Hm Ht) as (woken & ths1 & Hpush & Ht1).
    destruct (IH (tr ++ [Invoke_push t v; Acquire t; Enqueue t v; Signal t woken;
                         Return_push t])
                 (Queue (tasks σ ++ [v]) None ths1) eq_refl Ht1)
      as (tr' & ths' & Hrest & Ht' & Hcalled & Hret).
    exists tr', ths'. rewrite pushes_alone_cons, exec_app, Hpush, Hrest. simpl.
    rewrite <- (assoc_L (++)). simpl.
    split_and!; [done | done | |].
    + rewrite Hcalled. unfold pushes_called. rewrite omap_app. simpl.
      by rewrite <- (assoc_L (++)).
    + rewrite Hret. unfold pops_returned. rewrite omap_app. simpl.
      by rewrite app_nil_r.
Qed.

Lemma pops_alone_spec t vs q tr σ :
  queueMutex σ = None → threads σ !! t = Some Idle → tasks σ = vs ++ q →
  ∃ tr' ths',
    exec (pops_alone t (length vs)) tr σ = Some (tr', Queue q None ths')
    ∧ ths' !! t = Some Idle
    ∧ pushes_called tr' = pushes_called tr
    ∧ pops_returned tr' = pops_returned tr ++ vs.
Proof.
  revert tr σ. induction vs as [|v vs IH]; intros tr σ Hm Ht Hq.
  - destruct σ as [q0 m ths]. simpl in *. subst. exists tr, ths.
    by rewrite !app_nil_r.
  - destruct (pop_alone_spec t v (vs ++ q) tr σ Hm Ht Hq) as (ths1 & Hpop & Ht1).
    destruct (IH (tr ++ [Invoke_pop t; Acquire t; Ready t; Front t v; Dequeue t v;
                         Return_pop t v])
                 (Queue (vs ++ q) None ths1) eq_refl Ht1 eq_refl)
      as (tr' & ths' & Hrest & Ht' & Hcalled & Hret).
    exists tr', ths'. simpl length. rewrite pops_alone_S, exec_app, Hpop, Hrest.
    split_and!; [done | done | |].
    + rewrite Hcalled. unfold pushes_called. rewrite omap_app. simpl.
      by rewrite app_nil_r.
    + rewrite Hret. unfold pops_returned. rewrite omap_app. simpl.
      by rewrite <- (assoc_L (++)).
Qed.

Lemma pushes_alone_thread p vs t :
  p ≠ t → Forall (λ a, Driver.thread_of a ≠ t) (pushes_alone p vs).
Proof.
  intros Hne. induction vs as [|v vs IH]; [constructor|].
  rewrite pushes_alone_cons. by repeat constructor.
Qed.

Lemma pops_alone_thread w k t :
  w ≠ t → Forall (λ a, Driver.thread_of a ≠ t) (pops_alone w k).
Proof.
  intros Hne. induction k as [|k IH]; [constructor|].
  rewrite pops_alone_S. by repeat constructor.
Qed.

(** A producer that pushes the tasks [vs], then a consumer that pops [k]
    times, when [k] tasks are there: the pops return the first [k] tasks of
    the queue in the order in which they were pushed, and the others stay.
    With an empty queue and [k] the number of tasks pushed, the consumer gets
    exactly [vs] and the queue is empty again. *)
Theorem push_pop_round_trip p w vs k tr σ :
  queueMutex σ = None →
  threads σ !! p = Some Idle → threads σ !! w = Some Idle →
  (k ≤ length (tasks σ) + length vs)%nat →
  ∃ tr' σ',
    exec (pushes_alone p vs ++ pops_alone w k) tr σ = Some (tr', σ')
    ∧ pops_returned tr' = pops_returned tr ++ take k (tasks σ ++ vs)
    ∧ tasks σ' = drop k (tasks σ ++ vs)
    ∧ queueMutex σ' = None
    ∧ threads σ' !! p = Some Idle ∧ threads σ' !! w = Some Idle
    ∧ (tasks σ = [] → k = length vs →
       pops_returned tr' = pops_returned tr ++ vs ∧ tasks σ' = []).
Proof.
  intros Hm Hp Hw Hk.
  destruct (pushes_alone_spec p vs tr σ Hm Hp) as (tr1 & ths1 & Hpush & Hp1 & _ & Hret1).
  assert (ths1 !! w = Some Idle) as Hw1.
  { destruct (decide (w = p)) as [->|Hne]; [done|].
    eapply (exec_idle_stays _ _ _ _ (Queue _ _ ths1)); [done| |done].
    by apply pushes_alone_thread. }
  assert (length (take k (tasks σ ++ vs)) = k) as Hlen
    by (rewrite length_take, length_app; lia).
  destruct (pops_alone_spec w (take k (tasks σ ++ vs)) (drop k (tasks σ ++ vs)) tr1
              (Queue (tasks σ ++ vs) None ths1) eq_refl Hw1)
    as (tr' & ths' & Hpops & Hw' & _ & Hret).
  { simpl. by rewrite take_drop. }
  rewrite Hlen in Hpops.
  assert (ths' !! p = Some Idle) as Hp'.
  { destruct (decide (p = w)) as [->|Hne]; [done|].
    eapply (exec_idle_stays _ _ (Queue _ _ ths1) _ (Queue _ _ ths')); [done| |done].
    by apply pops_alone_thread. }
  exists tr', (Queue (drop k (tasks σ ++ vs)) None ths').
  rewrite exec_app, Hpush, Hpops, Hret, Hret1. split_and!; try done.
  intros Hq ->. rewrite Hq. simpl. by rewrite take_ge, drop_ge by lia.
Qed.

Lemma push_pop_round_trip_witness :
  ∃ tr' σ',
    exec (pushes_alone 0 [7; 8; 9] ++ pops_alone 1 2) [] (init 2) = Some (tr', σ')
    ∧ pops_returned tr' = [7; 8] ∧ tasks σ' = [9].
Proof.
  destruct (push_pop_round_trip 0%nat 1%nat [7; 8; 9] 2%nat [] (init 2) eq_refl eq_refl eq_refl)
    as (tr' & σ' & Hexec & Hret & Hq & _); [simpl; lia|].
  exists tr', σ'. split; [exact Hexec|]. split; [exact Hret | exact Hq].
Defined.

(** *** What [pop] returns was pushed *)

(** Whatever the threads do, the tasks that calls of [pop] have returned are
    among the tasks passed to calls of [push], each one at most as often as it
    was passed: the queue invents no task and hands no task out twice.  The
    tasks passed and not returned are those in the queue and those held by a
    call on its way in or out. *)
Theorem pop_returns_pushed_tasks n sched tr σ :
  exec sched [] (init n) = Some (tr, σ) →
  pops_returned tr ⊆+ pushes_called tr
  ∧ (∀ v, v ∈ pops_returned tr → v ∈ pushes_called tr)
  ∧ (length (pops_returned tr) + length (tasks σ) ≤ length (pushes_called tr))%nat
  ∧ (NoDup (pushes_called tr) → NoDup (pops_returned tr))
  ∧ (in_transit (threads σ) = ∅ →
     pushes_called tr ≡ₚ pops_returned tr ++ tasks σ).
Proof.
  intros Hexec. apply reachable_consistent in Hexec as [_ _ [_ _ _ _ Hcons]].
  assert (pops_returned tr ++ tasks σ ⊆+ pushes_called tr) as Hsub'.
  { apply list_to_set_disj_submseteq. rewrite Hcons, list_to_set_disj_app.
    multiset_solver. }
  assert (pops_returned tr ⊆+ pushes_called tr) as Hsub.
  { etrans; [|exact Hsub']. by apply submseteq_inserts_r. }
  split_and!; [done | | | by apply submseteq_NoDup |].
  - intros v Hv. by eapply elem_of_submseteq.
  - apply submseteq_length in Hsub'. by rewrite length_app in Hsub'.
  - intros Hnone. rewrite Hnone, (right_id_L ∅ (⊎)) in Hcons.
    rewrite <- (elements_list_to_set_disj (pushes_called tr)), Hcons.
    by rewrite <- list_to_set_disj_app, elements_list_to_set_disj.
Qed.

Lemma pop_returns_pushed_tasks_witness :
  [7] ⊆+ [7; 8] ∧ (1 + 1 ≤ 2)%nat.
Proof.
  assert (exec (pushes_alone 0 [7; 8] ++ pops_alone 1 1) [] (init 2) ≫= (λ r,
            Some (pushes_called r.1, pops_returned r.1, tasks r.2))
          = Some ([7; 8], [7], [8])) as Hrun by (vm_compute; reflexivity).
  destruct (exec (pushes_alone 0 [7; 8] ++ pops_alone 1 1) [] (init 2))
    as [[tr σ]|] eqn:Hexec; [|discriminate].
  destruct (pop_returns_pushed_tasks _ _ _ _ Hexec) as (Hsub & _ & Hlen & _).
  injection Hrun as Hcalled Hret Hq. simpl in Hcalled, Hret, Hq.
  rewrite Hcalled, Hret in Hsub. rewrite Hcalled, Hret, Hq in Hlen.
  split; [exact Hsub | exact Hlen].
Defined.

(** *** No lost wake-up *)

Lemma tally_lookup_le f ths t c : ths !! t = Some c → (f c ≤ tally f ths)%nat.
Proof.
  revert t. induction ths as [|c0 ths IH]; intros [|t] Ht; simplify_eq/=; [lia|].
  specialize (IH _ Ht). lia.
Qed.

Lemma wakeup_inv_move q q' m m' ths t c c' :
  wakeup_inv (Queue q m ths) → ths !! t = Some c →
  q' = [] ∨ (asleep c' ≤ asleep c ∧ length q' + taking c ≤ length q + taking c')%nat →
  wakeup_inv (Queue q' m' (<[t := c']> ths)).
Proof.
  unfold wakeup_inv, sleepers, takers. simpl. intros Hinv Ht [->|[Hs Hk]].
  { right. simpl. lia. }
  pose proof (tally_insert asleep ths t c c' Ht).
  pose proof (tally_insert taking ths t c c' Ht).
  pose proof (tally_lookup_le taking ths t c Ht).
  destruct Hinv as [Hz|Hle]; [left; lia | right; lia].
Qed.

Lemma step_wakeup_inv a σ l σ' : step a σ = Some (l, σ') → wakeup_inv σ → wakeup_inv σ'.
Proof.
  destruct σ as [q m ths]. unfold step, run_stmt. simpl. intros Hstep Hinv.
  repeat case_match; simplify_eq;
    try (eapply wakeup_inv_move; [done | done |];
         first [by left | right; simpl; rewrite ?length_app; simpl; lia]).
  2: { eapply wakeup_inv_move; [done | done |].
       destruct q; [by left | right; simpl; lia]. }
  destruct (notify_one hint ths) as [w|] eqn:Hw; simpl.
  - apply notify_one_blocked in Hw.
    match goal with
    | H : ths !! ?t0 = Some PushNotify |- _ =>
        assert (<[w := PopRelock]> ths !! t0 = Some PushNotify) as Ht'
          by (by rewrite list_lookup_insert_ne by congruence);
        pose proof (tally_insert asleep _ t0 _ PushUnlock Ht');
        pose proof (tally_insert taking _ t0 _ PushUnlock Ht')
    end.
    pose proof (tally_insert asleep ths w _ PopRelock Hw).
    pose proof (tally_insert taking ths w _ PopRelock Hw).
    unfold wakeup_inv, sleepers, takers in *. simpl in *. right.
    destruct Hinv; lia.
  - unfold wakeup_inv, sleepers, takers in *. simpl in *. left.
    pose proof (notify_one_none _ _ Hw) as Hnone.
    match goal with
    | H : ths !! ?t0 = Some PushNotify |- _ =>
        pose proof (tally_insert asleep ths t0 _ PushUnlock H) as Hins
    end.
    simpl in Hins. rewrite Nat.add_0_r in Hins. rewrite Hins, Nat.add_0_r.
    apply tally_zero. intros t' c' Ht'. destruct c'; try done.
    by destruct (Hnone t').
Qed.

Lemma wakeup_inv_init n : wakeup_inv (init n).
Proof.
  left. apply tally_zero. by intros t c [-> _]%lookup_replicate.
Qed.

Lemma exec_wakeup_inv sched tr σ tr' σ' :
  exec sched tr σ = Some (tr', σ') → wakeup_inv σ → wakeup_inv σ'.
Proof.
  revert tr σ. induction sched as [|a sched IH]; intros tr σ Hexec Hinv.
  - by simplify_eq/=.
  - simpl in Hexec. destruct (step a σ) as [[l σ1]|] eqn:Hstep; [|done].
    eapply IH; [done|]. by eapply step_wakeup_inv.
Qed.

Lemma sleeper_has_takers σ t :
  wakeup_inv σ → threads σ !! t = Some PopBlocked →
  (length (tasks σ) ≤ takers σ)%nat.
Proof.
  intros [Hz|Hle] Ht; [|done].
  pose proof (tally_lookup_le asleep _ _ _ Ht) as Hs. unfold sleepers in Hz.
  simpl in Hs. lia.
Qed.

Lemma sleeper_alone_queue_empty σ t :
  wakeup_inv σ → threads σ !! t = Some PopBlocked →
  (∀ t' c, threads σ !! t' = Some c → taking c = 0%nat) → tasks σ = [].
Proof.
  intros Hinv Ht Hno. pose proof (sleeper_has_takers _ _ Hinv Ht) as Hle.
  unfold takers in Hle. rewrite (tally_zero taking) in Hle by done.
  destruct (tasks σ); [done|simpl in Hle; lia].
Qed.

(** No wake-up is lost.  While a thread sleeps in [cv.wait], every task in
    the queue has a thread of its own that is awake and on its way to it: a
    thread inside [pop] that has not removed its task yet, or a thread inside
    [push] that is about to signal.  So when nobody is on the way, and in
    particular when every thread is outside the queue or asleep, the queue of
    a sleeping thread is empty: no task waits for a thread that sleeps. *)
Theorem no_lost_wakeup n sched tr σ t :
  exec sched [] (init n) = Some (tr, σ) →
  threads σ !! t = Some PopBlocked →
  (length (tasks σ) ≤ takers σ)%nat
  ∧ ((∀ t' c, threads σ !! t' = Some c → taking c = 0%nat) → tasks σ = [])
  ∧ ((∀ t' c, threads σ !! t' = Some c → c = Idle ∨ c = PopBlocked) → tasks σ = []).
Proof.
  intros Hexec Ht.
  pose proof (exec_wakeup_inv _ _ _ _ _ Hexec (wakeup_inv_init n)) as Hinv.
  split_and!; [by eapply sleeper_has_takers | by eapply sleeper_alone_queue_empty |].
  intros Hquiet. eapply sleeper_alone_queue_empty; [done..|]. intros t' c Ht'.
  by destruct (Hquiet _ _ Ht') as [-> | ->].
Qed.

Lemma no_lost_wakeup_witness :
  (length (tasks (Queue [] None [Idle; PopBlocked]))
   ≤ takers (Queue [] None [Idle; PopBlocked]))%nat.
Proof.
  assert (exec [Call_pop 1; Run 1 1; Run 1 1] [] (init 2)
          = Some ([Invoke_pop 1; Acquire 1; Block 1], Queue [] None [Idle; PopBlocked]))
    as Hexec by (vm_compute; reflexivity).
  exact (proj1 (no_lost_wakeup _ _ _ _ 1%nat Hexec eq_refl)).
Defined.

End queue_wakeup.

(** * The pool: order, output, rest and ending *)
Section pool_facts.
Import MessageQueue Driver Wakeup Pool.
Implicit Types (σ : queue) (t w : tid) (c : call) (tr : list plabel).
Implicit Types (ths : list call) (q : list Z) (m : option tid).
Implicit Types (p : program) (Σ : system).

Local Arguments step : simpl never.
Local Arguments call_step : simpl never.

Lemma step_thread a σ l σ' :
  step a σ = Some (l, σ') →
  ∃ c c', threads σ !! thread_of a = Some c
          ∧ threads σ' !! thread_of a = Some c'
          ∧ call_step a c l c'
          ∧ length (threads σ') = length (threads σ).
Proof.
  destruct σ as [q m ths]. unfold step, run_stmt. simpl. intros Hstep.
  repeat case_match; simplify_eq/=; eexists _, _;
    (split; [done|]); rewrite ?length_insert, ?length_unblock;
    (split; [apply list_lookup_insert_eq; rewrite ?length_unblock;
             by eapply lookup_lt_Some|]);
    unfold call_step; simpl; eauto.
Qed.

Local Ltac break_call :=
  repeat match goal with
         | H : _ ∧ _ |- _ => destruct H
         | H : _ ∨ _ |- _ => destruct H
         | H : ∃ _, _ |- _ => destruct H
         end;
  simplify_eq.

Lemma call_step_main a c l c' (rest : list Z) :
  call_step a c l c' → in_push c = true →
  main_call (match l with Return_push _ => Seeding rest | _ => In_push rest end) c'.
Proof.
  destruct a, c; unfold call_step; simpl; try done; intros; break_call; done.
Qed.

Lemma call_step_worker a c l c' :
  call_step a c l c' → in_pop c = true →
  worker_call (match l with Return_pop _ v => Processing v | _ => In_pop end) c'.
Proof.
  destruct a, c; unfold call_step; simpl; try done; intros; break_call; done.
Qed.

Lemma shape_inv_start p : shape_inv p (start p).
Proof.
  split; simpl.
  - apply length_replicate.
  - by rewrite length_replicate.
  - by exists Idle.
  - intros i u [-> Hi]%lookup_replicate. exists Idle. split; [|done].
    apply lookup_replicate. split; [done|lia].
  - split; [lia|]. intros i u [-> _]%lookup_replicate. simpl. split; [done|lia].
Qed.

(** A step of another thread leaves a worker where it is in its call. *)
Lemma step_other_worker a σ l σ' t (u : worker_pc) c :
  step a σ = Some (l, σ') → thread_of a ≠ t →
  threads σ !! t = Some c → worker_call u c →
  ∃ c', threads σ' !! t = Some c' ∧ worker_call u c'.
Proof.
  intros Hstep Hne Ht Hu.
  destruct (step_other _ _ _ _ _ _ Hstep Hne Ht) as [?|[-> ?]]; [by eauto|].
  exists PopRelock. split; [done|]. by destruct u.
Qed.

Lemma step_other_main a σ l σ' (mpc : main_pc) c :
  step a σ = Some (l, σ') → thread_of a ≠ 0%nat →
  threads σ !! 0%nat = Some c → main_call mpc c →
  threads σ' !! 0%nat = Some c.
Proof.
  intros Hstep Hne Ht Hm.
  destruct (step_other _ _ _ _ _ _ Hstep Hne Ht) as [?|[-> ?]]; [done|].
  by destruct mpc.
Qed.

Lemma main_step_shape p hint Σ l Σ' :
  main_step p hint Σ = Some (l, Σ') → shape_inv p Σ → shape_inv p Σ'.
Proof.
  destruct Σ as [σ mpc ws st]. unfold main_step. simpl.
  intros Hstep [Hws Hths (c & Hmain & Hc) Hwork Hspawn]. simpl in *.
  destruct mpc as [i|[|v rest]|rest|k|].
  - case_decide; simplify_eq.
    + (* a worker is started *)
      destruct Hspawn as [Hle Hspawn].
      split; simpl; rewrite ?length_insert; eauto.
      * intros j u. rewrite list_lookup_insert_Some.
        intros [(<- & <- & Hlt)|[Hne Hj]]; [|by eauto].
        destruct (lookup_lt_is_Some_2 ws i Hlt) as [u0 Hu0].
        destruct (Hwork _ _ Hu0) as (c0 & Hc0 & Hcall). exists c0. split; [done|].
        destruct u0; try done. pose proof (proj1 (Hspawn _ _ Hu0) eq_refl). lia.
      * split; [lia|]. intros j u. rewrite list_lookup_insert_Some.
        intros [(<- & <- & Hlt)|[Hne Hj]]; [simpl; split; [lia|done]|].
        rewrite (Hspawn _ _ Hj). lia.
    + (* all the workers are started *)
      destruct Hspawn as [Hle Hspawn].
      split; simpl; eauto. intros j u Hj. apply (Hspawn _ _ Hj).
      apply lookup_lt_Some in Hj. lia.
  - simplify_eq. split; simpl; eauto.
  - (* main calls push *)
    destruct (step _ _) as [[ql σ1]|] eqn:Hq; simplify_eq.
    destruct (step_thread _ _ _ _ Hq) as (c0 & c' & Hc0 & Hc' & Hcall & Hlen).
    unfold tid in *.
    pose proof (eq_trans (eq_sym Hc0) Hmain) as Hsame. simplify_eq/=.
    destruct Hcall as [-> ->].
    split; simpl; [done | congruence | by eauto | | done].
    intros j u Hj. destruct (Hwork _ _ Hj) as (cj & Hcj & Hu).
    by eapply step_other_worker.
  - (* main runs a statement of push *)
    destruct (step _ _) as [[ql σ1]|] eqn:Hq; simplify_eq.
    destruct (step_thread _ _ _ _ Hq) as (c0 & c' & Hc0 & Hc' & Hcall & Hlen).
    unfold tid in *.
    pose proof (eq_trans (eq_sym Hc0) Hmain) as Hsame. simplify_eq/=.
    split; simpl; [done | congruence | | | ].
    + exists c'. split; [done|]. by eapply (call_step_main (Run 0%nat hint)).
    + intros j u Hj. destruct (Hwork _ _ Hj) as (cj & Hcj & Hu).
      by eapply step_other_worker.
    + by destruct ql.
  - repeat case_match; simplify_eq; split; simpl; eauto.
  - done.
Qed.

Lemma worker_step_shape p i hint Σ l Σ' :
  worker_step p i hint Σ = Some (l, Σ') → shape_inv p Σ → shape_inv p Σ'.
Proof.
  destruct Σ as [σ mpc ws st]. unfold worker_step. simpl.
  intros Hstep [Hws Hths (c & Hmain & Hc) Hwork Hspawn]. simpl in *.
  destruct (ws !! i) as [u|] eqn:Hi; [|done].
  assert (∀ u', started u' = true → started u = true →
    match mpc with
    | Spawning k =>
        (k ≤ nworkers p)%nat
        ∧ ∀ j u0, <[i := u']> ws !! j = Some u0 → started u0 = true ↔ (j < k)%nat
    | _ => ∀ j u0, <[i := u']> ws !! j = Some u0 → started u0 = true
    end) as Hspawn'.
  { intros u' Hu' Hu. destruct mpc; try (intros j u0; rewrite list_lookup_insert_Some;
      intros [(<- & <- & Hlt)|[Hne Hj]]; by eauto).
    destruct Hspawn as [Hle Hspawn]. split; [done|].
    intros j u0. rewrite list_lookup_insert_Some.
    intros [(<- & <- & Hlt)|[Hne Hj]]; [|by eauto].
    rewrite Hu'. by rewrite <- (Hspawn _ _ Hi). }
  destruct (Hwork _ _ Hi) as (ci & Hci & Hui).
  destruct u as [| | |v|]; try done.
  - (* the worker calls pop *)
    destruct (step _ _) as [[ql σ1]|] eqn:Hq; simplify_eq.
    destruct (step_thread _ _ _ _ Hq) as (c0 & c' & Hc0 & Hc' & Hcall & Hlen).
    unfold tid in *.
    pose proof (eq_trans (eq_sym Hc0) Hci) as Hsame. simplify_eq/=.
    destruct Hcall as [-> ->].
    split; simpl; rewrite ?length_insert; [done | congruence | | | by apply Hspawn'].
    + exists c. split; [|done]. by eapply step_other_main.
    + intros j u. rewrite list_lookup_insert_Some.
      intros [(<- & <- & Hlt)|[Hne Hj]]; [eexists; split; [exact Hc'|done]|].
      destruct (Hwork _ _ Hj) as (cj & Hcj & Hu).
      eapply step_other_worker; [done| |done|done]. simpl. congruence.
  - (* the worker runs a statement of pop *)
    destruct (step _ _) as [[ql σ1]|] eqn:Hq; simplify_eq.
    destruct (step_thread _ _ _ _ Hq) as (c0 & c' & Hc0 & Hc' & Hcall & Hlen).
    unfold tid in *.
    pose proof (eq_trans (eq_sym Hc0) Hci) as Hsame. simplify_eq/=.
    split; simpl; rewrite ?length_insert; [done | congruence | | | ].
    + exists c. split; [|done]. by eapply step_other_main.
    + intros j u. rewrite list_lookup_insert_Some.
      intros [(<- & <- & Hlt)|[Hne Hj]].
      * exists c'. split; [done|]. by eapply (call_step_worker (Run (S i) hint)).
      * destruct (Hwork _ _ Hj) as (cj & Hcj & Hu).
        eapply step_other_worker; [done| |done|done]. simpl. congruence.
    + apply Hspawn'; [by destruct ql|done].
  - (* the worker runs the handler *)
    simplify_eq.
    split; simpl; rewrite ?length_insert; [done | done | by eauto | | by apply Hspawn'].
    intros j u. rewrite list_lookup_insert_Some.
    intros [(<- & <- & Hlt)|[Hne Hj]]; [by eauto|by eauto].
Qed.

Lemma pstep_shape p turn Σ l Σ' :
  pstep p turn Σ = Some (l, Σ') → shape_inv p Σ → shape_inv p Σ'.
Proof.
  unfold pstep. destruct (process Σ); [|done..]. destruct turn as [[|i] hint]; simpl.
  - apply main_step_shape.
  - apply worker_step_shape.
Qed.

Lemma pexec_shape p sched tr Σ tr' Σ' :
  pexec p sched tr Σ = Some (tr', Σ') → shape_inv p Σ → shape_inv p Σ'.
Proof.
  revert tr Σ. induction sched as [|turn sched IH]; intros tr Σ Hexec Hinv.
  - by simplify_eq/=.
  - simpl in Hexec. destruct (pstep p turn Σ) as [[l Σ1]|] eqn:Hstep; [|done].
    eapply IH; [done|]. by eapply pstep_shape.
Qed.

(** *** The order of the tasks *)

Lemma handled_by_snoc t tr l :
  handled_by t (tr ++ [l]) =
  handled_by t tr
  ++ match l with
     | Handled t' v _ => if decide (t' = t) then [v] else []
     | _ => []
     end.
Proof.
  unfold handled_by. rewrite omap_app. destruct l; try done.
  simpl. by case_decide.
Qed.

Lemma held_insert (ws : list worker_pc) i j (u : worker_pc) :
  held (<[i := u]> ws !! j) =
  if decide (i = j ∧ (i < length ws)%nat) then held (Some u) else held (ws !! j).
Proof.
  case_decide as Hij.
  - destruct Hij as [<- Hlt]. by rewrite list_lookup_insert_eq.
  - destruct (decide (i = j)) as [<-|Hne].
    + rewrite list_insert_ge; [done|lia].
    + by rewrite list_lookup_insert_ne.
Qed.

Lemma order_inv_start p : order_inv p [] (start p).
Proof.
  split; simpl.
  - by intros c [= <-].
  - intros i. destruct (replicate (nworkers p) Not_started !! i) as [u|] eqn:Hi; [|done].
    by apply lookup_replicate in Hi as [-> _].
  - constructor.
Qed.

(** The labels of the steps inside [push] and inside [pop]. *)
Lemma call_step_push_label a c l c' :
  call_step a c l c' → in_push c = true →
  pushes_called [l] = [] ∧ pops_returned [l] = []
  ∧ enqueued [l] ++ push_pending c' = push_pending c
  ∧ ∀ t, pops_returned_to t [l] = [].
Proof. destruct a, c; unfold call_step; simpl; try done; intros; break_call; done. Qed.

Lemma call_step_pop_label a c l c' :
  call_step a c l c' → in_pop c = true →
  pushes_called [l] = [] ∧ enqueued [l] = []
  ∧ ∀ t, pops_returned_to t [l]
         = match l with
           | Return_pop t' v => if decide (t' = t) then [v] else []
           | _ => []
           end.
Proof.
  destruct a, c; unfold call_step; simpl; try done; intros; break_call; try done.
  split_and!; [done..|]. intros t'. unfold pops_returned_to. simpl. by case_decide.
Qed.

Lemma pushes_called_app (tr1 tr2 : list label) :
  pushes_called (tr1 ++ tr2) = pushes_called tr1 ++ pushes_called tr2.
Proof. apply omap_app. Qed.

Lemma enqueued_app (tr1 tr2 : list label) :
  enqueued (tr1 ++ tr2) = enqueued tr1 ++ enqueued tr2.
Proof. apply omap_app. Qed.

Lemma pops_returned_to_app t (tr1 tr2 : list label) :
  pops_returned_to t (tr1 ++ tr2) = pops_returned_to t tr1 ++ pops_returned_to t tr2.
Proof. apply omap_app. Qed.

Lemma order_inv_silent p tr Σ l Σ' :
  order_inv p tr Σ →
  taskQueue Σ' = taskQueue Σ →
  (∀ i, held (workers Σ' !! i) = held (workers Σ !! i)) →
  match l with In_queue _ | Handled _ _ _ => False | _ => True end →
  order_inv p (tr ++ [l]) Σ'.
Proof.
  intros [Hpush Hsplit Hruns] Hq Hheld Hl. split.
  - rewrite Hq, queue_trace_snoc. destruct l; try done; by rewrite app_nil_r.
  - intros i. rewrite Hheld, queue_trace_snoc, handled_by_snoc.
    destruct l; try done; by rewrite !app_nil_r.
  - apply Forall_app. split; [done|]. apply Forall_singleton. by destruct l.
Qed.

Lemma main_step_order p hint Σ l Σ' tr :
  main_step p hint Σ = Some (l, Σ') → shape_inv p Σ → order_inv p tr Σ →
  order_inv p (tr ++ [l]) Σ'.
Proof.
  destruct Σ as [σ mpc ws st]. unfold main_step. simpl.
  intros Hstep [Hws Hths (c & Hmain & Hc) Hwork Hspawn] Hinv. simpl in *.
  destruct mpc as [i|[|v rest]|rest|k|].
  - case_decide; simplify_eq; (eapply order_inv_silent; [done|done| |done]); [|done].
    simpl. intros j. rewrite held_insert. case_decide as Hij; [|done].
    destruct Hij as [<- Hlt]. destruct (lookup_lt_is_Some_2 ws i Hlt) as [u Hu].
    rewrite Hu. destruct Hspawn as [_ Hspawn]. destruct u; try done.
    pose proof (proj1 (Hspawn _ _ Hu) eq_refl). lia.
  - simplify_eq. by eapply order_inv_silent.
  - (* main calls push *)
    destruct (step _ _) as [[ql σ1]|] eqn:Hq; simplify_eq.
    destruct (step_thread _ _ _ _ Hq) as (c0 & c' & Hc0 & Hc' & Hcall & Hlen).
    unfold tid in *.
    pose proof (eq_trans (eq_sym Hc0) Hmain) as Hsame. simplify_eq/=.
    destruct Hcall as [-> ->]. destruct Hinv as [Hpush Hsplit Hruns].
    simpl in *. split; simpl.
    + intros c Hc. rewrite Hc' in Hc. simplify_eq. simpl.
      rewrite queue_trace_snoc, pushes_called_snoc, enqueued_snoc, app_nil_r.
      rewrite (Hpush _ Hmain). simpl. by rewrite app_nil_r.
    + intros i. rewrite queue_trace_snoc, pops_returned_to_snoc, handled_by_snoc.
      by rewrite !app_nil_r.
    + apply Forall_app. split; [done|]. by apply Forall_singleton.
  - (* main runs a statement of push *)
    destruct (step _ _) as [[ql σ1]|] eqn:Hq; simplify_eq.
    destruct (step_thread _ _ _ _ Hq) as (c0 & c' & Hc0 & Hc' & Hcall & Hlen).
    unfold tid in *.
    pose proof (eq_trans (eq_sym Hc0) Hmain) as Hsame. simplify_eq.
    destruct Hinv as [Hpush Hsplit Hruns]. simpl in *.
    destruct (call_step_push_label _ _ _ _ Hcall Hc) as (Hcalled & _ & Henq & Hret).
    split; simpl.
    + intros c1 Hc1. rewrite Hc' in Hc1. simplify_eq.
      rewrite queue_trace_snoc, pushes_called_app, enqueued_app.
      rewrite Hcalled, app_nil_r, (Hpush _ Hmain), <- Henq.
      by rewrite (assoc_L (++)).
    + intros i. rewrite queue_trace_snoc, handled_by_snoc, pops_returned_to_app.
      rewrite Hret, !app_nil_r. apply Hsplit.
    + apply Forall_app. split; [done|]. by apply Forall_singleton.
  - destruct Hinv as [Hpush Hsplit Hruns].
    repeat case_match; simplify_eq; by eapply order_inv_silent.
  - done.
Qed.

Lemma worker_step_order p i hint Σ l Σ' tr :
  worker_step p i hint Σ = Some (l, Σ') → shape_inv p Σ → order_inv p tr Σ →
  order_inv p (tr ++ [l]) Σ'.
Proof.
  destruct Σ as [σ mpc ws st]. unfold worker_step. simpl.
  intros Hstep [Hws Hths (c & Hmain & Hc) Hwork Hspawn] [Hpush Hsplit Hruns].
  simpl in *.
  destruct (ws !! i) as [u|] eqn:Hi; [|done].
  assert (i < length ws)%nat as Hlt by (by eapply lookup_lt_Some).
  destruct (Hwork _ _ Hi) as (ci & Hci & Hui).
  destruct u as [| | |v|]; try done.
  - (* the worker calls pop *)
    destruct (step _ _) as [[ql σ1]|] eqn:Hq; simplify_eq.
    destruct (step_thread _ _ _ _ Hq) as (c0 & c' & Hc0 & Hc' & Hcall & Hlen).
    unfold tid in *.
    pose proof (eq_trans (eq_sym Hc0) Hci) as Hsame. simplify_eq/=.
    destruct Hcall as [-> ->].
    pose proof (step_other_main _ _ _ _ _ _ Hq ltac:(done) Hmain Hc) as Hmain'.
    split; simpl.
    + intros c1 Hc1. rewrite Hmain' in Hc1. simplify_eq.
      rewrite queue_trace_snoc, pushes_called_snoc, enqueued_snoc, !app_nil_r. eauto.
    + intros j. rewrite queue_trace_snoc, pops_returned_to_snoc, handled_by_snoc.
      rewrite !app_nil_r, held_insert, Hsplit.
      destruct (decide (i = j)) as [<-|Hne];
        [rewrite decide_True by lia; by rewrite Hi | by rewrite decide_False by lia].
    + apply Forall_app. split; [done|]. by apply Forall_singleton.
  - (* the worker runs a statement of pop *)
    destruct (step _ _) as [[ql σ1]|] eqn:Hq; simplify_eq.
    destruct (step_thread _ _ _ _ Hq) as (c0 & c' & Hc0 & Hc' & Hcall & Hlen).
    unfold tid in *.
    pose proof (eq_trans (eq_sym Hc0) Hci) as Hsame. simplify_eq/=.
    pose proof (step_other_main _ _ _ _ _ _ Hq ltac:(done) Hmain Hc) as Hmain'.
    destruct (call_step_pop_label _ _ _ _ Hcall Hui) as (Hcalled & Henq & Hret).
    split; simpl.
    + intros c1 Hc1. rewrite Hmain' in Hc1. simplify_eq.
      rewrite queue_trace_snoc, pushes_called_app, enqueued_app.
      rewrite Hcalled, Henq, !app_nil_r. eauto.
    + intros j. rewrite queue_trace_snoc, handled_by_snoc, pops_returned_to_app.
      rewrite Hret, !app_nil_r, held_insert, Hsplit.
      pose proof (step_label _ _ _ _ Hq) as Hl. simpl in Hl.
      destruct (decide (i = j)) as [<-|Hne].
      * rewrite decide_True by lia. rewrite Hi. simpl. rewrite app_nil_r.
        destruct ql; try by rewrite app_nil_r.
        destruct Hl as [-> _]. by rewrite decide_True.
      * rewrite (decide_False (P := i = j ∧ _)) by lia.
        destruct ql; try by rewrite app_nil_r.
        destruct Hl as [-> _]. rewrite decide_False by lia. by rewrite app_nil_r.
    + apply Forall_app. split; [done|]. by apply Forall_singleton.
  - (* the worker runs the handler *)
    simplify_eq. split; simpl; [| |apply Forall_app; split; [done|];
      apply Forall_singleton; simpl; split; [lia|done]].
    + intros c1 Hc1. rewrite queue_trace_snoc, !app_nil_r. eauto.
    + intros j. rewrite queue_trace_snoc, handled_by_snoc, app_nil_r.
      rewrite held_insert, Hsplit.
      destruct (decide (i = j)) as [<-|Hne].
      * rewrite !decide_True by lia. rewrite Hi. simpl. by rewrite app_nil_r.
      * rewrite !decide_False by lia. by rewrite app_nil_r.
Qed.

Lemma pstep_order p turn Σ l Σ' tr :
  pstep p turn Σ = Some (l, Σ') → shape_inv p Σ → order_inv p tr Σ →
  order_inv p (tr ++ [l]) Σ'.
Proof.
  unfold pstep. destruct (process Σ); [|done..]. destruct turn as [[|i] hint]; simpl.
  - apply main_step_order.
  - apply worker_step_order.
Qed.

Lemma pexec_order p sched tr Σ tr' Σ' :
  pexec p sched tr Σ = Some (tr', Σ') → shape_inv p Σ → order_inv p tr Σ →
  shape_inv p Σ' ∧ order_inv p tr' Σ'.
Proof.
  revert tr Σ. induction sched as [|turn sched IH]; intros tr Σ Hexec Hshape Hinv.
  - by simplify_eq/=.
  - simpl in Hexec. destruct (pstep p turn Σ) as [[l Σ1]|] eqn:Hstep; [|done].
    eapply IH; [done| |]; [by eapply pstep_shape | by eapply pstep_order].
Qed.

Lemma reachable_pool p sched tr Σ :
  pexec p sched [] (start p) = Some (tr, Σ) → shape_inv p Σ ∧ order_inv p tr Σ.
Proof.
  intros Hexec. eapply pexec_order; [done | apply shape_inv_start | apply order_inv_start].
Qed.

Lemma dequeued_by_sublist t (qtr : list label) : dequeued_by t qtr `sublist_of` dequeued qtr.
Proof.
  induction qtr as [|l qtr IH]; [done|]. unfold dequeued_by, dequeued in *.
  destruct l; simpl; try done. case_decide; by constructor.
Qed.

Lemma handled_by_main p tr : Forall (runs_handler p) tr → handled_by 0 tr = [].
Proof.
  unfold handled_by. induction 1 as [|l tr Hl _ IH]; [done|].
  destruct l; simpl; try done. simpl in Hl. by rewrite decide_False by lia.
Qed.

Lemma handled_by_only_worker p tr :
  nworkers p = 1%nat → Forall (runs_handler p) tr → handled_by 1 tr = handled tr.
Proof.
  unfold handled_by, handled. intros Hone. induction 1 as [|l tr Hl _ IH]; [done|].
  destruct l; simpl; try done. simpl in Hl.
  rewrite decide_True by lia. simpl. by f_equal.
Qed.

Lemma sublist_same_length (l1 l2 : list Z) :
  l1 `sublist_of` l2 → (length l2 ≤ length l1)%nat → l1 = l2.
Proof.
  induction 1 as [|x l1 l2 _ IH|x l1 l2 Hsub _]; simpl; intros Hlen.
  - done.
  - f_equal. apply IH. lia.
  - apply sublist_length in Hsub. lia.
Qed.

(** The tasks leave the queue in the order of the seed, whatever the
    workers do: at any time the seed is the tasks removed from the queue so
    far, then the tasks in the queue, then the task [main] is pushing, then
    the tasks [main] has not pushed yet.  So each worker handles the tasks it
    gets in the order of the seed, and a pool of one worker handles the
    tasks in that order: once the queue is drained it has handled exactly the
    seed. *)
Theorem tasks_leave_in_seed_order p sched tr Σ :
  pexec p sched [] (start p) = Some (tr, Σ) →
  (∃ c, threads (taskQueue Σ) !! 0%nat = Some c
        ∧ seed p = dequeued (queue_trace tr) ++ tasks (taskQueue Σ)
                   ++ push_pending c ++ unpushed p (main_at Σ))
  ∧ dequeued (queue_trace tr) `prefix_of` seed p
  ∧ (∀ t, handled_by t tr `sublist_of` seed p)
  ∧ (nworkers p = 1%nat →
     handled tr `sublist_of` seed p ∧ (drained p Σ → handled tr = seed p)).
Proof.
  intros Hexec.
  destruct (reachable_pool _ _ _ _ Hexec) as [Hshape [Hpush Hsplit Hruns]].
  pose proof (pexec_driver_inv _ _ _ _ _ _ Hexec (driver_inv_start p))
    as [_ Hseed _ _].
  destruct (pexec_queue _ _ _ _ _ _ Hexec) as [qsched Hq]. simpl in Hq.
  pose proof (exec_returns_inv _ _ _ _ _ Hq (returns_inv_init _)) as Hret.
  apply reachable_consistent in Hq as [_ _ [Hfifo _ _ _ _]].
  destruct (main_call_at _ _ Hshape) as (c & Hmain & _).
  assert (seed p = dequeued (queue_trace tr) ++ tasks (taskQueue Σ)
                   ++ push_pending c ++ unpushed p (main_at Σ)) as Hsplit'.
  { rewrite Hseed, (Hpush _ Hmain), Hfifo. by rewrite <- !(assoc_L (++)). }
  assert (∀ t, handled_by t tr `sublist_of` seed p) as Hsub.
  { intros t. trans (dequeued (queue_trace tr)).
    - trans (dequeued_by t (queue_trace tr)); [|apply dequeued_by_sublist].
      rewrite (Hret t). destruct t as [|i].
      + rewrite (handled_by_main p tr) by done. apply sublist_nil_l.
      + rewrite Hsplit, <- (assoc_L (++)). apply sublist_inserts_r. done.
    - rewrite Hsplit'. by apply sublist_inserts_r. }
  split_and!; [by eauto | by eexists | done |].
  intros Hone.
  assert (handled tr `sublist_of` seed p) as Hone'.
  { rewrite <- (handled_by_only_worker p tr) by done. apply Hsub. }
  split; [done|]. intros Hdrained.
  pose proof (tasks_conserved _ _ _ _ Hexec) as Hcons.
  unfold drained in Hdrained. rewrite Hdrained, (right_id_L ∅ (⊎)) in Hcons.
  apply sublist_same_length; [done|].
  assert (handled tr ≡ₚ seed p) as Hperm.
  { by rewrite <- (elements_list_to_set_disj (handled tr)), <- Hcons,
      elements_list_to_set_disj. }
  by rewrite Hperm.
Qed.

Lemma tasks_leave_in_seed_order_witness :
  ∃ tr Σ,
    pexec CodeSample.main drain_schedule [] (start CodeSample.main) = Some (tr, Σ)
    ∧ dequeued (queue_trace tr) `prefix_of` seqZ 1 5
    ∧ ∀ t, handled_by t tr `sublist_of` seqZ 1 5.
Proof.
  pose proof drain_schedule_run as Hrun.
  destruct (pexec CodeSample.main drain_schedule [] (start CodeSample.main))
    as [[tr Σ]|] eqn:Hexec; [clear Hrun|done].
  destruct (tasks_leave_in_seed_order CodeSample.main drain_schedule tr Σ Hexec)
    as (_ & H1 & H2 & _).
  exists tr, Σ. split; [reflexivity|]. split; [exact H1 | exact H2].
Defined.

(** *** How the process ends *)

Lemma not_last_threw_snoc tr l :
  match l with
  | Handled _ _ run => ∃ a, result run = Normal a
  | _ => True
  end →
  ¬ last_threw (tr ++ [l]).
Proof.
  intros Hl (tr0 & t & v & run & ex & [_ ->]%app_inj_tail & Hthrown).
  destruct Hl as [a Ha]. congruence.
Qed.

Lemma status_inv_start p : status_inv p [] (start p).
Proof.
  split_and!; simpl; [|by intros i [? _]%lookup_replicate|done].
  split; [done|]. intros (tr0 & t & v & run & ex & Htr & _). by destruct tr0.
Qed.

Lemma pstep_status p turn Σ l Σ' tr :
  pstep p turn Σ = Some (l, Σ') → status_inv p tr Σ → status_inv p (tr ++ [l]) Σ'.
Proof.
  intros Hstep (Hstatus & Hnone & Hjoin).
  split_and!; [| by eapply pstep_no_finish |].
  - revert Hstep Hstatus. unfold pstep, main_step, worker_step.
    destruct Σ as [σ mpc ws st]. simpl. intros Hstep Hstatus.
    repeat case_match; simplify_eq; simpl in *; destruct_and?;
      try (split_and?; try done; by apply not_last_threw_snoc).
    all: simplify_eq.
    all: try (split_and!; [done..|]; apply not_last_threw_snoc; by eauto).
    all: split; [done|].
    all: unfold last_threw; eexists _, _, _, _, _; split; [reflexivity|done].
  - intros Hj. specialize (Hjoin Hj). revert Hstep Hjoin.
    unfold pstep, main_step, worker_step.
    destruct Σ as [σ mpc ws st]. simpl. intros Hstep Hjoin.
    repeat case_match; simplify_eq; simpl in *; try done; try lia.
    all: try match goal with H : _ = Some Finished |- _ => by destruct (Hnone _ H) end.
    all: simplify_eq; done.
Qed.

Lemma pexec_status p sched tr Σ tr' Σ' :
  pexec p sched tr Σ = Some (tr', Σ') → status_inv p tr Σ → status_inv p tr' Σ'.
Proof.
  revert tr Σ. induction sched as [|turn sched IH]; intros tr Σ Hexec Hinv.
  - by simplify_eq/=.
  - simpl in Hexec. destruct (pstep p turn Σ) as [[l Σ1]|] eqn:Hstep; [|done].
    eapply IH; [done|]. by eapply pstep_status.
Qed.

Lemma pexec_threw p sched : ∀ tr Σ tr' Σ',
  pexec p sched tr Σ = Some (tr', Σ') →
  (process Σ = Terminated ↔ Exists threw tr) →
  (process Σ' = Terminated ↔ Exists threw tr').
Proof.
  induction sched as [|turn sched IH]; intros tr Σ tr' Σ' Hexec Hinv.
  - by simplify_eq/=.
  - simpl in Hexec.
    destruct (pstep p turn Σ) as [[l Σ1]|] eqn:Hstep; [|done].
    eapply IH; [exact Hexec|]. clear IH Hexec.
    rewrite list.Exists_app, List.Exists_cons, List.Exists_nil.
    revert Hstep Hinv. unfold pstep, main_step, worker_step.
    destruct Σ as [σ mpc ws st]. simpl. intros Hstep Hinv.
    destruct st; [|done..].
    assert (¬ Exists threw tr) as Hnone by (intros ?%Hinv; done).
    repeat case_match; simplify_eq; simpl; try (split; [done|tauto]).
    + split; [done|]. intros [?|[[ex Hex]|[]]]; [done|]. congruence.
    + split; [|done]. intros _. right. left. by eexists.
Qed.

Lemma threw_start p : process (start p) = Terminated ↔ Exists threw [].
Proof. simpl. rewrite List.Exists_nil. done. Qed.

(** The loop of a worker has no handler around [processTask].  As long as
    [main] has not returned, the process is terminated exactly when some
    call of the handler, by a worker, threw, and it is running otherwise.
    [main] returns only if the workers are detached or there is none, and
    the thread function of a worker never returns. *)
Theorem process_ends p sched tr Σ :
  pexec p sched [] (start p) = Some (tr, Σ) →
  (main_at Σ ≠ Returned →
   (process Σ = Terminated ↔
      ∃ tr0 tr1 i taskId ex,
        tr = tr0 ++ Handled (S i) taskId (@processTask (handler p) taskId) :: tr1
        ∧ result (@processTask (handler p) taskId) = Thrown ex)
   ∧ (process Σ = Running ∨ process Σ = Terminated))
  ∧ (main_at Σ = Returned → at_shutdown p = Detach ∨ nworkers p = 0%nat)
  ∧ (∀ i, workers Σ !! i ≠ Some Finished).
Proof.
  intros Hexec.
  destruct (reachable_pool _ _ _ _ Hexec) as [_ [_ _ Hruns]].
  destruct (pexec_status _ _ _ _ _ _ Hexec (status_inv_start p))
    as (Hstatus & Hnone & Hjoin).
  pose proof (pexec_threw _ _ _ _ _ _ Hexec (threw_start p)) as Hthrew.
  split_and!; [| |done].
  - intros Hmain. split.
    + rewrite Hthrew, list.Exists_exists. split.
      * intros (l & Hl & Hthrown).
        apply list_elem_of_split in Hl as (tr0 & tr1 & ->).
        apply Forall_app in Hruns as [_ Hrun]. apply Forall_inv in Hrun.
        destruct l as [| | |t v run| | |]; try done.
        destruct Hrun as [Ht ->], Hthrown as [ex Hex].
        destruct t as [|i]; [lia|]. by exists tr0, tr1, i, v, ex.
      * intros (tr0 & tr1 & i & v & ex & -> & Hthrown).
        eexists. split; [apply elem_of_app; right; left|]. by exists ex.
    + destruct (process Σ); [by left| |by right].
      by destruct Hstatus as (_ & ? & _).
  - intros Hret. rewrite Hret in Hjoin. destruct (at_shutdown p); [|by left].
    right. by apply Hjoin.
Qed.

Lemma unguarded_run :
  (λ r, (main_at r.2, process r.2))
    <$> pexec unguarded_program unguarded_schedule [] (start unguarded_program)
  = Some (Seeding [], Terminated).
Proof. by vm_compute. Qed.

Lemma process_ends_witness :
  ∃ tr Σ,
    pexec unguarded_program unguarded_schedule [] (start unguarded_program)
    = Some (tr, Σ)
    ∧ process Σ = Terminated
    ∧ ∃ tr0 tr1 i taskId ex,
        tr = tr0 ++ Handled (S i) taskId (@processTask unguarded taskId) :: tr1
        ∧ result (@processTask unguarded taskId) = Thrown ex.
Proof.
  pose proof unguarded_run as Hrun.
  destruct (pexec unguarded_program unguarded_schedule [] (start unguarded_program))
    as [[tr Σ]|] eqn:Hexec; [|discriminate].
  injection Hrun as Hmain Hterm.
  destruct (process_ends unguarded_program unguarded_schedule tr Σ Hexec) as (H1 & _).
  assert (main_at Σ ≠ Returned) as Hnot by (rewrite Hmain; discriminate).
  exists tr, Σ. split; [reflexivity|]. split; [exact Hterm|].
  exact (proj1 (proj1 (H1 Hnot)) Hterm).
Defined.

(** *** Errors absorbed by the handler *)

Lemma process1_rejects (id : Z) :
  ¬ (1 ≤ id ≤ 5) →
  fetch1 id = throw (invalid_argument ("Invalid ID: " +:+ to_string id))
  ∧ process1 id = (error_record id, Normal tt).
Proof.
  intros Hout. destruct (fetch_cases id) as [[Hin _]|[_ Hf]]; [done|].
  split; [done|]. by rewrite (process1_failed _ _ Hf).
Qed.

Lemma process2_rejects (id : Z) :
  ¬ (1 ≤ id ≤ 5) →
  fetch2 id = throw (invalid_argument ("Invalid ID: " +:+ to_string id))
  ∧ process2 id = (error_record id, Normal tt).
Proof.
  intros Hout. destruct (fetch_cases id) as [[Hin _]|[_ Hf]]; [done|].
  rewrite fetch_same in Hf. split; [done|]. by rewrite (process2_failed _ _ Hf).
Qed.

(** After a step that is a call of the handler, the worker that made it
    stands at the top of its loop. *)
Lemma pstep_back_in_loop p turn Σ l Σ' t taskId run :
  pstep p turn Σ = Some (l, Σ') → l = Handled t taskId run →
  ∃ i, t = S i ∧ workers Σ' !! i = Some Loop_top.
Proof.
  unfold pstep, main_step, worker_step. destruct Σ as [σ mpc ws st]. simpl.
  intros Hstep ->. destruct st; [|done..].
  destruct turn as [[|i] hint]; simpl in *.
  - repeat case_match; simplify_eq.
  - destruct (ws !! i) as [[| | |v|]|] eqn:Hi; try done.
    + by destruct (step _ _) as [[ql σ1]|]; simplify_eq.
    + by destruct (step _ _) as [[ql σ1]|]; simplify_eq.
    + simplify_eq. exists i. simpl. split; [done|].
      apply list_lookup_insert_eq. by eapply lookup_lt_Some.
Qed.

Lemma pexec_last_step p sched : ∀ tr Σ tr' Σ',
  pexec p sched tr Σ = Some (tr', Σ') →
  (tr' = tr ∧ Σ' = Σ)
  ∨ ∃ tr0 l turn Σ0, tr' = tr0 ++ [l] ∧ pstep p turn Σ0 = Some (l, Σ').
Proof.
  induction sched as [|turn sched IH]; intros tr Σ tr' Σ' Hexec.
  - left. by simplify_eq/=.
  - right. simpl in Hexec.
    destruct (pstep p turn Σ) as [[l1 Σ1]|] eqn:Hstep; [|done].
    destruct (IH _ _ _ _ Hexec) as [[-> ->]|Hlast]; [|done].
    by eexists _, _, _, _.
Qed.

(** C7. In both variants [processTask] returns normally for every id.  When
    the lookup rejects the id it throws [std::invalid_argument], and the
    handler catches it and writes the record of the failure, and nothing
    else, on [std::cerr].  In every run of every program that uses one of
    the two handlers, whatever its seed: every call of the handler by a
    worker has returned normally, having written that record when the
    lookup rejected the task; after the call the worker stands at the top of
    its loop again; and as long as [main] has not returned the process is
    running, so no exception has left the thread function of a worker. *)
Theorem errors_absorbed id p sched tr Σ :
  handler p = CodeSample.taskProcessor ∨ handler p = WithSOLID.taskProcessor →
  pexec p sched [] (start p) = Some (tr, Σ) →
  result (process1 id) = Normal tt
  ∧ result (process2 id) = Normal tt
  ∧ (¬ (1 ≤ id ≤ 5) →
     fetch1 id = throw (invalid_argument ("Invalid ID: " +:+ to_string id))
     ∧ fetch2 id = throw (invalid_argument ("Invalid ID: " +:+ to_string id))
     ∧ events (process1 id) = error_record id
     ∧ events (process2 id) = error_record id)
  ∧ Forall absorbed tr
  ∧ (∀ tr0 t taskId run,
       tr = tr0 ++ [Handled t taskId run] →
       ∃ i, t = S i ∧ workers Σ !! i = Some Loop_top)
  ∧ (main_at Σ ≠ Returned → process Σ = Running).
Proof.
  intros Hp Hexec.
  assert (∀ v, @processTask (handler p) v = process1 v
               ∨ @processTask (handler p) v = process2 v) as Hcall
    by (intros v; destruct Hp as [-> | ->]; [by left | by right]).
  assert (∀ v, absorbed (Handled 0%nat v (@processTask (handler p) v))) as Hv.
  { intros v. simpl. destruct (Hcall v) as [-> | ->].
    - split; [apply process1_returns|].
      intros Hout. by destruct (process1_rejects v Hout) as [_ ->].
    - split; [apply process2_returns|].
      intros Hout. by destruct (process2_rejects v Hout) as [_ ->]. }
  destruct (reachable_pool _ _ _ _ Hexec) as [_ [_ _ Hruns]].
  assert (Forall absorbed tr) as Habs.
  { eapply list.Forall_impl; [exact Hruns|]. intros [] Hl; try done.
    destruct Hl as [_ ->]. apply Hv. }
  split_and!; [apply process1_returns | apply process2_returns | | done | |].
  - intros Hout.
    destruct (process1_rejects id Hout) as [-> ->],
             (process2_rejects id Hout) as [-> ->]. done.
  - intros tr0 t v run ->.
    destruct (pexec_last_step _ _ _ _ _ _ Hexec) as [[Hnil _]|Hlast].
    { by destruct tr0. }
    destruct Hlast as (tr1 & l & turn & Σ0 & [_ <-]%app_inj_tail & Hstep).
    by eapply pstep_back_in_loop.
  - intros Hmain.
    destruct (pexec_status _ _ _ _ _ _ Hexec (status_inv_start p)) as (Hstatus & _).
    destruct (process Σ) eqn:Hst; [done|by destruct Hstatus as (_ & ? & _)|].
    destruct Hstatus as (_ & tr0 & t & v & run & ex & -> & Hthrown).
    apply Forall_app in Habs as [_ Hl]. apply Forall_inv in Hl.
    destruct Hl as [Hl _]. congruence.
Qed.

Lemma rejecting_run :
  (λ r, (r.1, main_at r.2))
    <$> pexec rejecting_program rejecting_schedule [] (start rejecting_program)
  = Some ([Spawned 0; Loop_done; In_queue (Invoke_push 0 0); In_queue (Acquire 0);
           In_queue (Enqueue 0 0); In_queue (Signal 0 None);
           In_queue (Return_push 0); In_queue (Invoke_pop 1); In_queue (Acquire 1);
           In_queue (Ready 1); In_queue (Front 1 0); In_queue (Dequeue 1 0);
           In_queue (Return_pop 1 0)]
          ++ [Handled 1%nat 0 ([Print cerr "Task 0: Error -> Invalid ID: 0"], Normal tt)],
          Seeding [3]).
Proof. by vm_compute. Qed.

Lemma errors_absorbed_witness :
  ∃ tr Σ,
    pexec rejecting_program rejecting_schedule [] (start rejecting_program)
    = Some (tr, Σ)
    ∧ handled tr = [0]
    ∧ output tr = [Print cerr "Task 0: Error -> Invalid ID: 0"]
    ∧ Forall absorbed tr
    ∧ workers Σ !! 0%nat = Some Loop_top
    ∧ process Σ = Running.
Proof.
  pose proof rejecting_run as Hrun.
  destruct (pexec rejecting_program rejecting_schedule [] (start rejecting_program))
    as [[tr Σ]|] eqn:Hexec; [|discriminate].
  injection Hrun as Htr Hmain.
  destruct (errors_absorbed 0 rejecting_program _ tr Σ (or_introl eq_refl) Hexec)
    as (_ & _ & _ & Habs & Hloop & Hrunning).
  exists tr, Σ. split; [reflexivity|].
  split; [rewrite Htr; reflexivity|]. split; [rewrite Htr; reflexivity|].
  split; [exact Habs|].
  destruct (Hloop [Spawned 0; Loop_done; In_queue (Invoke_push 0 0);
                   In_queue (Acquire 0); In_queue (Enqueue 0 0);
                   In_queue (Signal 0 None); In_queue (Return_push 0);
                   In_queue (Invoke_pop 1); In_queue (Acquire 1);
                   In_queue (Ready 1); In_queue (Front 1 0);
                   In_queue (Dequeue 1 0); In_queue (Return_pop 1 0)]
                  _ _ _ Htr) as (i & [= <-] & Hi).
  split; [exact Hi|]. apply Hrunning. rewrite Hmain. discriminate.
Defined.

(** *** What the workers write *)

Lemma output_of_handled p tr :
  Forall (runs_handler p) tr →
  output tr = mjoin ((λ v, events (@processTask (handler p) v)) <$> handled tr).
Proof.
  unfold output, handled. induction 1 as [|l tr Hl _ IH]; [done|].
  destruct l; simpl; try done. destruct Hl as [_ ->]. by f_equal.
Qed.

Lemma process1_lines (id : Z) :
  1 ≤ id ≤ 5 → events (process1 id) = lines_of cerr id.
Proof.
  intros Hin. destruct (fetch_cases id) as [[_ Hf]|[Hout _]]; [|done].
  by rewrite (process1_found _ _ Hf).
Qed.

Lemma notifications_app (e1 e2 : list event) :
  notifications (e1 ++ e2) = notifications e1 ++ notifications e2.
Proof. apply omap_app. Qed.

Lemma notifications_lines (f : Z → list event) (os : ostream) (vs : list Z) :
  (∀ v, v ∈ vs → f v = lines_of os v) →
  mjoin (f <$> vs) = mjoin (lines_of os <$> vs)
  ∧ notifications (mjoin (lines_of os <$> vs)) = payload_of <$> vs.
Proof.
  induction vs as [|v vs IH]; intros Hf; [done|].
  destruct IH as [IH1 IH2]; [intros v' Hv'; apply Hf; by right|].
  split.
  - change (f v ++ mjoin (f <$> vs)
            = lines_of os v ++ mjoin (lines_of os <$> vs)).
    rewrite (Hf v) by left. by rewrite IH1.
  - change (notifications (lines_of os v ++ mjoin (lines_of os <$> vs))
            = payload_of v :: (payload_of <$> vs)).
    rewrite notifications_app, IH2. reflexivity.
Qed.

Lemma process1_serves (id : Z) :
  1 ≤ id ≤ 5 → process1 id = (lines_of cerr id, Normal tt).
Proof.
  intros Hin. destruct (fetch_cases id) as [[_ Hf]|[Hout _]]; [|done].
  by rewrite (process1_found _ _ Hf).
Qed.

Lemma process2_serves (id : Z) :
  1 ≤ id ≤ 5 → process2 id = (lines_of cout id, Normal tt).
Proof.
  intros Hin. destruct (fetch_cases id) as [[_ Hf]|[Hout _]]; [|done].
  rewrite fetch_same in Hf. by rewrite (process2_found _ _ Hf).
Qed.

Lemma served_of_runs p os tr :
  (∀ v, 1 ≤ v ≤ 5 → @processTask (handler p) v = (lines_of os v, Normal tt)) →
  Forall (runs_handler p) tr → (∀ v, v ∈ handled tr → 1 ≤ v ≤ 5) →
  Forall (served os) tr.
Proof.
  intros Hcall Hruns. induction Hruns as [|l tr Hl _ IH]; intros Hrange; [done|].
  constructor.
  - destruct l as [| | |t v run| | |]; try done. destruct Hl as [_ ->].
    assert (1 ≤ v ≤ 5) as Hv by (apply Hrange; left).
    split; [done|]. by apply Hcall.
  - apply IH. intros v Hv. apply Hrange. unfold handled in *.
    destruct l; simpl; try done. by right.
Qed.



(** *** The pool at rest *)

(** The workers are started before the first task is pushed, in the order
    of their numbers, and a worker that is not started has not touched the
    queue. *)
Theorem workers_start_before_seeding p sched tr Σ :
  pexec p sched [] (start p) = Some (tr, Σ) →
  length (workers Σ) = nworkers p
  ∧ (∀ k, main_at Σ = Spawning k →
          pushes_called (queue_trace tr) = []
          ∧ ∀ i u, workers Σ !! i = Some u → u ≠ Not_started ↔ (i < k)%nat)
  ∧ (pushes_called (queue_trace tr) ≠ [] →
     ∀ i, (i < nworkers p)%nat → ∃ u, workers Σ !! i = Some u ∧ u ≠ Not_started)
  ∧ (∀ i, workers Σ !! i = Some Not_started →
          threads (taskQueue Σ) !! S i = Some Idle).
Proof.
  intros Hexec.
  destruct (reachable_pool _ _ _ _ Hexec)
    as [[Hws Hths Hmain Hwork Hspawn] [Hpush Hsplit Hruns]].
  pose proof (pexec_driver_inv _ _ _ _ _ _ Hexec (driver_inv_start p))
    as [_ Hseed _ _].
  assert (∀ u : worker_pc, u ≠ Not_started ↔ started u = true) as Hstarted
    by (by intros []).
  assert (∀ k, main_at Σ = Spawning k → pushes_called (queue_trace tr) = [])
    as Hnone.
  { intros k Hk. rewrite Hk in Hseed. simpl in Hseed.
    apply (f_equal length) in Hseed. rewrite length_app in Hseed.
    apply nil_length_inv. lia. }
  split_and!; [done | | |].
  - intros k Hk. split; [by eapply Hnone|]. rewrite Hk in Hspawn.
    intros i u Hi. rewrite Hstarted. by apply Hspawn.
  - intros Hsome i Hi.
    destruct (lookup_lt_is_Some_2 (workers Σ) i) as [u Hu]; [lia|].
    exists u. split; [done|]. apply Hstarted.
    destruct (main_at Σ) eqn:Hat; try by eapply Hspawn.
    destruct Hsome. by eapply Hnone.
  - intros i Hi. destruct (Hwork _ _ Hi) as (c & Hc & Hu). simpl in Hu. by subst c.
Qed.

Lemma workers_start_before_seeding_witness :
  ∃ tr Σ,
    pexec CodeSample.main drain_schedule [] (start CodeSample.main) = Some (tr, Σ)
    ∧ length (workers Σ) = 3%nat.
Proof.
  pose proof drain_schedule_run as Hrun.
  destruct (pexec CodeSample.main drain_schedule [] (start CodeSample.main))
    as [[tr Σ]|] eqn:Hexec; [clear Hrun|done].
  destruct (workers_start_before_seeding CodeSample.main drain_schedule tr Σ Hexec)
    as (H1 & _).
  exists tr, Σ. split; [reflexivity | exact H1].
Defined.

Lemma sleeping_pool p sched tr Σ :
  pexec p sched [] (start p) = Some (tr, Σ) →
  (0 < nworkers p)%nat →
  (∀ i, (i < nworkers p)%nat → threads (taskQueue Σ) !! S i = Some PopBlocked) →
  (∀ rest, main_at Σ ≠ In_push rest) →
  tasks (taskQueue Σ) = []
  ∧ in_transit (threads (taskQueue Σ)) = ∅
  ∧ being_processed (workers Σ) = ∅.
Proof.
  intros Hexec Hpos Hsleep Hmain.
  destruct (reachable_pool _ _ _ _ Hexec) as [[Hws Hths Hmc Hwork Hspawn] _].
  destruct Hmc as (c0 & Hc0 & Hcall).
  assert (c0 = Idle) as ->.
  { destruct (main_at Σ) eqn:Hat; try done. by destruct (Hmain rest). }
  assert (∀ (t : nat) c,
            threads (taskQueue Σ) !! t = Some c → c = Idle ∨ c = PopBlocked)
    as Hquiet.
  { intros [|i] c Hc; [left; congruence|]. right.
    apply lookup_lt_Some in Hc as Hlt. rewrite (Hsleep i) in Hc by lia. congruence. }
  destruct (pexec_queue _ _ _ _ _ _ Hexec) as [qsched Hq]. simpl in Hq.
  pose proof (exec_wakeup_inv _ _ _ _ _ Hq (wakeup_inv_init _)) as Hwake.
  split_and!.
  - eapply (sleeper_alone_queue_empty _ 1%nat); [done | by apply Hsleep |].
    intros t c Hc. by destruct (Hquiet _ _ Hc) as [-> | ->].
  - apply in_transit_empty. intros t c Hc. by destruct (Hquiet _ _ Hc) as [-> | ->].
  - apply being_processed_empty. intros i u Hi.
    destruct (Hwork _ _ Hi) as (c & Hc & Hu).
    apply lookup_lt_Some in Hi. rewrite Hsleep in Hc by lia. simplify_eq.
    by destruct u.
Qed.

Lemma drained_all_handled p sched tr Σ :
  pexec p sched [] (start p) = Some (tr, Σ) → drained p Σ → handled tr ≡ₚ seed p.
Proof.
  intros Hexec Hdrained. pose proof (tasks_conserved _ _ _ _ Hexec) as Hcons.
  unfold drained in Hdrained. rewrite Hdrained, (right_id_L ∅ (⊎)) in Hcons.
  by rewrite <- (elements_list_to_set_disj (handled tr)), <- Hcons,
    elements_list_to_set_disj.
Qed.

(** When [main] is outside [push] and every worker sleeps in [cv.wait], the
    queue is empty and every task pushed so far has gone through the
    handler; once [main] has left its seeding loop these are all the tasks
    of the seed: no task is left behind by a pool that has gone to sleep. *)
Theorem sleeping_pool_is_done p sched tr Σ :
  pexec p sched [] (start p) = Some (tr, Σ) →
  (0 < nworkers p)%nat →
  (∀ i, (i < nworkers p)%nat → threads (taskQueue Σ) !! S i = Some PopBlocked) →
  (∀ rest, main_at Σ ≠ In_push rest) →
  tasks (taskQueue Σ) = []
  ∧ seed p ≡ₚ handled tr ++ unpushed p (main_at Σ)
  ∧ (unpushed p (main_at Σ) = [] → drained p Σ ∧ handled tr ≡ₚ seed p).
Proof.
  intros Hexec Hpos Hsleep Hmain.
  destruct (sleeping_pool _ _ _ _ Hexec Hpos Hsleep Hmain) as (Hempty & Hcarried & Hhand).
  pose proof (tasks_conserved _ _ _ _ Hexec) as Hcons. unfold outstanding in Hcons.
  rewrite Hempty, Hcarried, Hhand in Hcons. simpl in Hcons.
  rewrite !(right_id_L ∅ (⊎)) in Hcons.
  assert (seed p ≡ₚ handled tr ++ unpushed p (main_at Σ)) as Hperm.
  { rewrite <- (elements_list_to_set_disj (seed p)), Hcons.
    by rewrite <- list_to_set_disj_app, elements_list_to_set_disj. }
  split_and!; [done | done |].
  intros Hnone. rewrite Hnone, app_nil_r in Hperm. split; [|done].
  unfold drained, outstanding. rewrite Hnone, Hempty, Hcarried, Hhand.
  multiset_solver.
Qed.

Lemma sleeping_pool_is_done_witness :
  ∃ tr Σ,
    pexec CodeSample.main drain_schedule [] (start CodeSample.main) = Some (tr, Σ)
    ∧ tasks (taskQueue Σ) = [] ∧ handled tr ≡ₚ seqZ 1 5.
Proof.
  pose proof drain_schedule_run as Hrun.
  destruct (pexec CodeSample.main drain_schedule [] (start CodeSample.main))
    as [[tr Σ]|] eqn:Hexec; [|done].
  simpl in Hrun. injection Hrun as Hhandled HΣ.
  assert (0 < nworkers CodeSample.main)%nat as Hpos by (simpl; lia).
  assert (∀ i, (i < nworkers CodeSample.main)%nat →
               threads (taskQueue Σ) !! S i = Some PopBlocked) as Hsleep.
  { rewrite HΣ. simpl. intros i Hi.
    destruct i as [|[|[|i]]]; [reflexivity..|lia]. }
  assert (∀ rest, main_at Σ ≠ In_push rest) as Hmain
    by (rewrite HΣ; intros rest; discriminate).
  destruct (sleeping_pool_is_done CodeSample.main drain_schedule tr Σ
              Hexec Hpos Hsleep Hmain) as (H1 & _ & H2).
  assert (unpushed CodeSample.main (main_at Σ) = []) as Hnone
    by (rewrite HΣ; reflexivity).
  exists tr, Σ. split; [reflexivity|]. split; [exact H1|].
  exact (proj2 (H2 Hnone)).
Defined.


(** *** The pool comes to rest only when the work is done *)

Lemma call_step_not_wake a c l c' :
  call_step a c l c' → c ≠ PopBlocked → spurious (In_queue l) = false.
Proof. destruct a, c; unfold call_step; simpl; try done; intros; break_call; done. Qed.

(** A step of a thread inside the queue is a step of the process. *)
Lemma thread_turn p Σ t (hint : tid) c l σ' :
  shape_inv p Σ → process Σ = Running →
  threads (taskQueue Σ) !! t = Some c → c ≠ Idle → c ≠ PopBlocked →
  step (Run t hint) (taskQueue Σ) = Some (l, σ') →
  ∃ l' Σ', pstep p (t, hint) Σ = Some (l', Σ') ∧ spurious l' = false.
Proof.
  intros [Hws Hths (c0 & Hc0 & Hmain) Hwork _] Hrun Ht Hidle Hblocked Hstep.
  destruct (step_thread _ _ _ _ Hstep) as (c1 & c' & Hc1 & _ & Hcall & _).
  unfold tid in *. simpl in Hc1.
  pose proof (eq_trans (eq_sym Hc1) Ht) as Hsame. simplify_eq.
  pose proof (call_step_not_wake _ _ _ _ Hcall Hblocked) as Hl.
  destruct Σ as [σ mpc ws st]. simpl in *. subst st.
  destruct t as [|j].
  - pose proof (eq_trans (eq_sym Hc0) Ht) as Hsame. simplify_eq.
    destruct mpc; try done.
    eexists _, _. unfold pstep, main_step. simpl. rewrite Hstep. done.
  - apply lookup_lt_Some in Ht as Hlt.
    destruct (lookup_lt_is_Some_2 ws j) as [u Hu]; [lia|].
    destruct (Hwork _ _ Hu) as (cj & Hcj & Hucj).
    pose proof (eq_trans (eq_sym Hcj) Ht) as Hsame. simplify_eq.
    destruct u; try done.
    eexists _, _. unfold pstep, worker_step. simpl. rewrite Hu, Hstep. done.
Qed.

(** A thread inside the queue that is not asleep lets the process move. *)
Lemma awake_thread_moves p sched tr Σ t c (hint : tid) :
  pexec p sched [] (start p) = Some (tr, Σ) → process Σ = Running →
  threads (taskQueue Σ) !! t = Some c → c ≠ Idle → c ≠ PopBlocked →
  ∃ turn l' Σ', pstep p turn Σ = Some (l', Σ') ∧ spurious l' = false.
Proof.
  intros Hexec Hrun Ht Hidle Hblocked.
  destruct (reachable_pool _ _ _ _ Hexec) as [Hshape _].
  destruct (pexec_queue _ _ _ _ _ _ Hexec) as [qsched Hq]. simpl in Hq.
  apply reachable_consistent in Hq.
  destruct (thread_progress _ _ _ _ hint Hq Ht Hidle Hblocked)
    as [(l & σ' & Hstep)|(o & co & l & σ' & _ & _ & Ho & Hco & Hstep)].
  - destruct (thread_turn p Σ t hint c l σ') as (l' & Σ' & ? & ?); eauto.
  - destruct (thread_turn p Σ o hint co l σ') as (l' & Σ' & ? & ?); eauto;
      by destruct co.
Qed.

Lemma all_asleep_or_one_awake ths :
  (∀ i c, ths !! i = Some c → c = PopBlocked)
  ∨ (∃ i c, ths !! i = Some c ∧ c ≠ PopBlocked).
Proof.
  induction ths as [|c0 ths IH]; [left; by intros i c|].
  destruct (decide (c0 = PopBlocked)) as [->|Hne]; [|right; by exists 0%nat, c0].
  destruct IH as [Hall|(i & c & Hi & Hc)]; [left|right].
  - intros [|i] c Hi; simplify_eq/=; eauto.
  - by exists (S i), c.
Qed.

Lemma pool_progress p sched tr Σ :
  pexec p sched [] (start p) = Some (tr, Σ) → process Σ = Running →
  (∃ turn l Σ', pstep p turn Σ = Some (l, Σ') ∧ spurious l = false)
  ∨ (at_shutdown p = Join ∧ main_at Σ = Shutting 0
     ∧ (0 < nworkers p)%nat
     ∧ (∀ i, (i < nworkers p)%nat → threads (taskQueue Σ) !! S i = Some PopBlocked)
     ∧ tasks (taskQueue Σ) = []
     ∧ handled tr ≡ₚ seed p).
Proof.
  intros Hexec Hrun. pose proof (0%nat : tid) as hint.
  destruct (reachable_pool _ _ _ _ Hexec) as [Hshape _].
  pose proof Hshape as [Hws Hths (c0 & Hc0 & Hmain) Hwork Hspawn].
  destruct (pexec_status _ _ _ _ _ _ Hexec (status_inv_start p))
    as (Hstatus & Hnone & Hjoin).
  rewrite Hrun in Hstatus. destruct Hstatus as [Hret _].
  assert (∀ l Σ', pstep p (0%nat, hint) Σ = Some (l, Σ') → spurious l = false →
    (∃ turn l Σ', pstep p turn Σ = Some (l, Σ') ∧ spurious l = false)
    ∨ (at_shutdown p = Join ∧ main_at Σ = Shutting 0 ∧ (0 < nworkers p)%nat
       ∧ (∀ i, (i < nworkers p)%nat →
               threads (taskQueue Σ) !! S i = Some PopBlocked)
       ∧ tasks (taskQueue Σ) = [] ∧ handled tr ≡ₚ seed p)) as Hmove
    by (intros l Σ' Hstep Hl; left; by exists (0%nat, hint), l, Σ').
  destruct (main_at Σ) as [k|[|v rest]|rest|k|] eqn:Hat; try done.
  - (* the spawning loop *)
    destruct (decide (k < nworkers p)%nat).
    + eapply Hmove; [unfold pstep, main_step; rewrite Hrun, Hat; simpl;
                     by rewrite decide_True | done].
    + eapply Hmove; [unfold pstep, main_step; rewrite Hrun, Hat; simpl;
                     by rewrite decide_False | done].
  - eapply Hmove; [unfold pstep, main_step; by rewrite Hrun, Hat | done].
  - (* main is about to call push *)
    simpl in Hmain. subst c0.
    eapply Hmove; [unfold pstep, main_step; rewrite Hrun, Hat; simpl;
                   unfold step; unfold tid in *; by rewrite Hc0 | done].
  - (* main is inside push *)
    left. eapply (awake_thread_moves _ _ _ _ 0%nat c0 hint); [done..| |];
      intros ->; done.
  - (* main is in its shutdown loop *)
    destruct (decide (k < nworkers p)%nat) as [Hk|Hk].
    2: { eapply Hmove; [unfold pstep, main_step; rewrite Hrun, Hat; simpl;
                        by rewrite decide_False | done]. }
    destruct (at_shutdown p) eqn:Hp.
    2: { eapply Hmove; [unfold pstep, main_step; rewrite Hrun, Hat; simpl;
                        by rewrite decide_True, Hp | done]. }
    specialize (Hjoin eq_refl). simpl in Hjoin. subst k.
    destruct (all_asleep_or_one_awake (tail (threads (taskQueue Σ))))
      as [Hall|(i & c & Hi & Hc)].
    + (* every worker sleeps *)
      right.
      assert (∀ i, (i < nworkers p)%nat →
                   threads (taskQueue Σ) !! S i = Some PopBlocked) as Hsleep.
      { intros i Hi. destruct (lookup_lt_is_Some_2 (threads (taskQueue Σ)) (S i))
          as [c Hc]; [lia|].
        rewrite <- (Hall i c); [done|]. by rewrite lookup_tail. }
      destruct (sleeping_pool p sched tr Σ Hexec Hk Hsleep)
        as (Hq & Hcarried & Hhand).
      { intros rest. by rewrite Hat. }
      split_and!; try done. eapply drained_all_handled; [done|].
      unfold drained, outstanding. rewrite Hat, Hq, Hcarried, Hhand.
      multiset_solver.
    + (* a worker is awake *)
      left. rewrite lookup_tail in Hi.
      apply lookup_lt_Some in Hi as Hlt.
      destruct (lookup_lt_is_Some_2 (workers Σ) i) as [u Hu]; [lia|].
      destruct (Hwork _ _ Hu) as (ci & Hci & Hui).
      pose proof (eq_trans (eq_sym Hci) Hi) as Hsame. simplify_eq.
      destruct u as [| | |v|].
      * by specialize (Hspawn _ _ Hu).
      * simpl in Hui. subst c.
        exists (S i, hint). eexists _, _. unfold pstep, worker_step.
        rewrite Hrun. simpl. rewrite Hu. unfold step. unfold tid in *.
        rewrite Hi. done.
      * eapply (awake_thread_moves _ _ _ _ (S i) c hint); [done..| |done].
        intros ->. done.
      * exists (S i, hint). eexists _, _. unfold pstep, worker_step.
        rewrite Hrun. simpl. rewrite Hu. done.
      * by destruct (Hnone i).
Qed.

(** The process never gets stuck half way.  While it runs, some thread can
    take a step that is not a spurious wake-up, with one exception: [main]
    waits in its first [join] and every worker sleeps in [cv.wait]; then the
    queue is empty and every task of the seed has gone through the handler.
    In that state the process is at rest: a step, if any, is a spurious
    wake-up of a worker. *)
Theorem pool_rests_only_when_done p sched tr Σ :
  pexec p sched [] (start p) = Some (tr, Σ) → process Σ = Running →
  ((∃ turn l Σ', pstep p turn Σ = Some (l, Σ') ∧ spurious l = false)
   ∨ (at_shutdown p = Join ∧ main_at Σ = Shutting 0
      ∧ (0 < nworkers p)%nat
      ∧ (∀ i, (i < nworkers p)%nat → threads (taskQueue Σ) !! S i = Some PopBlocked)
      ∧ tasks (taskQueue Σ) = []
      ∧ handled tr ≡ₚ seed p))
  ∧ (at_shutdown p = Join → main_at Σ = Shutting 0 → (0 < nworkers p)%nat →
     (∀ i, (i < nworkers p)%nat → threads (taskQueue Σ) !! S i = Some PopBlocked) →
     ∀ turn l Σ', pstep p turn Σ = Some (l, Σ') → spurious l = true).
Proof.
  intros Hexec Hrun. split; [by eapply pool_progress|].
  intros Hjoin Hat Hpos Hsleep [[|i] hint] l Σ'.
  - (* main waits for a thread function that does not return *)
    destruct (pexec_status _ _ _ _ _ _ Hexec (status_inv_start p)) as (_ & Hnone & _).
    unfold pstep, main_step. rewrite Hrun, Hat. simpl.
    rewrite decide_True, Hjoin by done.
    specialize (Hnone 0%nat). by destruct (workers Σ !! 0%nat) as [[]|].
  - (* a sleeping worker can only wake up *)
    destruct (reachable_pool _ _ _ _ Hexec) as [[Hws _ _ Hwork _] _].
    unfold pstep, worker_step. rewrite Hrun. simpl.
    destruct (workers Σ !! i) as [u|] eqn:Hu; [|done].
    destruct (Hwork _ _ Hu) as (c & Hc & Hcall).
    apply lookup_lt_Some in Hu. rewrite Hsleep in Hc by lia. simplify_eq.
    destruct u; try done.
    unfold step. unfold tid in *. rewrite Hsleep by lia. simpl.
    by intros [= <- <-].
Qed.

Lemma pool_rests_only_when_done_witness :
  ∃ tr Σ,
    pexec CodeSample.main drain_schedule [] (start CodeSample.main) = Some (tr, Σ)
    ∧ ((∃ turn l Σ', pstep CodeSample.main turn Σ = Some (l, Σ') ∧ spurious l = false)
       ∨ (at_shutdown CodeSample.main = Join ∧ main_at Σ = Shutting 0
          ∧ (0 < nworkers CodeSample.main)%nat
          ∧ (∀ i, (i < nworkers CodeSample.main)%nat →
                  threads (taskQueue Σ) !! S i = Some PopBlocked)
          ∧ tasks (taskQueue Σ) = []
          ∧ handled tr ≡ₚ seed CodeSample.main)).
Proof.
  pose proof drain_schedule_run as Hrun.
  destruct (pexec CodeSample.main drain_schedule [] (start CodeSample.main))
    as [[tr Σ]|] eqn:Hexec; [|done].
  simpl in Hrun. injection Hrun as Hhandled HΣ.
  assert (process Σ = Running) as Hrunning by (rewrite HΣ; reflexivity).
  exists tr, Σ. split; [reflexivity|].
  exact (proj1 (pool_rests_only_when_done CodeSample.main drain_schedule tr Σ
                  Hexec Hrunning)).
Defined.

End pool_facts.

(** * Runs of the pool that exist *)
Section schedule_facts.
Import MessageQueue Driver Wakeup Pool Schedules.
Implicit Types (σ : queue) (t w : tid) (c : call) (tr : list plabel).
Implicit Types (ths : list call) (q : list Z) (m : option tid).
Implicit Types (p : program) (Σ : system) (ws : list worker_pc).

Local Arguments step : simpl never.

Lemma pexec_app p s1 s2 tr Σ :
  pexec p (s1 ++ s2) tr Σ =
  match pexec p s1 tr Σ with
  | Some (tr1, Σ1) => pexec p s2 tr1 Σ1
  | None => None
  end.
Proof.
  revert tr Σ. induction s1 as [|turn s1 IH]; intros tr Σ; [done|]. simpl.
  destruct (pstep p turn Σ) as [[l Σ1]|]; [apply IH | done].
Qed.

Lemma exec_cons_inv a s (qtr : list label) σ qtr' σ' :
  exec (a :: s) qtr σ = Some (qtr', σ') →
  ∃ l σ1, step a σ = Some (l, σ1) ∧ exec s (qtr ++ [l]) σ1 = Some (qtr', σ').
Proof. simpl. destruct (step a σ) as [[l σ1]|]; [eauto|done]. Qed.

(** The steps of [main] and of a worker, seen from the program. *)
Lemma pstep_main_call p hint σ v rest ws l σ' :
  step (Call_push 0 v) σ = Some (l, σ') →
  pstep p (0%nat, hint) (System σ (Seeding (v :: rest)) ws Running)
  = Some (In_queue l, System σ' (In_push rest) ws Running).
Proof. intros Hstep. unfold pstep, main_step. simpl. by rewrite Hstep. Qed.

Lemma pstep_main_run p hint σ rest ws l σ' :
  step (Run 0 hint) σ = Some (l, σ') →
  pstep p (0%nat, hint) (System σ (In_push rest) ws Running)
  = Some (In_queue l,
          System σ' (match l with Return_push _ => Seeding rest | _ => In_push rest end)
                 ws Running).
Proof. intros Hstep. unfold pstep, main_step. simpl. by rewrite Hstep. Qed.

Lemma pstep_worker_call p i hint σ (mpc : main_pc) ws l σ' :
  ws !! i = Some Loop_top →
  step (Call_pop (S i)) σ = Some (l, σ') →
  pstep p (S i, hint) (System σ mpc ws Running)
  = Some (In_queue l, System σ' mpc (<[i := In_pop]> ws) Running).
Proof. intros Hi Hstep. unfold pstep, worker_step. simpl. by rewrite Hi, Hstep. Qed.

Lemma pstep_worker_run p i hint σ (mpc : main_pc) ws l σ' :
  ws !! i = Some In_pop →
  step (Run (S i) hint) σ = Some (l, σ') →
  pstep p (S i, hint) (System σ mpc ws Running)
  = Some (In_queue l,
          System σ' mpc
                 (<[i := match l with
                         | Return_pop _ taskId => Processing taskId
                         | _ => In_pop
                         end]> ws) Running).
Proof. intros Hi Hstep. unfold pstep, worker_step. simpl. by rewrite Hi, Hstep. Qed.

Lemma pstep_worker_handle p i hint σ (mpc : main_pc) ws v :
  ws !! i = Some (Processing v) →
  result (@processTask (handler p) v) = Normal tt →
  pstep p (S i, hint) (System σ mpc ws Running)
  = Some (Handled (S i) v (@processTask (handler p) v),
          System σ mpc (<[i := Loop_top]> ws) Running).
Proof.
  intros Hi Hres. unfold pstep, worker_step. simpl. by rewrite Hi, Hres.
Qed.

Lemma pstep_spawn p hint σ k ws :
  (k < nworkers p)%nat →
  pstep p (0%nat, hint) (System σ (Spawning k) ws Running)
  = Some (Spawned k, System σ (Spawning (S k)) (<[k := Loop_top]> ws) Running).
Proof. intros Hk. unfold pstep, main_step. simpl. by rewrite decide_True. Qed.

Lemma pstep_spawn_done p hint σ k ws :
  ¬ (k < nworkers p)%nat →
  pstep p (0%nat, hint) (System σ (Spawning k) ws Running)
  = Some (Loop_done, System σ (Seeding (seed p)) ws Running).
Proof. intros Hk. unfold pstep, main_step. simpl. by rewrite decide_False. Qed.

Lemma pstep_seed_done p hint σ ws :
  pstep p (0%nat, hint) (System σ (Seeding []) ws Running)
  = Some (Loop_done, System σ (Shutting 0) ws Running).
Proof. done. Qed.

Lemma pstep_detach p hint σ k ws :
  at_shutdown p = Detach → (k < nworkers p)%nat →
  pstep p (0%nat, hint) (System σ (Shutting k) ws Running)
  = Some (Detached k, System σ (Shutting (S k)) ws Running).
Proof.
  intros Hp Hk. unfold pstep, main_step. simpl. by rewrite decide_True, Hp.
Qed.

Lemma pstep_return p hint σ k ws :
  ¬ (k < nworkers p)%nat →
  pstep p (0%nat, hint) (System σ (Shutting k) ws Running)
  = Some (Main_returned 0, System σ Returned ws (Exited 0)).
Proof. intros Hk. unfold pstep, main_step. simpl. by rewrite decide_False. Qed.

Lemma turns_S t n : turns t (S n) = (t, t) :: turns t n.
Proof. done. Qed.

Lemma pexec_cons p turn sched tr Σ :
  pexec p (turn :: sched) tr Σ =
  match pstep p turn Σ with
  | Some (l, Σ') => pexec p sched (tr ++ [l]) Σ'
  | None => None
  end.
Proof. done. Qed.

Lemma pexec_nil p tr Σ : pexec p [] tr Σ = Some (tr, Σ).
Proof. done. Qed.

(** [main] starts the workers that are left to start. *)
Lemma spawn_loop p d : ∀ k ws tr σ,
  (k + d = nworkers p)%nat → length ws = nworkers p →
  ∃ tr' ws',
    pexec p (turns 0 (S d)) tr (System σ (Spawning k) ws Running)
    = Some (tr', System σ (Seeding (seed p)) ws' Running)
    ∧ handled tr' = handled tr
    ∧ length ws' = nworkers p
    ∧ (∀ i, (i < k)%nat → ws' !! i = ws !! i)
    ∧ (∀ i, (k ≤ i < nworkers p)%nat → ws' !! i = Some Loop_top).
Proof.
  induction d as [|d IH]; intros k ws tr σ Hk Hws.
  - exists (tr ++ [Loop_done]), ws.
    rewrite turns_S, pexec_cons, pstep_spawn_done by lia.
    rewrite handled_snoc, app_nil_r.
    split_and!; [done..|]. intros i Hi. lia.
  - destruct (IH (S k) (<[k := Loop_top]> ws) (tr ++ [Spawned k]) σ)
      as (tr' & ws' & Hrun & Hhandled & Hlen & Hbefore & Hafter);
      [lia | by rewrite length_insert |].
    exists tr', ws'. rewrite turns_S, pexec_cons, pstep_spawn by lia.
    rewrite handled_snoc, app_nil_r in Hhandled.
    split_and!; [done..| |].
    + intros i Hi. rewrite Hbefore by lia. by rewrite list_lookup_insert_ne by lia.
    + intros i Hi. destruct (decide (i = k)) as [->|Hne].
      * rewrite Hbefore by lia. apply list_lookup_insert_eq. lia.
      * apply Hafter. lia.
Qed.

(** [main] goes through its shutdown loop and returns. *)
Lemma detach_loop p d : ∀ k ws tr σ,
  at_shutdown p = Detach → (k + d = nworkers p)%nat →
  ∃ tr',
    pexec p (turns 0 (S d)) tr (System σ (Shutting k) ws Running)
    = Some (tr', System σ Returned ws (Exited 0))
    ∧ handled tr' = handled tr.
Proof.
  induction d as [|d IH]; intros k ws tr σ Hp Hk.
  - exists (tr ++ [Main_returned 0]).
    rewrite turns_S, pexec_cons, pstep_return by lia.
    by rewrite handled_snoc, app_nil_r.
  - destruct (IH (S k) ws (tr ++ [Detached k]) σ) as (tr' & Hrun & Hhandled);
      [done | lia |].
    exists tr'. rewrite turns_S, pexec_cons, pstep_detach by (done || lia).
    rewrite handled_snoc, app_nil_r in Hhandled. done.
Qed.

(** One call of [push] by [main], with no other thread in between. *)
Lemma push_turns p v rest ws tr σ :
  queueMutex σ = None → threads σ !! 0%nat = Some Idle →
  ∃ tr' ths',
    pexec p (turns 0 5) tr (System σ (Seeding (v :: rest)) ws Running)
    = Some (tr', System (Queue (tasks σ ++ [v]) None ths') (Seeding rest) ws Running)
    ∧ handled tr' = handled tr
    ∧ ∀ t, threads σ !! t = Some Idle → ths' !! t = Some Idle.
Proof.
  intros Hm Ht.
  destruct (push_alone_spec 0%nat v [] σ Hm Ht) as (woken & ths' & Hexec & Ht').
  assert (∀ t, threads σ !! t = Some Idle → ths' !! t = Some Idle) as Hidle.
  { intros t Hidle. destruct (decide (t = 0%nat)) as [->|Hne]; [done|].
    eapply (exec_idle_stays _ _ _ _ (Queue _ _ ths')); [done| |done].
    apply (pushes_alone_thread 0%nat [v]). done. }
  unfold push_alone in Hexec.
  apply exec_cons_inv in Hexec as (l1 & σ1 & H1 & Hexec).
  apply exec_cons_inv in Hexec as (l2 & σ2 & H2 & Hexec).
  apply exec_cons_inv in Hexec as (l3 & σ3 & H3 & Hexec).
  apply exec_cons_inv in Hexec as (l4 & σ4 & H4 & Hexec).
  apply exec_cons_inv in Hexec as (l5 & σ5 & H5 & Hexec).
  simpl in Hexec. simplify_eq.
  eexists _, ths'. rewrite !turns_S, pexec_cons.
  rewrite (pstep_main_call _ _ _ _ _ _ _ _ H1), pexec_cons.
  rewrite (pstep_main_run _ _ _ _ _ _ _ H2), pexec_cons.
  rewrite (pstep_main_run _ _ _ _ _ _ _ H3), pexec_cons.
  rewrite (pstep_main_run _ _ _ _ _ _ _ H4), pexec_cons.
  rewrite (pstep_main_run _ _ _ _ _ _ _ H5). simpl.
  split_and!; [done| |done].
  by rewrite !handled_snoc, !app_nil_r.
Qed.

Lemma turns_add t n1 n2 : turns t (n1 + n2) = turns t n1 ++ turns t n2.
Proof. apply replicate_add. Qed.

(** [main] pushes the tasks that are left, with no other thread in
    between, and leaves its seeding loop. *)
Lemma seeding_loop p rest : ∀ ws tr σ,
  queueMutex σ = None → threads σ !! 0%nat = Some Idle →
  ∃ tr' ths',
    pexec p (turns 0 (5 * length rest + 1)) tr (System σ (Seeding rest) ws Running)
    = Some (tr', System (Queue (tasks σ ++ rest) None ths') (Shutting 0) ws Running)
    ∧ handled tr' = handled tr.
Proof.
  induction rest as [|v rest IH]; intros ws tr σ Hm Ht.
  - exists (tr ++ [Loop_done]), (threads σ). simpl.
    rewrite handled_snoc, !app_nil_r. destruct σ. simpl in *. by subst.
  - destruct (push_turns p v rest ws tr σ Hm Ht)
      as (tr1 & ths1 & Hpush & Hhandled1 & Hidle).
    destruct (IH ws tr1 (Queue (tasks σ ++ [v]) None ths1) eq_refl (Hidle _ Ht))
      as (tr' & ths' & Hrest & Hhandled).
    exists tr', ths'.
    replace (5 * length (v :: rest) + 1)%nat with (5 + (5 * length rest + 1))%nat
      by (simpl; lia).
    rewrite turns_add, pexec_app, Hpush, Hrest. simpl.
    rewrite <- (assoc_L (++)). split; [done|congruence].
Qed.



(** One turn of the loop of a worker, with no other thread in between: the
    worker pops the task in front and runs the handler on it. *)
Lemma pop_turns p i v q (mpc : main_pc) ws tr σ :
  queueMutex σ = None → threads σ !! S i = Some Idle → tasks σ = v :: q →
  ws !! i = Some Loop_top →
  result (@processTask (handler p) v) = Normal tt →
  ∃ tr' ths',
    pexec p (turns (S i) 7) tr (System σ mpc ws Running)
    = Some (tr', System (Queue q None ths') mpc ws Running)
    ∧ handled tr' = handled tr ++ [v]
    ∧ ∀ t, threads σ !! t = Some Idle → ths' !! t = Some Idle.
Proof.
  intros Hm Ht Hq Hi Hres.
  assert (i < length ws)%nat as Hlt by (by eapply lookup_lt_Some).
  destruct (pop_alone_spec (S i) v q [] σ Hm Ht Hq) as (ths' & Hexec & Ht').
  assert (∀ t, threads σ !! t = Some Idle → ths' !! t = Some Idle) as Hidle.
  { intros t Hidle. destruct (decide (t = S i)) as [->|Hne]; [done|].
    eapply (exec_idle_stays _ _ _ _ (Queue _ _ ths')); [done| |done].
    apply (pops_alone_thread (S i) 1). done. }
  unfold pop_alone in Hexec.
  apply exec_cons_inv in Hexec as (l1 & σ1 & H1 & Hexec).
  apply exec_cons_inv in Hexec as (l2 & σ2 & H2 & Hexec).
  apply exec_cons_inv in Hexec as (l3 & σ3 & H3 & Hexec).
  apply exec_cons_inv in Hexec as (l4 & σ4 & H4 & Hexec).
  apply exec_cons_inv in Hexec as (l5 & σ5 & H5 & Hexec).
  apply exec_cons_inv in Hexec as (l6 & σ6 & H6 & Hexec).
  simpl in Hexec. simplify_eq.
  eexists _, ths'. rewrite !turns_S, pexec_cons.
  rewrite (pstep_worker_call _ _ _ _ _ _ _ _ Hi H1), pexec_cons.
  rewrite (pstep_worker_run _ _ _ _ _ _ _ _ ltac:(by apply list_lookup_insert_eq) H2).
  rewrite list_insert_insert_eq, pexec_cons.
  rewrite (pstep_worker_run _ _ _ _ _ _ _ _ ltac:(by apply list_lookup_insert_eq) H3).
  rewrite list_insert_insert_eq, pexec_cons.
  rewrite (pstep_worker_run _ _ _ _ _ _ _ _ ltac:(by apply list_lookup_insert_eq) H4).
  rewrite list_insert_insert_eq, pexec_cons.
  rewrite (pstep_worker_run _ _ _ _ _ _ _ _ ltac:(by apply list_lookup_insert_eq) H5).
  rewrite list_insert_insert_eq, pexec_cons.
  rewrite (pstep_worker_run _ _ _ _ _ _ _ _ ltac:(by apply list_lookup_insert_eq) H6).
  rewrite list_insert_insert_eq, pexec_cons.
  rewrite (pstep_worker_handle _ _ _ _ _ _ v ltac:(by apply list_lookup_insert_eq) Hres).
  rewrite list_insert_insert_eq, list_insert_id by done. simpl.
  split_and!; [done| |done].
  rewrite !handled_snoc. simpl. by rewrite !app_nil_r.
Qed.

(** [main] pushes the tasks that are left one by one and the first worker
    handles each of them before the next is pushed. *)
Lemma serve_loop p rest : ∀ ws tr σ,
  (∀ id, result (@processTask (handler p) id) = Normal tt) →
  queueMutex σ = None → tasks σ = [] →
  threads σ !! 0%nat = Some Idle → threads σ !! 1%nat = Some Idle →
  ws !! 0%nat = Some Loop_top →
  ∃ tr' ths',
    pexec p (mjoin ((λ _, turns 0 5 ++ turns 1 7) <$> rest) ++ turns 0 1) tr
          (System σ (Seeding rest) ws Running)
    = Some (tr', System (Queue [] None ths') (Shutting 0) ws Running)
    ∧ handled tr' = handled tr ++ rest
    ∧ ths' !! 0%nat = Some Idle.
Proof.
  induction rest as [|v rest IH]; intros ws tr σ Hres Hm Hq Hmain Hworker Hws.
  - exists (tr ++ [Loop_done]), (threads σ). simpl.
    rewrite handled_snoc, !app_nil_r. destruct σ. simpl in *. by subst.
  - destruct (push_turns p v rest ws tr σ Hm Hmain)
      as (tr1 & ths1 & Hpush & Hhandled1 & Hidle1).
    destruct (pop_turns p 0 v [] (Seeding rest) ws tr1
                (Queue (tasks σ ++ [v]) None ths1) eq_refl (Hidle1 _ Hworker))
      as (tr2 & ths2 & Hpop & Hhandled2 & Hidle2);
      [by rewrite Hq | done | done |].
    destruct (IH ws tr2 (Queue [] None ths2) Hres eq_refl eq_refl)
      as (tr' & ths' & Hrest & Hhandled & Hmain');
      [by apply Hidle2, Hidle1 | by apply Hidle2, Hidle1 | done |].
    exists tr', ths'.
    change (mjoin ((λ _, turns 0 5 ++ turns 1 7) <$> v :: rest) ++ turns 0 1)
      with ((turns 0 5 ++ turns 1 7)
            ++ mjoin ((λ _ : Z, turns 0 5 ++ turns 1 7) <$> rest) ++ turns 0 1).
    rewrite pexec_app, pexec_app, Hpush. cbv beta iota. rewrite Hpop. cbv beta iota.
    rewrite Hrest.
    split_and!; [done| |done].
    rewrite Hhandled, Hhandled2, Hhandled1. by rewrite <- (assoc_L (++)).
Qed.

(** Whatever the number of workers (at least one), the seed and the
    handler, if it returns normally: there is a schedule on which every task
    of the seed goes through the handler, in the order of the seed, and the
    workers write what the handler writes on these tasks in that order; at
    the end the queue is drained and [main] stands at its shutdown loop. *)
Theorem pool_can_serve_the_seed p :
  (0 < nworkers p)%nat →
  (∀ id, result (@processTask (handler p) id) = Normal tt) →
  ∃ tr Σ,
    pexec p (one_by_one p) [] (start p) = Some (tr, Σ)
    ∧ handled tr = seed p
    ∧ output tr = mjoin ((λ v, events (@processTask (handler p) v)) <$> seed p)
    ∧ drained p Σ
    ∧ tasks (taskQueue Σ) = []
    ∧ main_at Σ = Shutting 0
    ∧ process Σ = Running.
Proof.
  intros Hpos Hres. unfold one_by_one.
  destruct (spawn_loop p (nworkers p) 0%nat (replicate (nworkers p) Not_started) []
              (init (S (nworkers p))))
    as (tr1 & ws1 & Hspawn & Hhandled1 & _ & _ & Hstarted);
    [done | apply length_replicate |].
  destruct (serve_loop p (seed p) ws1 tr1 (init (S (nworkers p))) Hres eq_refl eq_refl)
    as (tr2 & ths2 & Hserve & Hhandled2 & Hmain).
  { done. }
  { simpl. apply lookup_replicate. split; [done|lia]. }
  { apply Hstarted. lia. }
  assert (pexec p (turns 0 (S (nworkers p))
                   ++ mjoin ((λ _, turns 0 5 ++ turns 1 7) <$> seed p) ++ turns 0 1)
                [] (start p)
          = Some (tr2, System (Queue [] None ths2) (Shutting 0) ws1 Running)) as Hexec.
  { unfold start. rewrite pexec_app, Hspawn. cbv beta iota. exact Hserve. }
  exists tr2, (System (Queue [] None ths2) (Shutting 0) ws1 Running).
  assert (handled tr2 = seed p) as Hhandled by (by rewrite Hhandled2, Hhandled1).
  destruct (reachable_pool _ _ _ _ Hexec) as [_ [_ _ Hruns]].
  pose proof (tasks_conserved _ _ _ _ Hexec) as Hcons.
  split_and!; [done | done | | | done..].
  - by rewrite (output_of_handled _ _ Hruns), Hhandled.
  - unfold drained. rewrite Hhandled in Hcons.
    apply (inj (list_to_set_disj (seed p) ⊎.)). by rewrite (right_id_L ∅ (⊎)).
Qed.

Lemma pool_can_serve_the_seed_witness :
  ∃ tr Σ,
    pexec CodeSample.main (one_by_one CodeSample.main) [] (start CodeSample.main)
    = Some (tr, Σ)
    ∧ handled tr = seqZ 1 5.
Proof.
  assert (0 < nworkers CodeSample.main)%nat as Hpos by (simpl; lia).
  destruct (pool_can_serve_the_seed CodeSample.main Hpos)
    as (tr & Σ & Hexec & Hhandled & _).
  { intros id. apply handlers_return. by left. }
  exists tr, Σ. split; [exact Hexec | exact Hhandled].
Defined.

End schedule_facts.

(** * Every run is finite *)
Section measure_facts.
Import MessageQueue Driver Wakeup Pool Measure.
Implicit Types (σ : queue) (t w : tid) (c : call) (tr : list plabel).
Implicit Types (ths : list call) (q : list Z) (m : option tid).
Implicit Types (p : program) (Σ : system) (ws : list worker_pc).

Local Arguments step : simpl never.
Local Arguments Nat.mul : simpl never.
Local Arguments Nat.sub : simpl never.

Lemma pool_weight_insert ws i (u u' : worker_pc) :
  ws !! i = Some u →
  (pool_weight (<[i := u']> ws) + worker_weight u = pool_weight ws + worker_weight u')%nat.
Proof.
  revert i. induction ws as [|u0 ws IH]; intros [|i] Hi; simplify_eq/=.
  - lia.
  - rewrite <- !Nat.add_assoc. f_equal. by apply IH.
Qed.

Lemma pool_weight_start n : pool_weight (replicate n Not_started) = 0%nat.
Proof. induction n as [|n IH]; [done|]. simpl. exact IH. Qed.

(** What a step of the queue does to its weight. *)
Lemma step_weight a σ l σ' :
  step a σ = Some (l, σ') → front_inv σ →
  match l with
  | Invoke_push _ _ => queue_weight σ' = (queue_weight σ + 14)%nat
  | Invoke_pop _ => queue_weight σ' = (queue_weight σ + 3)%nat
  | Wake _ => queue_weight σ' = (queue_weight σ + 3)%nat
  | Return_pop _ _ => (queue_weight σ' + 6)%nat = queue_weight σ
  | _ => (queue_weight σ' + 1 ≤ queue_weight σ)%nat
  end.
Proof.
  destruct σ as [q m ths]. unfold step, run_stmt, queue_weight. simpl.
  intros Hstep Hfront.
  repeat case_match; simplify_eq; simpl;
    try match goal with
        | H : ths !! ?t0 = Some ?c0 |- context [<[?t0 := ?c']> ths] =>
            pose proof (tally_insert call_weight ths t0 c0 c' H) as Hins;
            simpl in Hins; rewrite ?length_app; simpl; lia
        end.
  - (* notify_one *)
    destruct (notify_one hint ths) as [w|] eqn:Hw; simpl.
    + apply notify_one_blocked in Hw.
      match goal with
      | H : ths !! ?t0 = Some PushNotify |- _ =>
          assert (<[w := PopRelock]> ths !! t0 = Some PushNotify) as Ht'
            by (by rewrite list_lookup_insert_ne by congruence);
          pose proof (tally_insert call_weight _ t0 _ PushUnlock Ht') as H1
      end.
      pose proof (tally_insert call_weight ths w _ PopRelock Hw) as H2.
      simpl in *. lia.
    + match goal with
      | H : ths !! ?t0 = Some PushNotify |- _ =>
          pose proof (tally_insert call_weight ths t0 _ PushUnlock H) as Hins
      end.
      simpl in Hins. lia.
  - (* the removal *)
    match goal with
    | H : ths !! ?t0 = Some (PopDequeue ?v) |- _ =>
        pose proof (tally_insert call_weight ths t0 _ (PopUnlock v) H) as Hins
    end.
    match goal with
    | H : ths !! ?t0 = Some (PopDequeue ?v) |- _ =>
        pose proof (proj2 (Hfront t0) v H) as Hhead
    end.
    simpl in Hins, Hhead. destruct q; simpl in *; [done|lia].
Qed.

Lemma spurious_wakeups_snoc tr l :
  spurious_wakeups (tr ++ [l])
  = (spurious_wakeups tr + if spurious l then 1 else 0)%nat.
Proof.
  unfold spurious_wakeups. rewrite list.filter_app, length_app. f_equal.
  destruct (spurious l) eqn:Hl.
  - by rewrite filter_cons_True.
  - rewrite filter_cons_False; [done|]. by rewrite Hl.
Qed.

(** Every step of the process uses up one of the steps that are left, but
    a spurious wake-up, which gives the woken thread three more. *)
Lemma pstep_weight p turn Σ l Σ' :
  pstep p turn Σ = Some (l, Σ') → front_inv (taskQueue Σ) →
  (steps_left p Σ' + 1 ≤ steps_left p Σ + if spurious l then 4 else 0)%nat.
Proof.
  unfold pstep, main_step, worker_step, steps_left.
  destruct Σ as [σ mpc ws st]. simpl. intros Hstep Hfront.
  destruct st; [|done..]. destruct turn as [[|i] hint]; simpl in Hstep.
  - (* main *)
    destruct mpc as [k|[|v rest]|rest|k|].
    + case_decide; simplify_eq; simpl; [|lia].
      destruct (ws !! k) as [u|] eqn:Hu.
      * pose proof (pool_weight_insert ws k u Loop_top Hu) as Hins. simpl in Hins. lia.
      * rewrite list_insert_ge by (by apply lookup_ge_None). lia.
    + simplify_eq. simpl. lia.
    + destruct (step _ _) as [[ql σ1]|] eqn:Hq; simplify_eq.
      pose proof (step_label _ _ _ _ Hq) as Hl. simpl in Hl. subst ql.
      pose proof (step_weight _ _ _ _ Hq Hfront) as Hw. simpl in *. lia.
    + destruct (step _ _) as [[ql σ1]|] eqn:Hq; simplify_eq.
      pose proof (step_label _ _ _ _ Hq) as Hl. simpl in Hl.
      pose proof (step_weight _ _ _ _ Hq Hfront) as Hw.
      destruct ql; try done; simpl in *; lia.
    + repeat case_match; simplify_eq; simpl; lia.
    + done.
  - (* a worker *)
    destruct (ws !! i) as [[| | |v|]|] eqn:Hi; try done.
    + destruct (step _ _) as [[ql σ1]|] eqn:Hq; simplify_eq.
      pose proof (step_label _ _ _ _ Hq) as Hl. simpl in Hl. subst ql.
      pose proof (step_weight _ _ _ _ Hq Hfront) as Hw. simpl in Hw.
      pose proof (pool_weight_insert ws i _ In_pop Hi) as Hins. simpl in *. lia.
    + destruct (step _ _) as [[ql σ1]|] eqn:Hq; simplify_eq.
      pose proof (step_label _ _ _ _ Hq) as Hl. simpl in Hl.
      pose proof (step_weight _ _ _ _ Hq Hfront) as Hw.
      destruct ql; try done; simpl in *;
        match goal with
        | |- context [pool_weight (<[i := ?u']> ws)] =>
            pose proof (pool_weight_insert ws i _ u' Hi) as Hins
        end; simpl in Hins; lia.
    + simplify_eq.
      pose proof (pool_weight_insert ws i _ Loop_top Hi) as Hins. simpl in *. lia.
Qed.


Lemma pexec_weight p sched : ∀ tr Σ tr' Σ' (qtr : list label),
  pexec p sched tr Σ = Some (tr', Σ') → consistent qtr (taskQueue Σ) →
  length tr' = (length tr + length sched)%nat
  ∧ (length tr' + steps_left p Σ' + 4 * spurious_wakeups tr
     ≤ length tr + steps_left p Σ + 4 * spurious_wakeups tr')%nat.
Proof.
  induction sched as [|turn sched IH]; intros tr Σ tr' Σ' qtr Hexec Hcons.
  - simplify_eq/=. lia.
  - simpl in Hexec. destruct (pstep p turn Σ) as [[l Σ1]|] eqn:Hstep; [|done].
    pose proof (pstep_weight _ _ _ _ _ Hstep (consistent_front _ _ Hcons)) as Hw.
    pose proof (pstep_queue _ _ _ _ _ Hstep) as Hq.
    assert (∃ qtr1, consistent qtr1 (taskQueue Σ1)) as [qtr1 Hcons1].
    { destruct l; try (rewrite Hq; by eexists).
      destruct Hq as [a Ha]. eexists. by eapply step_consistent. }
    destruct (IH _ _ _ _ _ Hexec Hcons1) as [Hlen Hle].
    rewrite length_app in Hlen, Hle. rewrite spurious_wakeups_snoc in Hle.
    simpl in *. split; [lia|]. destruct (spurious l); lia.
Qed.

Lemma steps_left_start p :
  steps_left p (start p) = (6 * nworkers p + 15 * length (seed p) + 3)%nat.
Proof.
  unfold steps_left, start, queue_weight. simpl.
  rewrite pool_weight_start, tally_zero by (by intros t c [-> _]%lookup_replicate).
  lia.
Qed.

Lemma runs_bounded p sched tr Σ :
  pexec p sched [] (start p) = Some (tr, Σ) →
  length tr = length sched
  ∧ (length sched + steps_left p Σ
     ≤ 6 * nworkers p + 15 * length (seed p) + 3 + 4 * spurious_wakeups tr)%nat.
Proof.
  intros Hexec.
  destruct (pexec_weight _ _ _ _ _ _ [] Hexec (consistent_init _)) as [Hlen Hle].
  rewrite steps_left_start in Hle. simpl in Hlen, Hle.
  unfold spurious_wakeups in Hle at 1. simpl in Hle. split; [done|lia].
Qed.

(** Every run is finite, spurious wake-ups apart.  A run of the process
    takes at most 6 steps for each worker, 15 for each task of the seed and 3
    more, and 4 for each spurious wake-up; the steps that are left in a state
    are bounded in the same way.  So without spurious wake-ups no schedule of
    the two programs, which have 3 workers and 5 tasks, runs for more than 96
    steps. *)
Theorem runs_are_bounded p sched tr Σ :
  pexec p sched [] (start p) = Some (tr, Σ) →
  length tr = length sched
  ∧ (length sched + steps_left p Σ
     ≤ 6 * nworkers p + 15 * length (seed p) + 3 + 4 * spurious_wakeups tr)%nat
  ∧ (p = CodeSample.main ∨ p = WithSOLID.main →
     (length sched ≤ 96 + 4 * spurious_wakeups tr)%nat).
Proof.
  intros Hexec. destruct (runs_bounded _ _ _ _ Hexec) as [Hlen Hle].
  split_and!; [done..|].
  intros [-> | ->];
    change (nworkers _) with 3%nat in Hle; change (length (seed _)) with 5%nat in Hle;
    lia.
Qed.

Lemma runs_are_bounded_witness :
  ∃ tr Σ,
    pexec CodeSample.main drain_schedule [] (start CodeSample.main) = Some (tr, Σ)
    ∧ (length drain_schedule ≤ 96 + 4 * spurious_wakeups tr)%nat.
Proof.
  pose proof drain_schedule_run as Hrun.
  destruct (pexec CodeSample.main drain_schedule [] (start CodeSample.main))
    as [[tr Σ]|] eqn:Hexec; [clear Hrun|done].
  destruct (runs_are_bounded CodeSample.main drain_schedule tr Σ Hexec)
    as (_ & _ & Hbound).
  exists tr, Σ. split; [reflexivity|]. exact (Hbound (or_introl eq_refl)).
Defined.

(** The first variant always gets its work done.  Whatever the
    interleaving, a run of it is never terminated and never exits; after at
    most 96 steps, and 4 more for each spurious wake-up, no thread can take a
    step that is not a spurious wake-up, and in such a state [main] waits in
    its first [join], the three workers sleep on the empty queue, and each of
    the tasks 1 to 5 has been handled once: [sendMessage] has been called
    once with each of the five payloads, in some order. *)
Theorem first_variant_completes sched tr Σ :
  pexec CodeSample.main sched [] (start CodeSample.main) = Some (tr, Σ) →
  process Σ = Running
  ∧ (length sched ≤ 96 + 4 * spurious_wakeups tr)%nat
  ∧ ((∃ turn l Σ', pstep CodeSample.main turn Σ = Some (l, Σ') ∧ spurious l = false)
     ∨ (main_at Σ = Shutting 0
        ∧ (∀ i, (i < 3)%nat → threads (taskQueue Σ) !! S i = Some PopBlocked)
        ∧ tasks (taskQueue Σ) = []
        ∧ handled tr ≡ₚ seqZ 1 5
        ∧ notifications (output tr) ≡ₚ payload_of <$> seqZ 1 5)).
Proof.
  intros Hexec.
  assert (process Σ = Running) as Hrun.
  { eapply still_running, (pexec_stuck_in_join CodeSample.main);
      [done | simpl; lia | | exact Hexec | apply stuck_in_join_start].
    intros id. apply handlers_return. by left. }
  destruct (runs_bounded _ _ _ _ Hexec) as [_ Hle].
  change (nworkers CodeSample.main) with 3%nat in Hle.
  change (length (seed CodeSample.main)) with 5%nat in Hle.
  split_and!; [done | lia |].
  destruct (pool_progress _ _ _ _ Hexec Hrun)
    as [Hmove|(_ & Hmain & _ & Hsleep & Hq & Hdone)]; [by left|right].
  split_and!; [done..|].
  destruct (reachable_pool _ _ _ _ Hexec) as [_ [_ _ Hruns]].
  rewrite (output_of_handled _ _ Hruns).
  destruct (notifications_lines
              (λ v, events (@processTask (handler CodeSample.main) v)) cerr (handled tr))
    as [Hlines Hnote]; [|rewrite Hlines, Hnote; by apply fmap_Permutation].
  intros v Hv. apply process1_lines. rewrite Hdone in Hv.
  change (seed CodeSample.main) with (seqZ 1 5) in Hv.
  apply elem_of_seqZ in Hv. lia.
Qed.

Lemma first_variant_completes_witness :
  ∃ tr Σ,
    pexec CodeSample.main drain_schedule [] (start CodeSample.main) = Some (tr, Σ)
    ∧ process Σ = Running.
Proof.
  pose proof drain_schedule_run as Hrun.
  destruct (pexec CodeSample.main drain_schedule [] (start CodeSample.main))
    as [[tr Σ]|] eqn:Hexec; [clear Hrun|done].
  destruct (first_variant_completes drain_schedule tr Σ Hexec) as (Hrunning & _).
  exists tr, Σ. split; [reflexivity | exact Hrunning].
Defined.

End measure_facts.

(** * The two variants as processes *)
Section variant_facts.
Import MessageQueue Driver Wakeup Pool Measure Variants.
Implicit Types (σ : queue) (t w : tid) (c : call) (tr : list plabel).
Implicit Types (p : program) (Σ : system) (ws : list worker_pc).

Local Arguments step : simpl never.

(** The second variant up to the return of [main].  Whatever the
    interleaving: as long as [main] has not returned the process is running
    and some thread can take a step that is not a spurious wake-up, since
    [main] detaches its workers and never waits for one; a run up to the
    return of [main] has at most 96 steps, and 4 more for each spurious
    wake-up, so that return cannot be put off for ever; and the tasks
    handled by then are among 1 to 5, each at most once. *)
Theorem second_variant_reaches_return sched tr Σ :
  pexec WithSOLID.main sched [] (start WithSOLID.main) = Some (tr, Σ) →
  (length sched ≤ 96 + 4 * spurious_wakeups tr)%nat
  ∧ (main_at Σ ≠ Returned →
     process Σ = Running
     ∧ ∃ turn l Σ', pstep WithSOLID.main turn Σ = Some (l, Σ') ∧ spurious l = false)
  ∧ handled tr ⊆+ seqZ 1 5
  ∧ NoDup (handled tr).
Proof.
  intros Hexec.
  destruct (runs_bounded _ _ _ _ Hexec) as [_ Hle].
  change (nworkers WithSOLID.main) with 3%nat in Hle.
  change (length (seed WithSOLID.main)) with 5%nat in Hle.
  assert (process Σ ≠ Terminated) as Hterm.
  { eapply pexec_absorbs; [|exact Hexec|done]. intros id. apply handlers_return.
    by right. }
  destruct (pexec_status _ _ _ _ _ _ Hexec (status_inv_start _)) as (Hstatus & _ & _).
  pose proof (tasks_conserved _ _ _ _ Hexec) as Hcons.
  assert (handled tr ⊆+ seqZ 1 5) as Hsub.
  { change (seqZ 1 5) with (seed WithSOLID.main).
    apply list_to_set_disj_submseteq. rewrite Hcons. multiset_solver. }
  split_and!; [lia | | done |].
  - intros Hmain.
    assert (process Σ = Running) as Hp.
    { destruct (process Σ) as [|code|]; [done| |done].
      by destruct Hstatus as (_ & ? & _). }
    split; [done|].
    destruct (pool_progress _ _ _ _ Hexec Hp) as [Hmove|(Hjoin & _)]; [done|].
    discriminate Hjoin.
  - eapply submseteq_NoDup; [done|]. apply NoDup_seqZ.
Qed.

Lemma second_drain_run :
  (main_at ∘ snd) <$> pexec WithSOLID.main drain_schedule [] (start WithSOLID.main)
  = Some (Shutting 0).
Proof. by vm_compute. Qed.

Lemma second_variant_reaches_return_witness :
  ∃ tr Σ,
    pexec WithSOLID.main drain_schedule [] (start WithSOLID.main) = Some (tr, Σ)
    ∧ process Σ = Running
    ∧ ∃ turn l Σ', pstep WithSOLID.main turn Σ = Some (l, Σ') ∧ spurious l = false.
Proof.
  pose proof second_drain_run as Hrun.
  destruct (pexec WithSOLID.main drain_schedule [] (start WithSOLID.main))
    as [[tr Σ]|] eqn:Hexec; [|discriminate].
  injection Hrun as Hmain. simpl in Hmain.
  destruct (second_variant_reaches_return drain_schedule tr Σ Hexec) as (_ & Hgo & _).
  exists tr, Σ. split; [reflexivity|]. apply Hgo. rewrite Hmain. discriminate.
Defined.

(** *** The second variant does what the first does *)

Lemma process_events_on_cerr (id : Z) :
  events (process1 id) = on_cerr <$> events (process2 id).
Proof.
  destruct (fetch_cases id) as [[_ Hf]|[_ Hf]].
  - by rewrite (process1_found _ _ Hf), (process2_found _ _ Hf).
  - by rewrite (process1_failed _ _ Hf), (process2_failed _ _ Hf).
Qed.

Lemma pstep_as_second turn Σ l Σ' :
  pstep CodeSample.main turn Σ = Some (l, Σ') →
  (∀ i, workers Σ !! i ≠ Some Finished) →
  pstep WithSOLID.main turn Σ = Some (as_second l, Σ').
Proof.
  unfold pstep, main_step, worker_step. destruct Σ as [σ mpc ws st]. simpl.
  intros Hstep Hnone. destruct st; [|done..].
  destruct turn as [[|i] hint]; simpl in *.
  - destruct mpc as [k|[|v rest]|rest|k|]; try done.
    + by case_decide; simplify_eq.
    + by simplify_eq.
    + by destruct (step _ _) as [[ql σ1]|]; simplify_eq.
    + by destruct (step _ _) as [[ql σ1]|]; simplify_eq.
    + case_decide; [|by simplify_eq].
      destruct (ws !! k) as [[]|] eqn:Hk; try done. by destruct (Hnone k).
  - destruct (ws !! i) as [[| | |v|]|] eqn:Hi; try done.
    + by destruct (step _ _) as [[ql σ1]|]; simplify_eq.
    + by destruct (step _ _) as [[ql σ1]|]; simplify_eq.
    + simplify_eq. simpl. by rewrite process1_returns, process2_returns.
Qed.

Lemma pexec_as_second sched : ∀ tr0 Σ0 tr Σ,
  pexec CodeSample.main sched tr0 Σ0 = Some (tr, Σ) →
  (∀ i, workers Σ0 !! i ≠ Some Finished) →
  pexec WithSOLID.main sched (as_second <$> tr0) Σ0 = Some (as_second <$> tr, Σ).
Proof.
  induction sched as [|turn sched IH]; intros tr0 Σ0 tr Σ Hexec Hnone.
  - by simplify_eq/=.
  - simpl in Hexec.
    destruct (pstep CodeSample.main turn Σ0) as [[l Σ1]|] eqn:Hstep; [|done].
    simpl. rewrite (pstep_as_second _ _ _ _ Hstep Hnone).
    replace ((as_second <$> tr0) ++ [as_second l]) with (as_second <$> (tr0 ++ [l]))
      by (by rewrite fmap_app).
    apply IH; [done|].
    by eapply pstep_no_finish.
Qed.

Lemma first_blocks_in_join :
  pexec CodeSample.main main_only_schedule [] (start CodeSample.main) = None.
Proof. by vm_compute. Qed.

(** Every run of the first variant is a run of the second: on the same
    schedule the second variant goes through the same states, takes the same
    steps of the queue and handles the same tasks in the same order; and
    each call of the handler ends in the same way, makes the same calls of
    [sendMessage] and writes the same lines, on [std::cout] where the first
    variant writes on [std::cerr] but for the error records.  Not the other
    way round: [main] running alone up to its return is a run of the second
    variant and no run of the first, whose [main] blocks in [join]. *)
Theorem second_variant_follows_first sched tr Σ :
  pexec CodeSample.main sched [] (start CodeSample.main) = Some (tr, Σ) →
  pexec WithSOLID.main sched [] (start WithSOLID.main) = Some (as_second <$> tr, Σ)
  ∧ queue_trace (as_second <$> tr) = queue_trace tr
  ∧ handled (as_second <$> tr) = handled tr
  ∧ Forall same_call tr
  ∧ (pexec WithSOLID.main main_only_schedule [] (start WithSOLID.main) ≠ None
     ∧ pexec CodeSample.main main_only_schedule [] (start CodeSample.main) = None).
Proof.
  intros Hexec.
  assert (queue_trace (as_second <$> tr) = queue_trace tr) as Hq.
  { clear. unfold queue_trace. induction tr as [|l tr IH]; [done|].
    destruct l; simpl; first [exact IH | f_equal; exact IH]. }
  assert (handled (as_second <$> tr) = handled tr) as Hh.
  { clear. unfold handled. induction tr as [|l tr IH]; [done|].
    destruct l; simpl; first [exact IH | f_equal; exact IH]. }
  destruct (reachable_pool _ _ _ _ Hexec) as [_ [_ _ Hruns]].
  assert (∀ es, notifications (on_cerr <$> es) = notifications es) as Hnote.
  { intros es. unfold notifications. induction es as [|e es IH]; [done|].
    destruct e; simpl; first [exact IH | f_equal; exact IH]. }
  split; [|split; [done|split; [done|split]]].
  - apply (pexec_as_second sched [] (start CodeSample.main)); [done|].
    intros i [? _]%lookup_replicate. done.
  - eapply list.Forall_impl; [exact Hruns|]. intros [] Hl; try done.
    destruct Hl as [_ ->]. simpl.
    change (@processTask (handler CodeSample.main) taskId) with (process1 taskId).
    split_and!; [done| | |].
    + by rewrite process1_returns, process2_returns.
    + apply process_events_on_cerr.
    + by rewrite process_events_on_cerr, Hnote.
  - split; [|exact first_blocks_in_join].
    pose proof main_only_run as Hrun.
    destruct (pexec WithSOLID.main main_only_schedule [] (start WithSOLID.main));
      [discriminate | discriminate Hrun].
Qed.

Lemma second_variant_follows_first_witness :
  ∃ tr Σ,
    pexec CodeSample.main drain_schedule [] (start CodeSample.main) = Some (tr, Σ)
    ∧ pexec WithSOLID.main drain_schedule [] (start WithSOLID.main)
      = Some (as_second <$> tr, Σ).
Proof.
  pose proof drain_schedule_run as Hrun.
  destruct (pexec CodeSample.main drain_schedule [] (start CodeSample.main))
    as [[tr Σ]|] eqn:Hexec; [clear Hrun|done].
  destruct (second_variant_follows_first drain_schedule tr Σ Hexec) as (Hsecond & _).
  exists tr, Σ. split; [reflexivity | exact Hsecond].
Defined.

End variant_facts.

(** * The lookup names its task *)

Lemma to_string_inj (z1 z2 : Z) : to_string z1 = to_string z2 → z1 = z2.
Proof.
  unfold to_string. intros Heq. apply DecimalZ.to_int_inj.
  apply (f_equal NilZero.int_of_string) in Heq.
  assert (∀ z, Z.to_int z ≠ Pos Nil ∧ Z.to_int z ≠ Neg Nil) as Hnonnil.
  { intros [|q|q]; simpl; split; try discriminate;
      intros [= Hq]; by apply DecimalPos.Unsigned.to_uint_nonnil in Hq. }
  rewrite !NilZero.isi in Heq by apply Hnonnil. congruence.
Qed.

(** The result of the lookup names its task: two identifiers with the same
    result, message or exception, are the same identifier.  So are two
    identifiers with the same decimal rendering. *)
Theorem lookup_names_the_task (id1 id2 : Z) :
  (to_string id1 = to_string id2 → id1 = id2)
  ∧ (fetch1 id1 = fetch1 id2 → id1 = id2)
  ∧ (fetch2 id1 = fetch2 id2 → id1 = id2).
Proof.
  assert (fetch1 id1 = fetch1 id2 → id1 = id2) as Hfetch.
  { destruct (fetch_cases id1) as [[_ ->]|[_ ->]],
             (fetch_cases id2) as [[_ ->]|[_ ->]]; intros Heq; try done.
    - apply to_string_inj. injection Heq as Heq. by simplify_eq/=.
    - apply to_string_inj. injection Heq as Heq. by simplify_eq/=. }
  split_and!; [apply to_string_inj | done | done].
Qed.

Lemma lookup_names_the_task_witness : 3 = 3.
Proof. exact (proj1 (proj2 (lookup_names_the_task 3 3)) eq_refl). Defined.
